(** * Path-ORAM client/server and PKI chain validation: a shallow embedding

    The two Python modules [PathORAM.py] and [PKI.py] are embedded as Rocq
    functions.  Python objects that are mutated in place (the server's tree,
    the client's position map, the CAs' revocation lists) are kept in explicit
    stores that every operation threads through; Python exceptions are
    outcomes of the operations, next to normal returns. *)

From Stdlib Require Import ZArith String Ascii List Lia DecimalString DecimalZ.
From stdpp Require Import gmap strings list.

Open Scope Z_scope.

(** ** Python values and exceptions shared by the two modules *)

Module Py.

(** The exceptions the modelled code can raise.  [Diverges] is not a Python
    exception: it marks a reject-on-equal sampling loop that used up the
    iteration budget given to the model. *)
Inductive exn :=
| KeyError | IndexError | TypeError | AttributeError | ValueError | Diverges.

Inductive outcome (A : Type) :=
| Return (a : A)
| Raise (e : exn).
Arguments Return {A} a.
Arguments Raise {A} e.

(** The few dynamically typed values the code compares or returns. *)
Inductive pyval :=
| PyNone
| PyInt (z : Z)
| PyStr (s : string)
| PyBytes (s : string).

(** Python's [==] on these values: values of different types are unequal,
    in particular a [str] is never equal to an [int]. *)
Definition py_eqb (a b : pyval) : bool :=
  match a, b with
  | PyNone, PyNone => true
  | PyInt x, PyInt y => (x =? y)%Z
  | PyStr x, PyStr y => String.eqb x y
  | PyBytes x, PyBytes y => String.eqb x y
  | _, _ => false
  end.

(** [str(z)] and [int(s)] on integers, in decimal. *)
Definition str (z : Z) : string := NilZero.string_of_int (Z.to_int z).

Definition int (s : string) : outcome Z :=
  match NilZero.int_of_string s with
  | Some d => Return (Z.of_int d)
  | None => Raise ValueError
  end.

(** [bin(z)[2:]]: for a positive [z] its binary digits, most significant
    first; [bin(0)] is ['0b0'] and [bin(-5)] is ['-0b101']. *)
Fixpoint bin_digits (p : positive) : string :=
  match p with
  | xH => "1"
  | xO q => bin_digits q ++ "0"
  | xI q => bin_digits q ++ "1"
  end.

Definition bin_tail (z : Z) : string :=
  match z with
  | Z0 => "0"
  | Zpos p => bin_digits p
  | Zneg p => "b" ++ bin_digits p
  end.

(** [s[i]] on a [str] gives a one-character [str], on [bytes] an [int]. *)
Definition str_index (s : string) (i : nat) : outcome pyval :=
  match String.get i s with
  | Some c => Return (PyStr (String c EmptyString))
  | None => Raise IndexError
  end.

Definition bytes_index (s : string) (i : nat) : outcome pyval :=
  match String.get i s with
  | Some c => Return (PyInt (Z.of_nat (nat_of_ascii c)))
  | None => Raise IndexError
  end.

(** [s[1:]] *)
Definition tail (s : string) : string :=
  match s with
  | EmptyString => EmptyString
  | String _ r => r
  end.

End Py.

Import Py.

(** ** PathORAM.py *)

Module PathORAM.

Definition DUMMY_LEN : nat := 3.
Definition DUM_VAL : Z := 48.
Definition DATA_LEN : nat := 4.
Definition BUCKET_SIZE : nat := 4.

(** *** Ciphertexts and buckets

    [Fernet.encrypt] is randomised: two encryptions never give the same
    token.  A token is modelled by its plaintext and the serial number of the
    [encrypt] call that produced it; [decrypt] gives the plaintext back.  One
    client, so one key: every token in the tree decrypts. *)
Record ciphertext := Enc { nonce : nat; plain : string }.

#[export] Instance ciphertext_eq_dec : EqDecision ciphertext.
Proof. solve_decision. Defined.

Definition decrypt (c : ciphertext) : string := plain c.

(** A node's [value] is a [dict] from encrypted key to encrypted value; the
    code depends on its iteration order, which is insertion order. *)
Abbreviation bucket := (list (ciphertext * ciphertext)) (only parsing).

(** [list(d.keys())] *)
Definition dict_keys (d : bucket) : list ciphertext := d.*1.

(** [d[k]] *)
Fixpoint dict_get (k : ciphertext) (d : bucket) : option ciphertext :=
  match d with
  | [] => None
  | (k', v) :: r => if decide (k' = k) then Some v else dict_get k r
  end.

(** [del d[k]]; [None] stands for the [KeyError] *)
Fixpoint dict_del (k : ciphertext) (d : bucket) : option bucket :=
  match d with
  | [] => None
  | (k', v) :: r =>
      if decide (k' = k) then Some r
      else match dict_del k r with
           | Some r' => Some ((k', v) :: r')
           | None => None
           end
  end.

(** [d[k] = v]: an existing key keeps its place, a new one goes last *)
Fixpoint dict_set (k v : ciphertext) (d : bucket) : bucket :=
  match d with
  | [] => [(k, v)]
  | (k', v') :: r =>
      if decide (k' = k) then (k, v) :: r else (k', v') :: dict_set k v r
  end.

(** *** The tree

    A [Node] object is identified by its place [(level, index)] in
    [tree_arr]; [parent], [left] and [right] hold such places. *)
Abbreviation ref := (nat * nat)%type (only parsing).

Record Node := mkNode {
  parent : option ref;
  left : option ref;
  right : option ref;
  value : option bucket
}.

(** [Node(parent)] *)
Definition new_node (p : option ref) : Node :=
  {| parent := p; left := None; right := None; value := None |}.

Definition set_children (n : Node) (l r : ref) : Node :=
  {| parent := parent n; left := Some l; right := Some r; value := value n |}.

Definition set_value (n : Node) (v : option bucket) : Node :=
  {| parent := parent n; left := left n; right := right n; value := v |}.

(** [math.log(x, 2)] followed by [math.floor] / [int] or by [math.ceil];
    [math.log] raises [ValueError] on [x <= 0].  The logarithm is taken
    exactly here.  The code takes it in floating point, which gives the
    same floor and ceiling for every [x] below [2^29]; from there on the
    quotient of the two rounded logarithms can miss an exact power of two
    by one unit in the last place, and the height of the tree with it.
    Statements that depend on the value of the height are stated for sizes
    below that bound. *)
Definition log2_floor (x : Z) : outcome Z :=
  if (x <=? 0)%Z then Raise ValueError else Return (Z.log2 x).

Definition log2_ceil (x : Z) : outcome Z :=
  if (x <=? 0)%Z then Raise ValueError else Return (Z.log2_up x).

(** [PerfectTree.fix_size] *)
Definition fix_size (size : Z) : outcome Z :=
  match log2_ceil size, log2_floor size with
  | Return c, Return f =>
      let size := if negb (c =? f)%Z then size + 1 else size in
      Return (size - 1)
  | Raise e, _ => Raise e
  | _, Raise e => Raise e
  end.

(** One round of the outer loop of [build_tree_arr]: the nodes of [level]
    get their two children, which make up the next level in order. *)
Definition link_level (level : nat) (nodes : list Node) : list Node :=
  imap (fun j n => set_children n (S level, 2 * j)%nat (S level, 2 * j + 1)%nat)
       nodes.

Definition next_level (level : nat) (nodes : list Node) : list Node :=
  concat (imap (fun j _ => [new_node (Some (level, j)); new_node (Some (level, j))])
               nodes).

(** [build_levels level n cur] runs the remaining [n] rounds, [cur] being
    the list [tree_arr[level]] built so far. *)
Fixpoint build_levels (level n : nat) (cur : list Node) : list (list Node) :=
  match n with
  | O => [cur]
  | S n' => link_level level cur :: build_levels (S level) n' (next_level level cur)
  end.

Definition build_tree_arr (height : nat) : list (list Node) :=
  build_levels 0 height [new_node None].

Record PerfectTree := mkTree {
  size : Z;
  tree_height : nat;
  tree_arr : list (list Node)
}.

(** [PerfectTree.__init__] *)
Definition new_tree (requested : Z) : outcome PerfectTree :=
  match fix_size (requested + 1) with
  | Raise e => Raise e
  | Return sz =>
      match log2_floor sz with
      | Raise e => Raise e
      | Return h =>
          Return {| size := sz; tree_height := Z.to_nat h;
                    tree_arr := build_tree_arr (Z.to_nat h) |}
      end
  end.

Definition root (t : PerfectTree) : ref := (0%nat, 0%nat).

(** [tree_arr[-1]] *)
Definition leaves (t : PerfectTree) : list Node :=
  default [] (last (tree_arr t)).

Definition node_count (t : PerfectTree) : nat :=
  length (concat (tree_arr t)).

Record Server := mkServer {
  data_blocks : Z;
  bucket_size : nat;
  _tree : PerfectTree;
  height : nat;
  leaves_num : nat;
  leaf_min : Z;
  leaf_max : Z
}.

(** [Server.__init__] *)
Definition new_server (blocks : Z) : outcome Server :=
  match new_tree blocks with
  | Raise e => Raise e
  | Return t =>
      let h := tree_height t in
      let lmin := 2 ^ (Z.of_nat h + 1) in
      Return {| data_blocks := blocks; bucket_size := BUCKET_SIZE; _tree := t;
                height := h; leaves_num := length (leaves t);
                leaf_min := lmin; leaf_max := lmin * 2 - 1 |}
  end.

(** *** The state the client's operations run on

    The server object (only the nodes' [value]s ever change), the client's
    private fields, and the sources of the effects: the number of
    [Fernet.encrypt] calls made so far, the outcomes of the [random] module
    ([rng] is the sequence of raw draws, [draws] how many were consumed) and
    the nodes whose bucket the client has read or written so far, one
    entry for each evaluation of a node's [value], latest first, which is
    what the server gets to see of an operation. *)
Record world := mkWorld {
  server : Server;
  memory : gmap Z (string * string);   (* Client.__memory: id -> [bits, tag] *)
  key : string;                         (* Client.__key *)
  encryptions : nat;
  rng : nat -> Z;
  draws : nat;
  trace : list ref
}.

Definition with_arr (w : world) (arr : list (list Node)) : world :=
  let s := server w in
  let t := _tree s in
  {| server := {| data_blocks := data_blocks s; bucket_size := bucket_size s;
                  _tree := {| size := size t; tree_height := tree_height t;
                              tree_arr := arr |};
                  height := height s; leaves_num := leaves_num s;
                  leaf_min := leaf_min s; leaf_max := leaf_max s |};
     memory := memory w; key := key w; encryptions := encryptions w;
     rng := rng w; draws := draws w; trace := trace w |}.

Definition with_memory (w : world) (m : gmap Z (string * string)) : world :=
  {| server := server w; memory := m; key := key w;
     encryptions := encryptions w; rng := rng w; draws := draws w;
     trace := trace w |}.

Definition count_encryption (w : world) : world :=
  {| server := server w; memory := memory w; key := key w;
     encryptions := S (encryptions w); rng := rng w; draws := draws w;
     trace := trace w |}.

Definition count_draw (w : world) : world :=
  {| server := server w; memory := memory w; key := key w;
     encryptions := encryptions w; rng := rng w; draws := S (draws w);
     trace := trace w |}.

Definition record_touch (r : ref) (w : world) : world :=
  {| server := server w; memory := memory w; key := key w;
     encryptions := encryptions w; rng := rng w; draws := draws w;
     trace := r :: trace w |}.

Definition arr_of (w : world) : list (list Node) := tree_arr (_tree (server w)).

Definition lookup_node (arr : list (list Node)) (r : ref) : option Node :=
  match arr !! r.1 with
  | Some lv => lv !! r.2
  | None => None
  end.

Definition update_node (arr : list (list Node)) (r : ref) (f : Node -> Node)
  : list (list Node) :=
  alter (alter f r.2) r.1 arr.

(** *** Operations: state passing with exceptions

    An operation takes the state and gives an outcome and the state it
    leaves behind; an exception leaves the state as it was when raised. *)
Definition M (A : Type) : Type := world -> outcome A * world.

Definition ret {A} (a : A) : M A := fun w => (Return a, w).

Definition bind {A B} (c : M A) (k : A -> M B) : M B :=
  fun w => match c w with
           | (Return a, w') => k a w'
           | (Raise e, w') => (Raise e, w')
           end.

Definition raise {A} (e : exn) : M A := fun w => (Raise e, w).

Definition lift {A} (o : outcome A) : M A := fun w => (o, w).

Definition gets {A} (f : world -> A) : M A := fun w => (Return (f w), w).

Definition modify (f : world -> world) : M unit := fun w => (Return tt, f w).

Notation "x <- c1 ;; c2" := (bind c1 (fun x => c2))
  (at level 100, c1 at next level, right associativity).
Notation "c1 ;; c2" := (bind c1 (fun _ => c2))
  (at level 100, right associativity).

Fixpoint for_each {A} (l : list A) (body : A -> M unit) : M unit :=
  match l with
  | [] => ret tt
  | x :: r => body x ;; for_each r body
  end.

(** [Fernet.encrypt] *)
Definition encrypt (p : string) : M ciphertext :=
  fun w => (Return (Enc (encryptions w) p), count_encryption w).

(** [random.randint(a, b)]: the next raw draw, brought into [a..b] *)
Definition randint (a b : Z) : M Z :=
  fun w =>
    if (b <? a)%Z then (Raise ValueError, w)
    else (Return (a + rng w (draws w) mod (b - a + 1)), count_draw w).

(** [while rand1 == rand2: rand2 = random.randint(a, b)], at most [fuel]
    rounds *)
Fixpoint redraw (fuel : nat) (rand1 rand2 a b : Z) : M Z :=
  if (rand1 =? rand2)%Z then
    match fuel with
    | O => raise Diverges
    | S f => r <- randint a b ;; redraw f rand1 r a b
    end
  else ret rand2.

Definition ascii_lowercase : string := "abcdefghijklmnopqrstuvwxyz".

(** [random.choice(letters)] *)
Definition random_choice (letters : string) : M ascii :=
  i <- randint 0 (Z.of_nat (String.length letters) - 1) ;;
  match String.get (Z.to_nat i) letters with
  | Some c => ret c
  | None => raise IndexError
  end.

(** [Client.get_random_string] *)
Fixpoint get_random_string (length : nat) : M string :=
  match length with
  | O => ret EmptyString
  | S n => c <- random_choice ascii_lowercase ;;
           r <- get_random_string n ;;
           ret (String c r)
  end.

(** [l[i]] on a list, with the place of the element: a negative index
    counts from the end, and an index outside [-len(l) .. len(l) - 1] is an
    [IndexError] ([None] here). *)
Definition py_index {A} (l : list A) (i : Z) : option (nat * A) :=
  let j := if (i <? 0)%Z then (i + Z.of_nat (length l))%Z else i in
  if (j <? 0)%Z then None
  else match l !! Z.to_nat j with
       | Some x => Some (Z.to_nat j, x)
       | None => None
       end.

(** The server's accessors; the arguments are Python ints. *)
Definition get_root : M ref := ret (0%nat, 0%nat).

Definition num_nodes_in_level (i : Z) : M nat :=
  arr <- gets arr_of ;;
  match py_index arr i with
  | Some (_, lv) => ret (length lv)
  | None => raise IndexError
  end.

Definition get_node_in_level (i j : Z) : M ref :=
  arr <- gets arr_of ;;
  match py_index arr i with
  | Some (a, lv) =>
      match py_index lv j with
      | Some (b, _) => ret (a, b)
      | None => raise IndexError
      end
  | None => raise IndexError
  end.

(** [Server.get_leaf]: [self._tree.leaves] is the list [tree_arr[-1]]. *)
Definition get_leaf (i : Z) : M ref :=
  arr <- gets arr_of ;;
  match last arr with
  | Some lv =>
      match py_index lv i with
      | Some (b, _) => ret (length arr - 1, b)%nat
      | None => raise IndexError
      end
  | None => raise IndexError
  end.

(** Attribute access on what may be [None] instead of a node. *)
Definition node_of (r : option ref) : M (ref * Node) :=
  match r with
  | None => raise AttributeError
  | Some r =>
      arr <- gets arr_of ;;
      match lookup_node arr r with
      | Some n => ret (r, n)
      | None => raise AttributeError
      end
  end.

Definition touch (r : ref) : M unit := modify (record_touch r).

(** Reading [node.value] where a dict is needed: iterating over [None] or
    subscripting it is a [TypeError]. *)
Definition read_value (r : option ref) : M (option bucket) :=
  rn <- node_of r ;;
  touch rn.1 ;;
  ret (value rn.2).

Definition value_dict (r : option ref) : M bucket :=
  v <- read_value r ;;
  match v with
  | Some d => ret d
  | None => raise TypeError
  end.

(** [node.value[k]], read from the dict as it is now *)
Definition get_item (r : option ref) (k : ciphertext) : M ciphertext :=
  d <- value_dict r ;;
  match dict_get k d with
  | Some v => ret v
  | None => raise KeyError
  end.

(** [node.value = v] *)
Definition assign_value (r : ref) (v : option bucket) : M unit :=
  touch r ;;
  modify (fun w => with_arr w (update_node (arr_of w) r (fun n => set_value n v))).

(** [del node.value[k]] *)
Definition del_item (r : option ref) (k : ciphertext) : M unit :=
  rn <- node_of r ;;
  match value rn.2 with
  | None => raise TypeError
  | Some d =>
      match dict_del k d with
      | None => raise KeyError
      | Some d' => assign_value rn.1 (Some d')
      end
  end.

(** [node.value[k] = v] *)
Definition set_item (r : option ref) (k v : ciphertext) : M unit :=
  rn <- node_of r ;;
  match value rn.2 with
  | None => raise TypeError
  | Some d => assign_value rn.1 (Some (dict_set k v d))
  end.

(** [node.value[Enc(get_random_string(DUMMY_LEN))] = Enc(b'00000')]; Python
    evaluates the right-hand side first. *)
Definition add_dummy (r : option ref) : M unit :=
  v <- encrypt "00000" ;;
  s <- get_random_string DUMMY_LEN ;;
  k <- encrypt s ;;
  set_item r k v.

(** [decrypt(c)[0] == DUM_VAL] *)
Definition is_dummy (c : ciphertext) : M bool :=
  b <- lift (bytes_index (decrypt c) 0) ;;
  ret (py_eqb b (PyInt DUM_VAL)).

(** *** The client

    [hmac K msg] is the hex digest of HMAC-SHA256 under key [K]; [fuel]
    bounds the rounds of each reject-on-equal sampling loop. *)
Section Client.

Variable hmac : string -> string -> string.
Variable fuel : nat.

Definition ID_EXISTS : string := "ID already exists. Please delete it first".
Definition INVALID_DATA : string := "Invalid data was returned by the server".
Definition CORRUPTED : string := "The given id data was corrupted".

(** [Client._fill_server_with_dummies] *)
Definition _fill_server_with_dummies : M unit :=
  h <- gets (fun w => height (server w)) ;;
  for_each (seq 0 (h + 1)) (fun level =>
    n <- num_nodes_in_level (Z.of_nat level) ;;
    for_each (seq 0 n) (fun j =>
      node <- get_node_in_level (Z.of_nat level) (Z.of_nat j) ;;
      assign_value node (Some []) ;;
      bs <- gets (fun w => bucket_size (server w)) ;;
      for_each (seq 0 bs) (fun _ => add_dummy (Some node)))).

(** The loop of [Client._encrypt_node] over the keys of the dict, [new_dict]
    being built on the way; the loops below run over the entries of the
    dict they started on and use their keys, the values are read again from
    the node. *)
Fixpoint encrypt_entries (node : ref) (entries new_dict : bucket) : M bucket :=
  match entries with
  | [] => ret new_dict
  | (k, _) :: r =>
      v <- get_item (Some node) k ;;
      enc_key <- encrypt (decrypt k) ;;
      enc_val <- encrypt (decrypt v) ;;
      encrypt_entries node r (dict_set enc_key enc_val new_dict)
  end.

(** [Client._encrypt_node] *)
Definition _encrypt_node (node : ref) : M unit :=
  d <- value_dict (Some node) ;;
  new_dict <- encrypt_entries node d [] ;;
  assign_value node (Some new_dict).

(** The loop at the end of [Client._push_selected_data]: the first dummy of
    the child gives its place to the pushed entry; with no dummy there the
    loop ends and nothing is written. *)
Fixpoint replace_first_dummy (next_node : option ref) (key data : ciphertext)
    (entries : bucket) : M unit :=
  match entries with
  | [] => ret tt
  | (cur_key, _) :: r =>
      cur_val <- get_item next_node cur_key ;;
      dum <- is_dummy cur_val ;;
      if dum then del_item next_node cur_key ;; set_item next_node key data
      else replace_first_dummy next_node key data r
  end.

(** [Client._push_selected_data] *)
Definition _push_selected_data (key data : ciphertext) (prev_node : ref)
    (level : nat) : M unit :=
  let dec_key := decrypt key in
  let dec_data := decrypt data in
  first <- lift (bytes_index dec_data 0) ;;
  direction <-
    (if py_eqb first (PyInt DUM_VAL) then
       d <- randint 0 1 ;; ret (PyInt d)
     else
       id <- lift (int dec_key) ;;
       mem <- gets memory ;;
       match mem !! id with
       | None => raise KeyError
       | Some (bits, _) => lift (str_index bits level)
       end) ;;
  pn <- node_of (Some prev_node) ;;
  let next_node := if py_eqb direction (PyInt 0) then left pn.2 else right pn.2 in
  del_item (Some prev_node) key ;;
  add_dummy (Some prev_node) ;;
  d <- value_dict next_node ;;
  replace_first_dummy next_node key data d.

(** [list(node.value.keys())[i]] and [node.value[key]]; [None] has no
    [keys]. *)
Definition pick_entry (node : ref) (i : Z) : M (ciphertext * ciphertext) :=
  v <- read_value (Some node) ;;
  match v with
  | None => raise AttributeError
  | Some d =>
      match py_index (dict_keys d) i with
      | None => raise IndexError
      | Some (_, k) => v <- get_item (Some node) k ;; ret (k, v)
      end
  end.

(** [Client._rand_and_push] *)
Definition _rand_and_push (node : ref) (level : nat) : M unit :=
  bs <- gets (fun w => Z.of_nat (bucket_size (server w))) ;;
  rand1 <- randint 0 (bs - 1) ;;
  e1 <- pick_entry node rand1 ;;
  rand2 <- randint 0 (bs - 1) ;;
  rand2 <- redraw fuel rand1 rand2 0 (bs - 1) ;;
  e2 <- pick_entry node rand2 ;;
  _push_selected_data e1.1 e1.2 node level ;;
  _push_selected_data e2.1 e2.2 node level.

(** The body of the loop of [Client._push_down]; [true] stands for the
    [return] at the leaf level. *)
Definition push_level (level : nat) : M bool :=
  h <- gets (fun w => height (server w)) ;;
  if (level =? h)%nat then ret true
  else if (level =? 0)%nat then
    r <- get_root ;; _rand_and_push r level ;; ret false
  else
    n <- num_nodes_in_level (Z.of_nat level) ;;
    rand1 <- randint 0 (Z.of_nat n - 1) ;;
    n <- num_nodes_in_level (Z.of_nat level) ;;
    rand2 <- randint 0 (Z.of_nat n - 1) ;;
    rand2 <- redraw fuel rand1 rand2 0 (Z.of_nat n - 1) ;;
    node1 <- get_node_in_level (Z.of_nat level) rand1 ;;
    node2 <- get_node_in_level (Z.of_nat level) rand2 ;;
    _rand_and_push node1 level ;;
    _rand_and_push node2 level ;;
    ret false.

Fixpoint push_levels (levels : list nat) : M unit :=
  match levels with
  | [] => ret tt
  | level :: r =>
      stop <- push_level level ;;
      if stop then ret tt else push_levels r
  end.

(** [Client._push_down] *)
Definition _push_down : M unit :=
  h <- gets (fun w => height (server w)) ;;
  push_levels (seq 0 (h + 1)).

(** The loop of [Client.store_data] that puts the new entry in the place of
    the root's first dummy; with no dummy there nothing is written. *)
Fixpoint insert_at_root (tree_root : ref) (id : Z) (data : string)
    (entries : bucket) : M unit :=
  match entries with
  | [] => ret tt
  | (k, _) :: r =>
      v <- get_item (Some tree_root) k ;;
      dum <- is_dummy v ;;
      if dum then
        del_item (Some tree_root) k ;;
        enc_val <- encrypt ("1" ++ data) ;;
        enc_key <- encrypt (str id) ;;
        set_item (Some tree_root) enc_key enc_val ;;
        _encrypt_node tree_root
      else insert_at_root tree_root id data r
  end.

(** [Client.store_data] *)
Definition store_data (id : Z) (data : string) : M pyval :=
  mem <- gets memory ;;
  if decide (is_Some (mem !! id)) then ret (PyStr ID_EXISTS)
  else
    tree_root <- get_root ;;
    v <- read_value (Some tree_root) ;;
    match v with
    | None => _fill_server_with_dummies
    | Some _ => ret tt
    end ;;
    k <- gets key ;;
    let tag := hmac k (str id ++ data) in
    lmin <- gets (fun w => leaf_min (server w)) ;;
    lmax <- gets (fun w => leaf_max (server w)) ;;
    leaf <- randint lmin lmax ;;
    modify (fun w => with_memory w (<[id := (bin_tail leaf, tag)]> (memory w))) ;;
    d <- value_dict (Some tree_root) ;;
    insert_at_root tree_root id data d ;;
    _push_down ;;
    ret PyNone.

(** [self.__memory[id][0][1:]] *)
Definition path_of (id : Z) : M string :=
  mem <- gets memory ;;
  match mem !! id with
  | None => raise KeyError
  | Some (bits, _) => ret (tail bits)
  end.

(** [del self.__memory[id]] *)
Definition forget (id : Z) : M unit :=
  mem <- gets memory ;;
  match mem !! id with
  | None => raise KeyError
  | Some _ => modify (fun w => with_memory w (delete id (memory w)))
  end.

(** The scan of one bucket in [Client.retrieve_data]: a hit is replaced by
    a dummy and stored again at once. *)
Fixpoint retrieve_scan (cur_node : option ref) (id : Z) (entries : bucket)
    : M (option string) :=
  match entries with
  | [] => ret None
  | (k, _) :: r =>
      if String.eqb (decrypt k) (str id) then
        v <- get_item cur_node k ;;
        let data := tail (decrypt v) in
        del_item cur_node k ;;
        add_dummy cur_node ;;
        forget id ;;
        store_data id data ;;
        ret (Some data)
      else retrieve_scan cur_node id r
  end.

(** [cur_node.left if path[level] == 0 else cur_node.right]: [path[level]]
    is a one-character [str] and [0] an [int]. *)
Definition descend (cur_node : option ref) (path : string) (level : nat)
    : M (option ref) :=
  cn <- node_of cur_node ;;
  bit <- lift (str_index path level) ;;
  ret (if py_eqb bit (PyInt 0) then left cn.2 else right cn.2).

(** The walk of [Client.retrieve_data] over [range(len(path))] *)
Fixpoint retrieve_walk (id : Z) (path : string) (levels : list nat)
    (cur_node : option ref) : M (option string) :=
  match levels with
  | [] => ret None
  | level :: r =>
      d <- value_dict cur_node ;;
      data <- retrieve_scan cur_node id d ;;
      match data with
      | Some x => ret (Some x)
      | None =>
          next <- descend cur_node path level ;;
          retrieve_walk id path r next
      end
  end.

(** [Client.retrieve_data] *)
Definition retrieve_data (id : Z) : M pyval :=
  path <- path_of id ;;
  cur_node <- get_root ;;
  data <- retrieve_walk id path (seq 0 (String.length path)) (Some cur_node) ;;
  match data with
  | None => ret PyNone
  | Some data =>
      if negb (String.length data =? DATA_LEN)%nat then ret (PyStr INVALID_DATA)
      else
        k <- gets key ;;
        let digest := hmac k (str id ++ data) in
        mem <- gets memory ;;
        match mem !! id with
        | None => raise KeyError
        | Some (_, tag) =>
            if String.eqb digest tag then ret (PyStr data)
            else ret (PyStr CORRUPTED)
        end
  end.

(** The scan of one bucket in [Client.delete_data] *)
Fixpoint delete_scan (cur_node : option ref) (id : Z) (entries : bucket)
    : M (option string) :=
  match entries with
  | [] => ret None
  | (k, _) :: r =>
      if String.eqb (decrypt k) (str id) then
        v <- get_item cur_node k ;;
        let data := tail (decrypt v) in
        del_item cur_node k ;;
        add_dummy cur_node ;;
        ret (Some data)
      else delete_scan cur_node id r
  end.

Fixpoint delete_walk (id : Z) (path : string) (levels : list nat)
    (cur_node : option ref) : M (option string) :=
  match levels with
  | [] => ret None
  | level :: r =>
      d <- value_dict cur_node ;;
      data <- delete_scan cur_node id d ;;
      match data with
      | Some x => ret (Some x)
      | None =>
          next <- descend cur_node path level ;;
          delete_walk id path r next
      end
  end.

(** [Client.delete_data]; the removed plaintext comes back as [bytes] *)
Definition delete_data (id : Z) : M pyval :=
  path <- path_of id ;;
  cur_node <- get_root ;;
  data <- delete_walk id path (seq 0 (String.length path)) (Some cur_node) ;;
  match data with
  | None => ret PyNone
  | Some data => ret (PyBytes data)
  end.

End Client.

(** A server of [blocks] data blocks and a client that has stored
    nothing yet, with key [k] and random draws [r]. *)
Definition fresh_world (s : Server) (k : string) (r : nat -> Z) : world :=
  {| server := s; memory := ∅; key := k; encryptions := 0; rng := r;
     draws := 0; trace := [] |}.

(** The logical operations of the client. *)
Inductive op :=
| Store (id : Z) (data : string)
| Retrieve (id : Z)
| Delete (id : Z).

Definition run_op (hmac : string -> string -> string) (fuel : nat) (o : op)
    : M pyval :=
  match o with
  | Store id data => store_data hmac fuel id data
  | Retrieve id => retrieve_data hmac fuel id
  | Delete id => delete_data id
  end.

(** A sequence of calls; an exception in one call is the caller's to
    handle, the next call finds the state as the exception left it. *)
Fixpoint run_ops (hmac : string -> string -> string) (fuel : nat)
    (ops : list op) (w : world) : list (outcome pyval) * world :=
  match ops with
  | [] => ([], w)
  | o :: r =>
      let '(res, w') := run_op hmac fuel o w in
      let '(rs, w'') := run_ops hmac fuel r w' in
      (res :: rs, w'')
  end.

(** *** What the statements below speak about *)

(** The bucket of the node at [r], when there is such a node and its
    [value] is a dict. *)
Definition bucket_at (w : world) (r : ref) : option bucket :=
  match lookup_node (arr_of w) r with
  | Some n => value n
  | None => None
  end.

(** An entry whose key decrypts to [str(id)]: what the scans of
    [retrieve_data] and [delete_data] look for. *)
Definition is_entry_of (id : Z) (e : ciphertext * ciphertext) : bool :=
  String.eqb (decrypt e.1) (str id).

Definition count_in_bucket (id : Z) (v : option bucket) : nat :=
  length (filter (fun e => is_entry_of id e = true) (default [] v)).

(** How many entries for [id] the server holds. *)
Definition count_id (id : Z) (w : world) : nat :=
  sum_list ((fun n => count_in_bucket id (value n)) <$> concat (arr_of w)).

(** The nodes that hold an entry for [id]. *)
Definition holders (id : Z) (w : world) : list ref :=
  concat (imap (fun level lv =>
            omap (fun jn : nat * Node =>
                    if (0 <? count_in_bucket id (value jn.2))%nat
                    then Some (level, jn.1) else None)
                 (imap (fun j n => (j, n)) lv))
          (arr_of w)).

(** The nodes touched between two states of one run, in order. *)
Definition touched_since (before after : world) : list ref :=
  rev (take (length (trace after) - length (trace before)) (trace after)).

(** The tree is initialised once the root's [value] is a dict. *)
Definition initialised (w : world) : Prop := is_Some (bucket_at w (0%nat, 0%nat)).

(** The states a client and its server can be in: a server as
    [Server(blocks)] builds it with a client that has done nothing, and
    from there any store, retrieve, delete or push-down pass, whatever
    the random draws and however the call ends. *)
Inductive reachable (hmac : string -> string -> string) : world -> Prop :=
| reach_fresh blocks s k r :
    new_server blocks = Return s -> reachable hmac (fresh_world s k r)
| reach_store fuel id data w :
    reachable hmac w -> reachable hmac (store_data hmac fuel id data w).2
| reach_retrieve fuel id w :
    reachable hmac w -> reachable hmac (retrieve_data hmac fuel id w).2
| reach_delete id w :
    reachable hmac w -> reachable hmac (delete_data id w).2
| reach_push_down fuel w :
    reachable hmac w -> reachable hmac (_push_down fuel w).2.

(** What an untrusted server can do to a bucket without any key: exchange
    the encrypted values stored under two of its encrypted keys. *)
Definition swap_in_bucket (i j : nat) (b : bucket) : bucket :=
  match b !! i, b !! j with
  | Some (ki, vi), Some (kj, vj) => <[j := (kj, vi)]> (<[i := (ki, vj)]> b)
  | _, _ => b
  end.

Definition swap_values (r : ref) (i j : nat) (w : world) : world :=
  with_arr w (update_node (arr_of w) r
                (fun n => set_value n (swap_in_bucket i j <$> value n))).

(** The same state with other random draws ahead. *)
Definition reseed (w : world) (r : nat -> Z) : world :=
  {| server := server w; memory := memory w; key := key w;
     encryptions := encryptions w; rng := r; draws := 0; trace := trace w |}.

Definition is_power_of_two (z : Z) : bool := (0 <? z) && (2 ^ Z.log2 z =? z).

(** Random draws for running examples: [0] before position [start], then
    the listed draws, then the position itself (so that two draws in a
    row differ). *)
Definition draws_from (start : nat) (l : list Z) : nat -> Z :=
  fun n => if (n <? start)%nat then 0 else nth (n - start) l (Z.of_nat n).

(** An HMAC stand-in for running examples: the tag spells out key and
    message, so different messages have different tags. *)
Definition plain_tag (k msg : string) : string := k ++ "|" ++ msg.

End PathORAM.


(** ** PKI.py *)

Module PKI.

(** *** Certificates

    A certificate is a [dict] with the keys below; ['Issuer cert'] holds the
    issuer's certificate, [None] for a root.  ['Signature'] is absent from
    the default certificate of a CA and while a signature is being checked,
    so it is optional here.  Times are seconds ([microsecond=0]). *)
Inductive cert := mkCert {
  Name : string;
  Issuer_name : option string;
  Issuer_cert : option cert;
  Public_key : Z * Z;
  Valid_from : Z;
  Valid_to : Z;
  Is_CA : bool;
  Signature : option string
}.

(** [==] on two certificates: equal keys with equal values, nested
    certificates included. *)
Fixpoint cert_eqb (a b : cert) {struct a} : bool :=
  match a, b with
  | mkCert n1 in1 ic1 pk1 vf1 vt1 ca1 sg1, mkCert n2 in2 ic2 pk2 vf2 vt2 ca2 sg2 =>
      bool_decide (n1 = n2) && bool_decide (in1 = in2)
      && match ic1, ic2 with
         | Some x, Some y => cert_eqb x y
         | None, None => true
         | _, _ => false
         end
      && bool_decide (pk1 = pk2) && (vf1 =? vf2)%Z && (vt1 =? vt2)%Z
      && bool_decide (ca1 = ca2) && bool_decide (sg1 = sg2)
  end.

(** [c in l] *)
Definition cert_in (c : cert) (l : list cert) : bool := existsb (cert_eqb c) l.

(** [del cert['Signature']] *)
Definition without_signature (c : cert) : cert :=
  {| Name := Name c; Issuer_name := Issuer_name c; Issuer_cert := Issuer_cert c;
     Public_key := Public_key c; Valid_from := Valid_from c;
     Valid_to := Valid_to c; Is_CA := Is_CA c; Signature := None |}.

(** [cert['Signature'] = signature] *)
Definition with_signature (c : cert) (s : string) : cert :=
  {| Name := Name c; Issuer_name := Issuer_name c; Issuer_cert := Issuer_cert c;
     Public_key := Public_key c; Valid_from := Valid_from c;
     Valid_to := Valid_to c; Is_CA := Is_CA c; Signature := Some s |}.

(** The signed payload of an [Obj]: a JSON object. *)
Definition payload := list (string * string).

Record Obj := mkObj {
  obj : payload;
  signature : option string
}.

(** *** Entities and the lists they share

    A CA's [revoked] list is one Python object that the CA mutates in place
    and that the relaying party reaches through [name_to_revoked]; the lists
    live in a store and both sides hold an address. *)
Abbreviation loc := nat (only parsing).
Abbreviation lists := (gmap nat (list cert)) (only parsing).

Record Entity := mkEntity {
  name : string;
  public_key : Z * Z;
  private_key : Z;
  ent_cert : option cert
}.

Record CA := mkCA {
  ca_entity : Entity;
  revoked : loc
}.

Record RelayingParty := mkRP {
  root_ca_lst : list cert;
  name_to_revoked : gmap string loc
}.

Definition list_at (h : lists) (l : loc) : list cert := default [] (h !! l).

(** [l.remove(c)]: the first element equal to [c] goes; [None] stands
    for the [ValueError] when there is none. *)
Fixpoint list_remove (c : cert) (l : list cert) : option (list cert) :=
  match l with
  | [] => None
  | x :: r =>
      if cert_eqb x c then Some r
      else match list_remove c r with
           | Some r' => Some (x :: r')
           | None => None
           end
  end.

(** The second loop of [CA.update_revoked] *)
Fixpoint remove_all (to_remove l : list cert) : outcome (list cert) :=
  match to_remove with
  | [] => Return l
  | c :: r =>
      match list_remove c l with
      | Some l' => remove_all r l'
      | None => Raise ValueError
      end
  end.

(** [CA.update_revoked] on the list itself, [cur_time] being the clock *)
Definition update_revoked (cur_time : Z) (l : list cert) : outcome (list cert) :=
  let to_remove := filter (fun c => Valid_to c < cur_time) l in
  remove_all to_remove l.

(** [CA.revoke_cert] *)
Definition revoke_cert (ca : CA) (c : cert) (cur_time : Z) (h : lists)
    : outcome unit * lists :=
  let h1 := <[revoked ca := list_at h (revoked ca) ++ [c]]> h in
  match update_revoked cur_time (list_at h1 (revoked ca)) with
  | Return l => (Return tt, <[revoked ca := l]> h1)
  | Raise e => (Raise e, h1)
  end.


(** [name_to_revoked[name] = ca.get_revoked()] *)
Definition register (rp : RelayingParty) (n : string) (l : loc) : RelayingParty :=
  {| root_ca_lst := root_ca_lst rp;
     name_to_revoked := <[n := l]> (name_to_revoked rp) |}.


Definition NOT_VALID : string := "Certificate chain is not valid.".
Definition REVOKED : string := "Certificate has been revoked.".
Definition NOT_YET : string := "Certificate is not valid yet.".
Definition EXPIRED : string := "Certificate has expired.".
Definition CHAIN_INVALID : string := "Certificate chain is invalid.".
Definition VALID : string := "Given object is valid.".

Section Crypto.

(** The primitives behind the code: [json.dumps(.., sort_keys=True,
    default=str)] on a payload and on a certificate, [rsa.sign] and
    [rsa.verify] ([true] when no [VerificationError] is raised). *)
Variable json_obj : payload -> string.
Variable json_cert : cert -> string.
Variable rsa_sign : string -> Z -> string.
Variable rsa_verify : string -> string -> Z * Z -> bool.

(** [Entity.sign] on a payload and on a certificate *)
Definition sign (e : Entity) (o : payload) : string :=
  rsa_sign (json_obj o) (private_key e).

Definition sign_cert (e : Entity) (c : cert) : string :=
  rsa_sign (json_cert c) (private_key e).

(** [CA.issue_cert] *)
Definition issue_cert (ca : CA) (ent_name : string) (ent_pkey : Z * Z)
    (valid_from valid_to : Z) (is_ca : bool) : cert :=
  let c := {| Name := ent_name;
              Issuer_name := Some (name (ca_entity ca));
              Issuer_cert := ent_cert (ca_entity ca);
              Public_key := ent_pkey;
              Valid_from := valid_from;
              Valid_to := valid_to;
              Is_CA := is_ca;
              Signature := None |} in
  with_signature c (sign_cert (ca_entity ca) c).

(** What [verify] has in [last_cert]: the object at first, then a
    certificate. *)
Inductive link :=
| LObj (o : Obj)
| LCert (c : cert).

(** The signature and the serialised text that the next certificate has to
    vouch for.  For a certificate the signature is taken off, the rest is
    serialised, and [update_cert] puts the signature back, which fails on
    an empty one ([not signature]). *)
Definition signed_text (last_cert : link) : outcome (string * string) :=
  match last_cert with
  | LObj o =>
      match signature o with
      | Some s => Return (s, json_obj (obj o))
      | None => Raise TypeError
      end
  | LCert c =>
      match Signature c with
      | None => Raise KeyError
      | Some s =>
          let serialized := json_cert (without_signature c) in
          if String.eqb s "" then Raise KeyError else Return (s, serialized)
      end
  end.

Section Verify.

Variable rp : RelayingParty.
Variable h : lists.
(** [clock k] is what [datetime.now().replace(microsecond=0)] gives in
    round [k] of the loop. *)
Variable clock : nat -> Z.

(** [self.name_to_revoked[n]] *)
Definition revoked_by (n : string) : outcome (list cert) :=
  match name_to_revoked rp !! n with
  | Some l => Return (list_at h l)
  | None => Raise KeyError
  end.

(** The revocation part of the loop body: [true] when the certificate is
    found on a list. *)
Definition is_revoked (c : cert) : outcome bool :=
  match
    match Issuer_name c with
    | Some iss =>
        match revoked_by iss with
        | Return l => Return (cert_in c l)
        | Raise e => Raise e
        end
    | None => Return false
    end
  with
  | Raise e => Raise e
  | Return true => Return true
  | Return false =>
      if Is_CA c then
        match revoked_by (Name c) with
        | Return l => Return (cert_in c l)
        | Raise e => Raise e
        end
      else Return false
  end.

(** After the loop *)
Definition finish (last_cert : link) : outcome (bool * string) :=
  match last_cert with
  | LObj _ => Return (false, CHAIN_INVALID)
  | LCert c =>
      if cert_in c (root_ca_lst rp) then Return (true, VALID)
      else Return (false, CHAIN_INVALID)
  end.

(** The loop of [RelayingParty.verify] from round [k] on; the result
    is the returned boolean with the line printed. *)
Fixpoint verify_loop (k : nat) (last_cert : link) (c : cert) {struct c}
    : outcome (bool * string) :=
  match signed_text last_cert with
  | Raise e => Raise e
  | Return (sg, serialized_obj) =>
      if negb (rsa_verify serialized_obj sg (Public_key c))
      then Return (false, NOT_VALID)
      else
        match is_revoked c with
        | Raise e => Raise e
        | Return true => Return (false, REVOKED)
        | Return false =>
            let cur_time := clock k in
            if (Valid_from c >? cur_time)%Z then Return (false, NOT_YET)
            else if (Valid_to c <? cur_time)%Z then Return (false, EXPIRED)
            else
              match Issuer_cert c with
              | Some next => verify_loop (S k) (LCert c) next
              | None => finish (LCert c)
              end
        end
  end.

(** [RelayingParty.verify] *)
Definition verify (o : Obj) (cert_chain : option cert) : outcome (bool * string) :=
  match cert_chain with
  | Some c => verify_loop 0 (LObj o) c
  | None => finish (LObj o)
  end.

(** The signature check of one round passes. *)
Definition signature_ok (last_cert : link) (c : cert) : bool :=
  match signed_text last_cert with
  | Return (sg, text) => rsa_verify text sg (Public_key c)
  | Raise _ => false
  end.

(** Round [k] passes all its checks on [c]. *)
Definition link_ok (k : nat) (last_cert : link) (c : cert) : bool :=
  signature_ok last_cert c
  && match is_revoked c with Return false => true | _ => false end
  && (Valid_from c <=? clock k)%Z && (clock k <=? Valid_to c)%Z.

(** [reaches k last c k' last' c']: the loop that is in round [k] with
    [last_cert = last] and [cert = c] gets to round [k'] with [last'] and
    [c'], every round in between passing its checks. *)
Inductive reaches (k : nat) (last_cert : link) (c : cert)
    : nat -> link -> cert -> Prop :=
| reaches_here : reaches k last_cert c k last_cert c
| reaches_next next k' last' c' :
    link_ok k last_cert c = true ->
    Issuer_cert c = Some next ->
    reaches (S k) (LCert c) next k' last' c' ->
    reaches k last_cert c k' last' c'.

End Verify.

End Crypto.

End PKI.

(** ** Concrete runs used by the statements below *)

Module Scenarios.

Import PathORAM PKI.

(** *** Stand-ins for the cryptographic primitives

    A signature names the signing key and the signed text; a key pair is a
    modulus used as its own secret.  Enough to run the code on examples in
    which honest signatures verify and forged ones do not. *)
Definition toy_json_obj (o : payload) : string :=
  String.concat ";" ((fun kv : string * string => (kv.1 ++ "=" ++ kv.2)%string) <$> o).

Definition toy_json_cert (c : cert) : string :=
  (Name c ++ "/" ++ default "-" (Issuer_name c) ++ "/" ++ str (Public_key c).1
   ++ "/" ++ str (Valid_from c) ++ "/" ++ str (Valid_to c))%string.

Definition toy_sign (text : string) (priv : Z) : string :=
  (str priv ++ ":" ++ text)%string.

Definition toy_verify (text sg : string) (pub : Z * Z) : bool :=
  String.eqb sg (toy_sign text pub.1).

(** *** The PKI of [main()]

    Times are seconds from the start of the run; certificates are valid
    from [0] to [1000] unless said otherwise. *)
Definition root_cert (n : string) (pub : Z * Z) (from to : Z) : cert :=
  {| Name := n; Issuer_name := None; Issuer_cert := None; Public_key := pub;
     Valid_from := from; Valid_to := to; Is_CA := true; Signature := None |}.

Definition uni_ca : CA :=
  {| ca_entity := {| name := "UniverseCA"; public_key := (101, 65537);
                     private_key := 101;
                     ent_cert := Some (root_cert "UniverseCA" (101, 65537) 0 1000) |};
     revoked := 0%nat |}.

Definition issue := issue_cert toy_json_cert toy_sign.






Definition huji_cert : cert := issue uni_ca "HUJI" (202, 65537) 0 1000 false.

Definition huji : Entity :=
  {| name := "HUJI"; public_key := (202, 65537); private_key := 202;
     ent_cert := Some huji_cert |}.

Definition obj1 : Obj :=
  let o := [("Name", "Dor"); ("Rule", "CEO")]%string in
  {| obj := o; signature := Some (sign toy_json_obj toy_sign huji o) |}.

Definition rp : RelayingParty :=
  {| root_ca_lst := [root_cert "UniverseCA" (101, 65537) 0 1000];
     name_to_revoked := <["Intel"%string := 1%nat]> (<["UniverseCA"%string := 0%nat]> ∅) |}.

Definition no_revocations : lists := <[1%nat := []]> (<[0%nat := []]> ∅).

Definition check := verify toy_json_obj toy_json_cert toy_verify.

(** A certificate issued for the single second [now], one that ended the
    second before, and one that starts the second after. *)
Definition now : Z := 500.
Definition instant_cert : cert := issue uni_ca "HUJI" (202, 65537) now now false.
Definition expired_cert : cert := issue uni_ca "HUJI" (202, 65537) 0 (now - 1) false.
Definition early_cert : cert := issue uni_ca "HUJI" (202, 65537) (now + 1) 1000 false.

(** *** Oblivious storage *)

Definition server_of (blocks : Z) : Server :=
  match new_server blocks with
  | Return s => s
  | Raise _ => mkServer 0 0 (mkTree 0 0 []) 0 0 0 0
  end.

(** [Server(7)], height 2.  One store of id 1 in which the leaf drawn is 8
    (['1000']), the root pass picks the new entry, and the pass over level
    1 picks node 1 and in it the entry again. *)
Definition deep_draws : nat -> Z :=
  draws_from 84 [0; 3; 0; 0; 0; 0; 0; 0; 0; 0;
                 1; 0; 3; 0; 0; 0; 0; 0; 0; 0; 0;
                 3; 0; 0; 0; 0; 0; 0; 0; 0; 0].

Definition deep_store : outcome pyval * world :=
  store_data plain_tag 3 1 "aaaa" (fresh_world (server_of 7) "K" deep_draws).

(** [Server(2)], height 1.  Five stores; in each the leaf drawn is 4 and
    the root pass picks the new entry (slot 3) and the dummy in slot 0,
    which goes left. *)
Definition one_store : list Z := [0; 3; 0; 0; 0; 0; 0; 0; 0; 0].

Definition crowded_draws : nat -> Z :=
  draws_from 36 (one_store ++ one_store ++ one_store ++ one_store ++ one_store).

Definition crowded_run : list (outcome pyval) * world :=
  run_ops plain_tag 3
    [Store 1 "aaaa"; Store 2 "bbbb"; Store 3 "cccc"; Store 4 "dddd";
     Store 5 "eeee"; Retrieve 5]
    (fresh_world (server_of 2) "K" crowded_draws).

(** [Server(1)], height 0: the root is the only node.  Two stores, then the
    server exchanges the two stored values. *)
Definition two_stored : world :=
  (run_ops plain_tag 3 [Store 1 "aaaa"; Store 2 "bbbb"]
     (fresh_world (server_of 1) "K" (draws_from 0 []))).2.

Definition tampered : world := swap_values (0%nat, 0%nat) 2 3 two_stored.

(** One store on [Server(2)]. *)
Definition one_stored : world :=
  (store_data plain_tag 3 1 "aaaa"
     (fresh_world (server_of 2) "K" crowded_draws)).2.

End Scenarios.

(** ** Facts about PKI.py *)

Module PKIFacts.

Import PKI Scenarios.

Lemma cert_eqb_refl : forall c, cert_eqb c c = true.
Proof.
  fix IH 1. intros [n i ic pk vf vt ca sg]. simpl.
  rewrite !bool_decide_eq_true_2 by reflexivity.
  rewrite !Z.eqb_refl. destruct ic as [x|]; simpl.
  - rewrite (IH x). reflexivity.
  - reflexivity.
Qed.

Lemma cert_eqb_valid_to a b : cert_eqb a b = true -> Valid_to a = Valid_to b.
Proof.
  destruct a, b; simpl. intros H.
  repeat (apply andb_prop in H; destruct H as [H ?]).
  now apply Z.eqb_eq.
Qed.






Section Walk.

Variable json_obj : payload -> string.
Variable json_cert : cert -> string.
Variable rsa_verify : string -> string -> Z * Z -> bool.
Variable rp : RelayingParty.
Variable h : lists.
Variable clock : nat -> Z.

Abbreviation loop := (verify_loop json_obj json_cert rsa_verify rp h clock).
Abbreviation sig_ok := (signature_ok json_obj json_cert rsa_verify).
Abbreviation ok := (link_ok json_obj json_cert rsa_verify rp h clock).

(** A round that passes hands over to the next certificate, or to the
    check of the root when there is none. *)
Lemma loop_passes k last c :
  ok k last c = true ->
  loop k last c = match Issuer_cert c with
                  | Some next => loop (S k) (LCert c) next
                  | None => finish rp (LCert c)
                  end.
Proof.
  unfold link_ok, signature_ok. intros H.
  repeat (apply andb_prop in H; destruct H as [H ?]).
  destruct c as [n i ic pk vf vt ca sg]; simpl in *.
  destruct (signed_text json_obj json_cert last) as [[s text]|e]; [|discriminate].
  rewrite H. simpl.
  destruct (is_revoked rp h _) as [[|]|e]; try discriminate.
  apply Z.leb_le in H0, H1.
  rewrite Z.gtb_ltb, (proj2 (Z.ltb_ge (clock k) vf)) by lia.
  rewrite (proj2 (Z.ltb_ge vt (clock k))) by lia.
  reflexivity.
Qed.

Lemma loop_reaches k last c k' last' c' :
  reaches json_obj json_cert rsa_verify rp h clock k last c k' last' c' ->
  loop k last c = loop k' last' c'.
Proof.
  induction 1 as [|k last c next k' last' c' Hok Hnext _ IH]; [reflexivity|].
  rewrite loop_passes by exact Hok. now rewrite Hnext.
Qed.



End Walk.








(** C7: in a round whose signature and revocation checks pass, a
    certificate with Valid from = now = Valid to passes the time check (the
    loop goes on to the issuer, or to the check of the root); one with
    Valid to = now - 1 (and Valid from not later than now) is rejected with
    'expired'; one with Valid from > now is rejected with 'not valid
    yet'; the two diagnostics differ. *)
Theorem validity_window_is_inclusive
    (json_obj : payload -> string) (json_cert : cert -> string)
    (rsa_verify : string -> string -> Z * Z -> bool)
    (rp : RelayingParty) (h : lists) (clock : nat -> Z)
    (k : nat) (last : link) (c : cert) :
  signature_ok json_obj json_cert rsa_verify last c = true ->
  is_revoked rp h c = Return false ->
  (Valid_from c = clock k -> Valid_to c = clock k ->
   verify_loop json_obj json_cert rsa_verify rp h clock k last c
   = match Issuer_cert c with
     | Some next =>
         verify_loop json_obj json_cert rsa_verify rp h clock (S k) (LCert c) next
     | None => finish rp (LCert c)
     end)
  /\ (Valid_from c <= clock k -> Valid_to c = clock k - 1 ->
      verify_loop json_obj json_cert rsa_verify rp h clock k last c
      = Return (false, EXPIRED))
  /\ (clock k < Valid_from c ->
      verify_loop json_obj json_cert rsa_verify rp h clock k last c
      = Return (false, NOT_YET))
  /\ String.eqb NOT_YET EXPIRED = false.
Proof.
  intros Hsig Hrev. split; [|split; [|split]].
  - intros Hf Ht. apply loop_passes. unfold link_ok.
    rewrite Hsig, Hrev. simpl. rewrite Hf, Ht, Z.leb_refl. reflexivity.
  - intros Hf Ht. unfold signature_ok in Hsig.
    destruct c as [n i ic pk vf vt ca sg]; simpl in *.
    destruct (signed_text json_obj json_cert last) as [[s text]|e]; [|discriminate].
    rewrite Hsig, Hrev. simpl.
    rewrite Z.gtb_ltb, (proj2 (Z.ltb_ge (clock k) vf)) by lia.
    rewrite (proj2 (Z.ltb_lt vt (clock k))) by lia. reflexivity.
  - intros Hf. unfold signature_ok in Hsig.
    destruct c as [n i ic pk vf vt ca sg]; simpl in *.
    destruct (signed_text json_obj json_cert last) as [[s text]|e]; [|discriminate].
    rewrite Hsig, Hrev. simpl.
    rewrite Z.gtb_ltb, (proj2 (Z.ltb_lt (clock k) vf)) by lia. reflexivity.
  - reflexivity.
Qed.

(** Three certificates of HUJI checked at the second [now]: valid for that
    second only, ended the second before, starting the second after. *)
Lemma validity_window_is_inclusive_witness :
  check rp no_revocations (fun _ => now) obj1 (Some instant_cert)
  = Return (true, VALID)
  /\ check rp no_revocations (fun _ => now) obj1 (Some expired_cert)
     = Return (false, EXPIRED)
  /\ check rp no_revocations (fun _ => now) obj1 (Some early_cert)
     = Return (false, NOT_YET).
Proof.
  pose proof (validity_window_is_inclusive toy_json_obj toy_json_cert toy_verify
                rp no_revocations (fun _ => now) 0 (LObj obj1)) as W.
  split; [|split].
  - destruct (W instant_cert) as [P _]; [reflexivity | reflexivity |].
    change (verify_loop toy_json_obj toy_json_cert toy_verify rp no_revocations
              (fun _ => now) 0 (LObj obj1) instant_cert = Return (true, VALID)).
    rewrite P by reflexivity. reflexivity.
  - destruct (W expired_cert) as (_ & P & _); [reflexivity | reflexivity |].
    apply P; [vm_compute; discriminate | reflexivity].
  - destruct (W early_cert) as (_ & _ & P & _); [reflexivity | reflexivity |].
    apply P. reflexivity.
Defined.

(** *** What the revocation lists keep *)

Lemma cert_eqb_eq : forall a b, cert_eqb a b = true -> a = b.
Proof.
  fix IH 1.
  intros [n1 i1 ic1 pk1 vf1 vt1 ca1 sg1] [n2 i2 ic2 pk2 vf2 vt2 ca2 sg2] H.
  simpl in H.
  apply andb_prop in H as [H Hsg]. apply andb_prop in H as [H Hca].
  apply andb_prop in H as [H Hvt]. apply andb_prop in H as [H Hvf].
  apply andb_prop in H as [H Hpk]. apply andb_prop in H as [H Hic].
  apply andb_prop in H as [Hn Hi].
  apply bool_decide_eq_true in Hn, Hi, Hpk, Hca, Hsg.
  apply Z.eqb_eq in Hvf, Hvt. subst.
  destruct ic1 as [x|], ic2 as [y|]; try discriminate; [|reflexivity].
  now rewrite (IH x y Hic).
Qed.

Lemma list_remove_first x l1 l2 :
  Forall (fun y => y <> x) l1 -> list_remove x (l1 ++ x :: l2) = Some (l1 ++ l2).
Proof.
  induction 1 as [|y r Hy _ IH]; simpl.
  - now rewrite cert_eqb_refl.
  - destruct (cert_eqb y x) eqn:E; [apply cert_eqb_eq in E; contradiction|].
    now rewrite IH.
Qed.

Lemma remove_all_filter t pre l :
  Forall (fun c => t <= Valid_to c) pre ->
  remove_all (filter (fun c => Valid_to c < t) l) (pre ++ l)
  = Return (pre ++ filter (fun c => t <= Valid_to c) l).
Proof.
  revert pre. induction l as [|y r IH]; intros pre Hpre.
  - reflexivity.
  - rewrite !filter_cons.
    destruct (decide (Valid_to y < t)) as [Hy|Hy].
    + rewrite decide_False by lia. cbn [remove_all].
      rewrite list_remove_first.
      * apply IH, Hpre.
      * eapply Forall_impl; [exact Hpre|]. intros c Hc ->. simpl in Hc. lia.
    + rewrite decide_True by lia.
      replace (pre ++ y :: r) with ((pre ++ [y]) ++ r) by (now rewrite <- app_assoc).
      rewrite IH.
      * now rewrite <- app_assoc.
      * apply Forall_app. split; [exact Hpre|]. repeat constructor. lia.
Qed.

Lemma update_revoked_filter t l :
  update_revoked t l = Return (filter (fun c => t <= Valid_to c) l).
Proof. unfold update_revoked. apply (remove_all_filter t [] l). constructor. Qed.

(** [CA.update_revoked] never raises (each [remove] finds its
    certificate), and what it leaves on the list are the certificates
    whose Valid to has not passed, in the order they had. *)
Theorem update_revoked_keeps_the_unexpired t l :
  update_revoked t l = Return (filter (fun c => t <= Valid_to c) l)
  /\ forall c, cert_in c (filter (fun c => t <= Valid_to c) l)
               = cert_in c l && (t <=? Valid_to c).
Proof.
  split; [apply update_revoked_filter|]. intros c. unfold cert_in.
  induction l as [|y r IH]; [reflexivity|].
  rewrite filter_cons. destruct (decide (t <= Valid_to y)) as [Hy|Hy].
  - simpl. rewrite IH. destruct (cert_eqb c y) eqn:E; [|reflexivity].
    apply cert_eqb_valid_to in E. simpl.
    destruct (Z.leb_spec t (Valid_to c)); [|lia].
    destruct (existsb (cert_eqb c) r); reflexivity.
  - rewrite IH. simpl. destruct (cert_eqb c y) eqn:E; [|reflexivity].
    apply cert_eqb_valid_to in E. simpl.
    destruct (Z.leb_spec t (Valid_to c)); [lia|].
    destruct (existsb (cert_eqb c) r); reflexivity.
Qed.

(** [CA.revoke_cert] returns, and the CA's list is then what was on it and
    has not expired, followed by the revoked certificate unless that one
    has expired: revoking an expired certificate does not list it. *)
Theorem revoke_cert_lists_unless_expired ca c t h :
  revoke_cert ca c t h
  = (Return tt,
     <[revoked ca := filter (fun x => t <= Valid_to x) (list_at h (revoked ca))
                     ++ (if decide (t <= Valid_to c) then [c] else [])]> h).
Proof.
  unfold revoke_cert. cbv zeta.
  assert (H1 : list_at (<[revoked ca := list_at h (revoked ca) ++ [c]]> h) (revoked ca)
               = list_at h (revoked ca) ++ [c]).
  { unfold list_at at 1. now rewrite lookup_insert_eq. }
  rewrite H1, update_revoked_filter, insert_insert_eq, filter_app.
  do 3 f_equal.
Qed.

Section Accept.

Variable json_obj : payload -> string.
Variable json_cert : cert -> string.
Variable rsa_verify : string -> string -> Z * Z -> bool.
Variable rp : RelayingParty.
Variable h : lists.
Variable clock : nat -> Z.

Lemma loop_true_ok k last c s :
  verify_loop json_obj json_cert rsa_verify rp h clock k last c = Return (true, s) ->
  link_ok json_obj json_cert rsa_verify rp h clock k last c = true.
Proof.
  unfold link_ok, signature_ok.
  destruct c as [n i ic pk vf vt ca sg]; simpl.
  destruct (signed_text json_obj json_cert last) as [[sg' text]|e]; [|discriminate].
  destruct (rsa_verify text sg' pk); simpl; [|discriminate].
  destruct (is_revoked rp h _) as [[|]|e]; try discriminate.
  destruct (vf >? clock k) eqn:E1; [discriminate|].
  destruct (vt <? clock k) eqn:E2; [discriminate|].
  intros _. rewrite Z.gtb_ltb in E1. apply Z.ltb_ge in E1, E2.
  rewrite (proj2 (Z.leb_le _ _) E1), (proj2 (Z.leb_le _ _) E2). reflexivity.
Qed.

Lemma loop_accepts : forall c k last s,
  verify_loop json_obj json_cert rsa_verify rp h clock k last c = Return (true, s) ->
  exists k' last' root,
    reaches json_obj json_cert rsa_verify rp h clock k last c k' last' root
    /\ link_ok json_obj json_cert rsa_verify rp h clock k' last' root = true
    /\ Issuer_cert root = None
    /\ cert_in root (root_ca_lst rp) = true
    /\ s = VALID.
Proof.
  fix IH 1. intros c k last s H.
  pose proof (loop_true_ok k last c s H) as Hok.
  rewrite (loop_passes json_obj json_cert rsa_verify rp h clock k last c Hok) in H.
  destruct c as [n i ic pk vf vt ca sg]. cbn [Issuer_cert] in H.
  destruct ic as [next|].
  - destruct (IH next _ _ _ H) as (k' & last' & root & Hr & Hl & Hn & Hin & Hs).
    exists k', last', root. split; [|auto].
    eapply reaches_next; [exact Hok | reflexivity | exact Hr].
  - unfold finish in H.
    destruct (cert_in _ (root_ca_lst rp)) eqn:Hin; [|discriminate].
    injection H as <-. eexists k, last, _.
    split; [apply reaches_here|]. auto.
Qed.

(** [RelayingParty.verify] returns true for the chains, and only for the
    chains, in which every round passes its signature, revocation and
    time checks up to a certificate without issuer that is in
    [root_ca_lst]; the line printed is then 'Given object is valid.'.  No
    chain at all is never accepted. *)
Theorem verify_accepts_exactly_the_sound_chains o chain s :
  verify json_obj json_cert rsa_verify rp h clock o chain = Return (true, s)
  <-> exists c k last root,
        chain = Some c
        /\ reaches json_obj json_cert rsa_verify rp h clock 0 (LObj o) c k last root
        /\ link_ok json_obj json_cert rsa_verify rp h clock k last root = true
        /\ Issuer_cert root = None
        /\ cert_in root (root_ca_lst rp) = true
        /\ s = VALID.
Proof.
  split.
  - destruct chain as [c|]; simpl; [|discriminate].
    intros H. destruct (loop_accepts c _ _ _ H) as (k & last & root & Hr).
    exists c, k, last, root. auto.
  - intros (c & k & last & root & -> & Hr & Hok & Hn & Hin & ->). simpl.
    rewrite (loop_reaches _ _ _ _ _ _ _ _ _ _ _ _ Hr).
    rewrite (loop_passes _ _ _ _ _ _ _ _ _ Hok), Hn. unfold finish.
    now rewrite Hin.
Qed.

End Accept.

Section Honest.

Variable json_obj : payload -> string.
Variable json_cert : cert -> string.
Variable rsa_sign : string -> Z -> string.
Variable rsa_verify : string -> string -> Z * Z -> bool.





End Honest.




End PKIFacts.

(** ** Facts about PathORAM.py *)

Module PathORAMFacts.

Import PathORAM Scenarios.

(** *** Reasoning about operations

    [triple P c Q E]: run from a state in [P], the operation [c] either
    returns some [a] and leaves a state in [Q a], or raises and leaves a
    state in [E]. *)
Definition triple {A} (P : world -> Prop) (c : M A)
    (Q : A -> world -> Prop) (E : world -> Prop) : Prop :=
  forall w, P w ->
    match c w with
    | (Return a, w') => Q a w'
    | (Raise _, w') => E w'
    end.

(** [preserves P c]: however [c] ends, [P] still holds. *)
Definition preserves {A} (P : world -> Prop) (c : M A) : Prop :=
  triple P c (fun _ => P) P.

Lemma triple_bind {A B} P (c : M A) (k : A -> M B) Q R E :
  triple P c Q E -> (forall a, triple (Q a) (k a) R E) ->
  triple P (bind c k) R E.
Proof.
  intros Hc Hk w Hw. unfold bind. specialize (Hc w Hw).
  destruct (c w) as [[a|e] w']; [apply Hk, Hc | exact Hc].
Qed.

Lemma triple_weaken {A} (P P' : world -> Prop) (c : M A) (Q Q' : A -> world -> Prop)
    (E E' : world -> Prop) :
  triple P' c Q' E' ->
  (forall w, P w -> P' w) -> (forall a w, Q' a w -> Q a w) ->
  (forall w, E' w -> E w) ->
  triple P c Q E.
Proof.
  intros Hc HP HQ HE w Hw. specialize (Hc w (HP w Hw)).
  destruct (c w) as [[a|e] w']; auto.
Qed.

Lemma triple_ret {A} (P : world -> Prop) (a : A) (Q : A -> world -> Prop) E :
  (forall w, P w -> Q a w) -> triple P (ret a) Q E.
Proof. intros H w Hw. simpl. auto. Qed.

Lemma triple_raise {A} (P : world -> Prop) e (Q : A -> world -> Prop)
    (E : world -> Prop) :
  (forall w, P w -> E w) -> triple P (raise e) Q E.
Proof. intros H w Hw. simpl. auto. Qed.

Lemma triple_gets {A} (P : world -> Prop) (f : world -> A)
    (Q : A -> world -> Prop) E :
  (forall w, P w -> Q (f w) w) -> triple P (gets f) Q E.
Proof. intros H w Hw. simpl. auto. Qed.

Lemma triple_lift {A} (P : world -> Prop) (o : outcome A)
    (Q : A -> world -> Prop) (E : world -> Prop) :
  (forall w, P w -> match o with Return a => Q a w | Raise _ => E w end) ->
  triple P (lift o) Q E.
Proof. intros H w Hw. unfold lift. specialize (H w Hw). destruct o; exact H. Qed.

Lemma triple_modify (P : world -> Prop) f (Q : unit -> world -> Prop) E :
  (forall w, P w -> Q tt (f w)) -> triple P (modify f) Q E.
Proof. intros H w Hw. simpl. auto. Qed.

Lemma preserves_bind {A B} P (c : M A) (k : A -> M B) :
  preserves P c -> (forall a, preserves P (k a)) -> preserves P (bind c k).
Proof. intros Hc Hk. eapply triple_bind; [exact Hc | exact Hk]. Qed.

Lemma preserves_ret {A} P (a : A) : preserves P (ret a).
Proof. apply triple_ret. auto. Qed.

Lemma preserves_raise {A} P e : preserves P (@raise A e).
Proof. apply triple_raise. auto. Qed.

Lemma preserves_gets {A} P (f : world -> A) : preserves P (gets f).
Proof. apply triple_gets. auto. Qed.

Lemma preserves_lift {A} P (o : outcome A) : preserves P (lift o).
Proof. apply triple_lift. intros w Hw. destruct o; exact Hw. Qed.

Lemma preserves_modify P f :
  (forall w, P w -> P (f w)) -> preserves P (modify f).
Proof. intros H. apply triple_modify. exact H. Qed.

Lemma preserves_for_each {A} P (l : list A) (body : A -> M unit) :
  (forall x, preserves P (body x)) -> preserves P (for_each l body).
Proof.
  intros H. induction l as [|x r IH]; simpl.
  - apply preserves_ret.
  - apply preserves_bind; [apply H | intros _; exact IH].
Qed.

Lemma preserves_state {A} P (c : M A) w : preserves P c -> P w -> P (c w).2.
Proof. intros H Hw. specialize (H w Hw). destruct (c w) as [[a|e] w']; exact H. Qed.

Lemma triple_pure {A} (phi : Prop) (P : world -> Prop) (c : M A) Q E :
  (phi -> triple P c Q E) -> triple (fun w => P w /\ phi) c Q E.
Proof. intros H w [Hp Hphi]. now apply H. Qed.

(** A first step that keeps [P], whose exceptions are as good as [E]. *)
Lemma triple_bind_frame {A B} (P : world -> Prop) (c : M A) (k : A -> M B) R
    (E : world -> Prop) :
  preserves P c -> (forall w, P w -> E w) -> (forall a, triple P (k a) R E) ->
  triple P (bind c k) R E.
Proof.
  intros Hc HE Hk. apply triple_bind with (Q := fun _ => P); [|exact Hk].
  eapply triple_weaken; [exact Hc | auto | auto | exact HE].
Qed.

(** *** Properties that only depend on parts of the state an operation
    leaves alone

    [Stable P]: [P] does not look at the counters of encryptions and
    draws (or only to bound them from above) nor at the trace;
    [TreeBlind P]: nor at the content of the tree; [MemoryBlind P]: nor
    at the position map. *)
Class Stable (P : world -> Prop) : Prop := {
  stable_encryption : forall w, P w -> P (count_encryption w);
  stable_draw : forall w, P w -> P (count_draw w);
  stable_touch : forall r w, P w -> P (record_touch r w)
}.

Class TreeBlind (P : world -> Prop) : Prop :=
  tree_blind : forall arr w, P w -> P (with_arr w arr).

Class MemoryBlind (P : world -> Prop) : Prop :=
  memory_blind : forall m w, P w -> P (with_memory w m).

(** [AssignSafe P]: [P] survives any assignment to the [value] of one
    node. *)
Class AssignSafe (P : world -> Prop) : Prop :=
  assign_safe : forall r v w,
    P w -> P (with_arr w (update_node (arr_of w) r (fun n => set_value n v))).

#[export] Instance tree_blind_assign_safe P `{!TreeBlind P} : AssignSafe P.
Proof. intros r v w H. now apply tree_blind. Qed.

Create HintDb frame discriminated.

Ltac stable_step :=
  match goal with
  | |- _ (count_encryption _) => apply stable_encryption
  | |- _ (count_draw _) => apply stable_draw
  | |- _ (record_touch _ _) => apply stable_touch
  | |- _ (with_arr _ (update_node _ _ _)) => apply assign_safe
  | |- _ (with_arr _ _) => apply tree_blind
  | |- _ (with_memory _ _) => apply memory_blind
  end.

#[export] Hint Extern 1 => stable_step : frame.

(** One step of a proof that an operation preserves a property. *)
Ltac frame_step :=
  first
    [ apply preserves_ret
    | apply preserves_raise
    | apply preserves_gets
    | apply preserves_lift
    | apply preserves_bind; [|intros ?]
    | apply preserves_for_each; intros ?
    | match goal with
      | |- preserves _ (match ?x with _ => _ end) => destruct x
      | |- preserves _ (if ?b then _ else _) => destruct b
      end
    | assumption ].

Ltac frame :=
  repeat (solve [eauto with frame typeclass_instances] || frame_step
          || (apply preserves_modify; solve [eauto with frame typeclass_instances])).

Section Frame.

Context (P : world -> Prop) `{!Stable P}.

Lemma encrypt_frame p : preserves P (encrypt p).
Proof. intros w Hw. simpl. auto with frame. Qed.

Lemma randint_frame a b : preserves P (randint a b).
Proof. intros w Hw. unfold randint. destruct (b <? a); simpl; auto with frame. Qed.

Lemma touch_frame r : preserves P (touch r).
Proof. apply preserves_modify. auto with frame. Qed.

Hint Resolve encrypt_frame randint_frame touch_frame : frame.

Lemma redraw_frame fuel rand1 rand2 a b : preserves P (redraw fuel rand1 rand2 a b).
Proof.
  revert rand2. induction fuel as [|f IH]; intros rand2; simpl; frame.
Qed.

Lemma random_choice_frame letters : preserves P (random_choice letters).
Proof. unfold random_choice. frame. Qed.

Hint Resolve redraw_frame random_choice_frame : frame.

Lemma get_random_string_frame n : preserves P (get_random_string n).
Proof. induction n as [|n IH]; simpl; frame. Qed.

Lemma node_of_frame r : preserves P (node_of r).
Proof. unfold node_of. frame. Qed.

Hint Resolve get_random_string_frame node_of_frame : frame.

Lemma read_value_frame r : preserves P (read_value r).
Proof. unfold read_value. frame. Qed.

Hint Resolve read_value_frame : frame.

Lemma value_dict_frame r : preserves P (value_dict r).
Proof. unfold value_dict. frame. Qed.

Lemma get_item_frame r k : preserves P (get_item r k).
Proof. unfold get_item. frame. Qed.

Hint Resolve get_item_frame : frame.

Lemma is_dummy_frame c : preserves P (is_dummy c).
Proof. unfold is_dummy. frame. Qed.

Lemma num_nodes_in_level_frame i : preserves P (num_nodes_in_level i).
Proof. unfold num_nodes_in_level. frame. Qed.

Lemma get_node_in_level_frame i j : preserves P (get_node_in_level i j).
Proof. unfold get_node_in_level. frame. Qed.

Hint Resolve value_dict_frame is_dummy_frame num_nodes_in_level_frame
  get_node_in_level_frame : frame.

Lemma pick_entry_frame node i : preserves P (pick_entry node i).
Proof. unfold pick_entry. frame. Qed.

Lemma descend_frame cur path level : preserves P (descend cur path level).
Proof. unfold descend. frame. Qed.

Lemma path_of_frame id : preserves P (path_of id).
Proof. unfold path_of. frame. Qed.

Lemma encrypt_entries_frame node entries new_dict :
  preserves P (encrypt_entries node entries new_dict).
Proof.
  revert new_dict. induction entries as [|[k v] r IH]; intros new_dict; simpl; frame.
Qed.

Hint Resolve pick_entry_frame descend_frame path_of_frame
  encrypt_entries_frame : frame.

(** Operations that write to the tree. *)
Context `{!AssignSafe P}.

Lemma assign_value_frame r v : preserves P (assign_value r v).
Proof. unfold assign_value. frame. Qed.

Hint Resolve assign_value_frame : frame.

Lemma del_item_frame r k : preserves P (del_item r k).
Proof. unfold del_item. frame. Qed.

Lemma set_item_frame r k v : preserves P (set_item r k v).
Proof. unfold set_item. frame. Qed.

Hint Resolve del_item_frame set_item_frame : frame.

Lemma add_dummy_frame r : preserves P (add_dummy r).
Proof. unfold add_dummy. frame. Qed.

Hint Resolve add_dummy_frame : frame.

Lemma fill_frame : preserves P _fill_server_with_dummies.
Proof. unfold _fill_server_with_dummies. frame. Qed.

Hint Resolve fill_frame : frame.

Lemma encrypt_node_frame node : preserves P (_encrypt_node node).
Proof. unfold _encrypt_node. frame. Qed.

Lemma replace_first_dummy_frame next key data entries :
  preserves P (replace_first_dummy next key data entries).
Proof. induction entries as [|[k v] r IH]; simpl; frame. Qed.

Hint Resolve encrypt_node_frame replace_first_dummy_frame : frame.

Lemma push_selected_data_frame key data prev level :
  preserves P (_push_selected_data key data prev level).
Proof. unfold _push_selected_data. frame. Qed.

Hint Resolve push_selected_data_frame : frame.

Lemma rand_and_push_frame fuel node level : preserves P (_rand_and_push fuel node level).
Proof. unfold _rand_and_push. frame. Qed.

Hint Resolve rand_and_push_frame : frame.

Lemma push_level_frame fuel level : preserves P (push_level fuel level).
Proof. unfold push_level, get_root. frame. Qed.

Hint Resolve push_level_frame : frame.

Lemma push_levels_frame fuel levels : preserves P (push_levels fuel levels).
Proof. induction levels as [|l r IH]; simpl; frame. Qed.

Hint Resolve push_levels_frame : frame.

Lemma push_down_frame fuel : preserves P (_push_down fuel).
Proof. unfold _push_down. frame. Qed.

Lemma delete_scan_frame cur id entries : preserves P (delete_scan cur id entries).
Proof. induction entries as [|[k v] r IH]; simpl; frame. Qed.

Hint Resolve push_down_frame delete_scan_frame : frame.

Lemma delete_walk_frame id path levels cur :
  preserves P (delete_walk id path levels cur).
Proof. revert cur. induction levels as [|l r IH]; intros cur; simpl; frame. Qed.

Hint Resolve delete_walk_frame : frame.

Lemma delete_data_frame id : preserves P (delete_data id).
Proof. unfold delete_data, get_root. frame. Qed.

Lemma insert_at_root_frame tree_root id data entries :
  preserves P (insert_at_root tree_root id data entries).
Proof. induction entries as [|[k v] r IH]; simpl; frame. Qed.

Hint Resolve insert_at_root_frame : frame.

(** Operations that write to the position map as well. *)
Context `{!MemoryBlind P}.

Lemma store_data_frame hmac fuel id data : preserves P (store_data hmac fuel id data).
Proof. unfold store_data, get_root. frame. Qed.

Lemma forget_frame id : preserves P (forget id).
Proof. unfold forget. frame. Qed.

Hint Resolve store_data_frame forget_frame : frame.

Lemma retrieve_scan_frame hmac fuel cur id entries :
  preserves P (retrieve_scan hmac fuel cur id entries).
Proof. induction entries as [|[k v] r IH]; simpl; frame. Qed.

Hint Resolve retrieve_scan_frame : frame.

Lemma retrieve_walk_frame hmac fuel id path levels cur :
  preserves P (retrieve_walk hmac fuel id path levels cur).
Proof. revert cur. induction levels as [|l r IH]; intros cur; simpl; frame. Qed.

Hint Resolve retrieve_walk_frame : frame.

Lemma retrieve_data_frame hmac fuel id : preserves P (retrieve_data hmac fuel id).
Proof. unfold retrieve_data, get_root. frame. Qed.

End Frame.

#[export] Hint Resolve encrypt_frame randint_frame touch_frame redraw_frame
  random_choice_frame get_random_string_frame node_of_frame read_value_frame
  value_dict_frame get_item_frame is_dummy_frame num_nodes_in_level_frame
  get_node_in_level_frame pick_entry_frame descend_frame path_of_frame
  encrypt_entries_frame assign_value_frame del_item_frame set_item_frame
  add_dummy_frame fill_frame encrypt_node_frame replace_first_dummy_frame
  push_selected_data_frame rand_and_push_frame push_level_frame
  push_levels_frame push_down_frame delete_scan_frame delete_walk_frame
  delete_data_frame insert_at_root_frame store_data_frame forget_frame
  retrieve_scan_frame retrieve_walk_frame retrieve_data_frame : frame.

(** The passes and walks are made of reads and of pushes or scans: what
    these preserve, the passes and walks preserve. *)
Section Passes.

Context (P : world -> Prop) `{!Stable P}.
Hypothesis push_safe :
  forall key data prev level, preserves P (_push_selected_data key data prev level).

Lemma rand_and_push_pass fuel node level : preserves P (_rand_and_push fuel node level).
Proof. unfold _rand_and_push. frame. Qed.

Hint Resolve rand_and_push_pass : frame.

Lemma push_level_pass fuel level : preserves P (push_level fuel level).
Proof. unfold push_level, get_root. frame. Qed.

Hint Resolve push_level_pass : frame.

Lemma push_levels_pass fuel levels : preserves P (push_levels fuel levels).
Proof. induction levels as [|l r IH]; simpl; frame. Qed.

Hint Resolve push_levels_pass : frame.

Lemma push_down_pass fuel : preserves P (_push_down fuel).
Proof. unfold _push_down. frame. Qed.

End Passes.

Section Walks.

Context (P : world -> Prop) `{!Stable P}.
Hypothesis scan_safe :
  forall cur id entries, preserves P (delete_scan cur id entries).

Lemma delete_walk_pass id path levels cur :
  preserves P (delete_walk id path levels cur).
Proof. revert cur. induction levels as [|l r IH]; intros cur; simpl; frame. Qed.

Hint Resolve delete_walk_pass : frame.

Lemma delete_data_pass id : preserves P (delete_data id).
Proof. unfold delete_data, get_root. frame. Qed.

End Walks.

Lemma preserves_and {A} (P Q : world -> Prop) (c : M A) :
  preserves P c -> preserves Q c -> preserves (fun w => P w /\ Q w) c.
Proof.
  intros HP HQ w [Hp Hq]. specialize (HP w Hp). specialize (HQ w Hq).
  destruct (c w) as [[a|e] w']; split; assumption.
Qed.

Lemma preserves_or {A} (P Q : world -> Prop) (c : M A) :
  preserves P c -> preserves Q c -> preserves (fun w => P w \/ Q w) c.
Proof.
  intros HP HQ w [Hp|Hq]; [specialize (HP w Hp) | specialize (HQ w Hq)];
    destruct (c w) as [[a|e] w']; tauto.
Qed.

(** The trace only grows, and the position map and the key stay as they
    are unless assigned to. *)
#[export] Instance trace_grows_stable t0 :
  Stable (fun w => exists l, trace w = l ++ t0).
Proof.
  split; [auto | auto |]. intros r w [l H]. exists (r :: l). simpl. now rewrite H.
Qed.

#[export] Instance trace_grows_tree_blind t0 :
  TreeBlind (fun w => exists l, trace w = l ++ t0).
Proof. intros arr w H. exact H. Qed.

#[export] Instance trace_grows_memory_blind t0 :
  MemoryBlind (fun w => exists l, trace w = l ++ t0).
Proof. intros m w H. exact H. Qed.

#[export] Instance client_fields_stable m k :
  Stable (fun w => memory w = m /\ key w = k).
Proof. split; auto. Qed.

#[export] Instance client_fields_tree_blind m k :
  TreeBlind (fun w => memory w = m /\ key w = k).
Proof. intros arr w H. exact H. Qed.

(** *** Dicts and the tree *)

Lemma dict_del_split k d d' :
  dict_del k d = Some d' ->
  exists d1 v d2, d = d1 ++ (k, v) :: d2 /\ d' = d1 ++ d2 /\ k ∉ dict_keys d1.
Proof.
  revert d'. induction d as [|[k' v'] r IH]; intros d' H; simpl in H; [discriminate|].
  destruct (decide (k' = k)) as [->|Hne].
  - injection H as <-. exists [], v', r. repeat split. apply not_elem_of_nil.
  - destruct (dict_del k r) as [r'|]; [|discriminate]. injection H as <-.
    destruct (IH r' eq_refl) as (d1 & v & d2 & -> & -> & Hk).
    exists ((k', v') :: d1), v, d2. repeat split.
    unfold dict_keys in *. simpl. rewrite elem_of_cons. intros [->|?]; tauto.
Qed.

Lemma dict_set_fresh k v d :
  k ∉ dict_keys d -> dict_set k v d = d ++ [(k, v)].
Proof.
  unfold dict_keys. induction d as [|[k' v'] r IH]; simpl; intros H; [reflexivity|].
  rewrite elem_of_cons in H. destruct (decide (k' = k)) as [->|Hne]; [tauto|].
  rewrite IH by tauto. reflexivity.
Qed.

Lemma dict_get_elem k v d : dict_get k d = Some v -> (k, v) ∈ d.
Proof.
  induction d as [|[k' v'] r IH]; simpl; [discriminate|].
  destruct (decide (k' = k)) as [->|Hne].
  - intros [= ->]. now left.
  - intros H. right. now apply IH.
Qed.

Lemma dict_get_keys k d : k ∈ dict_keys d -> is_Some (dict_get k d).
Proof.
  unfold dict_keys. induction d as [|[k' v'] r IH]; simpl; intros H.
  - now apply elem_of_nil in H.
  - destruct (decide (k' = k)); [eauto|]. apply IH.
    apply elem_of_cons in H as [?|?]; [congruence | assumption].
Qed.

Lemma lookup_update_same arr r f :
  lookup_node (update_node arr r f) r = f <$> lookup_node arr r.
Proof.
  unfold lookup_node, update_node. rewrite list_lookup_alter_eq.
  destruct (arr !! r.1) as [lv|]; simpl; [|reflexivity].
  apply list_lookup_alter_eq.
Qed.

Lemma lookup_update_other arr r r' f :
  r <> r' -> lookup_node (update_node arr r f) r' = lookup_node arr r'.
Proof.
  intros Hne. unfold lookup_node, update_node.
  destruct (decide (r.1 = r'.1)) as [E1|N1].
  - rewrite <- E1, list_lookup_alter_eq.
    destruct (arr !! r.1) as [lv|]; simpl; [|reflexivity].
    rewrite list_lookup_alter_ne; [reflexivity|].
    intros E2. apply Hne. destruct r, r'; simpl in *; congruence.
  - rewrite list_lookup_alter_ne by exact N1. reflexivity.
Qed.

Lemma length_update_node arr r f : length (update_node arr r f) = length arr.
Proof. unfold update_node. apply length_alter. Qed.

(** *** What the primitive operations do to the state *)

Lemma bind_run {A B} (c : M A) (k : A -> M B) w :
  bind c k w = match c w with
               | (Return a, w') => k a w'
               | (Raise e, w') => (Raise e, w')
               end.
Proof. reflexivity. Qed.

(** A caller that passes a [range] value or a length indexes from the
    front. *)
Lemma py_index_nat {A} (l : list A) (i : nat) :
  py_index l (Z.of_nat i) = (fun x => (i, x)) <$> l !! i.
Proof.
  unfold py_index. assert (H : (Z.of_nat i <? 0)%Z = false) by (apply Z.ltb_ge; lia).
  rewrite H, H, Nat2Z.id. now destruct (l !! i).
Qed.

Lemma num_nodes_in_level_nat level w :
  num_nodes_in_level (Z.of_nat level) w
  = (match arr_of w !! level with
     | Some lv => Return (length lv)
     | None => Raise IndexError
     end, w).
Proof.
  unfold num_nodes_in_level, bind, gets. rewrite py_index_nat.
  now destruct (arr_of w !! level).
Qed.

Lemma get_node_in_level_nat level j w :
  get_node_in_level (Z.of_nat level) (Z.of_nat j) w
  = (match lookup_node (arr_of w) (level, j) with
     | Some _ => Return (level, j)
     | None => Raise IndexError
     end, w).
Proof.
  unfold get_node_in_level, lookup_node, bind, gets. rewrite py_index_nat. simpl.
  destruct (arr_of w !! level) as [lv|]; simpl; [|reflexivity].
  rewrite py_index_nat. now destruct (lv !! j).
Qed.

Lemma bind_assoc_run {A B C} (c : M A) (k : A -> M B) (k' : B -> M C) w :
  bind (bind c k) k' w = bind c (fun a => bind (k a) k') w.
Proof.
  unfold bind. destruct (c w) as [[a|e] w1]; reflexivity.
Qed.

Lemma read_value_run r n w :
  lookup_node (arr_of w) r = Some n ->
  read_value (Some r) w = (Return (value n), record_touch r w).
Proof.
  intros H. unfold read_value, node_of, touch, bind, gets, modify, ret.
  rewrite H. reflexivity.
Qed.


(** The state after [node.value = v] on the node at [r]. *)
Definition assigned (r : ref) (v : option bucket) (w : world) : world :=
  with_arr (record_touch r w) (update_node (arr_of w) r (fun n => set_value n v)).

Definition with_draws (w : world) (d : nat) : world :=
  {| server := server w; memory := memory w; key := key w;
     encryptions := encryptions w; rng := rng w; draws := d; trace := trace w |}.

Lemma del_item_cases r k w :
  (exists e, del_item r k w = (Raise e, w))
  \/ (exists r' n d d',
        r = Some r' /\ lookup_node (arr_of w) r' = Some n /\ value n = Some d
        /\ dict_del k d = Some d'
        /\ del_item r k w = (Return tt, assigned r' (Some d') w)).
Proof.
  unfold del_item, node_of, bind, gets, raise, ret.
  destruct r as [r'|]; [|left; eauto].
  destruct (lookup_node (arr_of w) r') as [n|] eqn:En; [|left; eauto].
  simpl. destruct (value n) as [d|] eqn:Ev; [|left; eauto].
  destruct (dict_del k d) as [d'|] eqn:Ed; [|left; eauto].
  right. exists r', n, d, d'. repeat split; assumption.
Qed.

Lemma set_item_cases r k v w :
  (exists e, set_item r k v w = (Raise e, w))
  \/ (exists r' n d,
        r = Some r' /\ lookup_node (arr_of w) r' = Some n /\ value n = Some d
        /\ set_item r k v w = (Return tt, assigned r' (Some (dict_set k v d)) w)).
Proof.
  unfold set_item, node_of, bind, gets, raise, ret.
  destruct r as [r'|]; [|left; eauto].
  destruct (lookup_node (arr_of w) r') as [n|] eqn:En; [|left; eauto].
  simpl. destruct (value n) as [d|] eqn:Ev; [|left; eauto].
  right. exists r', n, d. repeat split; assumption.
Qed.

(** Lowercase letters, and why a dummy's key never reads as an id. *)
Definition is_lower (c : ascii) : bool :=
  (97 <=? nat_of_ascii c)%nat && (nat_of_ascii c <=? 122)%nat.

Lemma get_lower n :
  (n < 26)%nat -> exists c, String.get n ascii_lowercase = Some c /\ is_lower c = true.
Proof.
  intros H.
  do 26 (destruct n as [|n]; [eexists; split; reflexivity|]). lia.
Qed.

Lemma str_starts_with_no_letter id :
  match str id with
  | String c _ => is_lower c = false
  | EmptyString => True
  end.
Proof.
  unfold str. destruct (Z.to_int id) as [d|d]; [|reflexivity].
  destruct d; reflexivity.
Qed.

Lemma random_choice_run w :
  exists c, random_choice ascii_lowercase w = (Return c, count_draw w)
            /\ is_lower c = true.
Proof.
  unfold random_choice, bind, randint.
  change (Z.of_nat (String.length ascii_lowercase) - 1) with 25.
  change (25 <? 0) with false. change (25 - 0 + 1) with 26. cbv iota.
  assert (Hi : (Z.to_nat (0 + rng w (draws w) mod 26) < 26)%nat).
  { pose proof (Z.mod_pos_bound (rng w (draws w)) 26 eq_refl). lia. }
  destruct (get_lower _ Hi) as (c & Hc & Hl). rewrite Hc. eauto.
Qed.

Lemma get_random_string_run n w :
  exists s, get_random_string n w = (Return s, with_draws w (draws w + n))
            /\ forall c r, s = String c r -> is_lower c = true.
Proof.
  revert w. induction n as [|n IH]; intros w; simpl.
  - exists EmptyString. split; [|discriminate].
    unfold ret, with_draws. rewrite Nat.add_0_r. now destruct w.
  - unfold bind. destruct (random_choice_run w) as (c & -> & Hc).
    destruct (IH (count_draw w)) as (r & -> & _).
    exists (String c r). split.
    + unfold ret, with_draws, count_draw. simpl. do 2 f_equal. lia.
    + intros c' r' E. now injection E as <- <-.
Qed.

Lemma dummy_key_is_no_entry id s n v :
  (forall c r, s = String c r -> is_lower c = true) -> s <> EmptyString ->
  is_entry_of id (Enc n s, v) = false.
Proof.
  intros Hs Hne. unfold is_entry_of. simpl.
  destruct (String.eqb s (str id)) eqn:E; [|reflexivity].
  apply String.eqb_eq in E. pose proof (str_starts_with_no_letter id) as H.
  rewrite <- E in H. destruct s as [|c r]; [congruence|].
  rewrite (Hs c r eq_refl) in H. discriminate.
Qed.

(** [add_dummy] is a [set_item] of a fresh key that is no entry of any
    id. *)
Lemma add_dummy_run r w :
  exists s,
    (forall id v, is_entry_of id (Enc (S (encryptions w)) s, v) = false)
    /\ add_dummy r w
       = set_item r (Enc (S (encryptions w)) s) (Enc (encryptions w) "00000")
           (count_encryption (with_draws (count_encryption w) (draws w + 3))).
Proof.
  unfold add_dummy, bind, encrypt. unfold DUMMY_LEN.
  destruct (get_random_string_run 3 (count_encryption w)) as (s & E & Hs).
  rewrite E. exists s. split; [|reflexivity].
  intros id v. apply dummy_key_is_no_entry; [exact Hs|].
  intros ->. simpl in E. unfold bind in E.
  destruct (random_choice_run (count_encryption w)) as (c1 & E1 & _).
  rewrite E1 in E.
  destruct (random_choice_run (count_draw (count_encryption w))) as (c2 & E2 & _).
  rewrite E2 in E.
  destruct (random_choice_run (count_draw (count_draw (count_encryption w))))
    as (c3 & E3 & _).
  rewrite E3 in E. simpl in E. discriminate.
Qed.

(** *** Counting the entries of an id *)

Lemma sum_list_fmap_app {A} (g : A -> nat) l1 l2 :
  sum_list (g <$> (l1 ++ l2)) = (sum_list (g <$> l1) + sum_list (g <$> l2))%nat.
Proof. rewrite fmap_app. apply sum_list_with_app. Qed.

Lemma sum_list_alter {A} (g : A -> nat) (f : A -> A) l i x :
  l !! i = Some x ->
  (sum_list (g <$> alter f i l) + g x = sum_list (g <$> l) + g (f x))%nat.
Proof.
  assert (Hcons : forall y r, sum_list (g <$> (y :: r)) = (g y + sum_list (g <$> r))%nat)
    by reflexivity.
  revert i. induction l as [|y r IH]; intros [|i] H; try discriminate.
  - injection H as ->. change (alter f 0%nat (x :: r)) with (f x :: r).
    rewrite !Hcons. lia.
  - change (alter f (S i) (y :: r)) with (y :: alter f i r).
    rewrite !Hcons. specialize (IH i H). lia.
Qed.

Lemma sum_list_concat {A} (g : A -> nat) (ll : list (list A)) :
  sum_list (g <$> concat ll) = sum_list ((fun l => sum_list (g <$> l)) <$> ll).
Proof.
  induction ll as [|l r IH]; simpl; [reflexivity|].
  now rewrite sum_list_fmap_app, IH.
Qed.

Lemma sum_update_node (g : Node -> nat) arr r f n :
  lookup_node arr r = Some n ->
  (sum_list (g <$> concat (update_node arr r f)) + g n
   = sum_list (g <$> concat arr) + g (f n))%nat.
Proof.
  unfold lookup_node, update_node. intros H.
  destruct (arr !! r.1) as [lv|] eqn:E; [|discriminate].
  rewrite !sum_list_concat.
  pose proof (sum_list_alter (fun l => sum_list (g <$> l)) (alter f r.2) arr r.1 lv E) as H1.
  pose proof (sum_list_alter g f lv r.2 n H) as H2. lia.
Qed.

Lemma count_assigned id r v w n :
  lookup_node (arr_of w) r = Some n ->
  (count_id id (assigned r v w) + count_in_bucket id (value n)
   = count_id id w + count_in_bucket id v)%nat.
Proof.
  intros H. unfold count_id.
  change (arr_of (assigned r v w))
    with (update_node (arr_of w) r (fun n => set_value n v)).
  exact (sum_update_node (fun n => count_in_bucket id (value n)) _ _ _ _ H).
Qed.

Definition entry_weight (id : Z) (k : ciphertext) : nat :=
  if is_entry_of id (k, k) then 1%nat else 0%nat.

Lemma count_in_cons id e d :
  count_in_bucket id (Some (e :: d))
  = (entry_weight id e.1 + count_in_bucket id (Some d))%nat.
Proof.
  unfold count_in_bucket, entry_weight, is_entry_of. simpl.
  rewrite filter_cons. destruct (String.eqb (decrypt e.1) (str id)) eqn:E.
  - rewrite decide_True by reflexivity. reflexivity.
  - rewrite decide_False by discriminate. reflexivity.
Qed.

Lemma count_in_app id d1 d2 :
  count_in_bucket id (Some (d1 ++ d2))
  = (count_in_bucket id (Some d1) + count_in_bucket id (Some d2))%nat.
Proof.
  induction d1 as [|e r IH]; [reflexivity|].
  change ((e :: r) ++ d2) with (e :: (r ++ d2)). rewrite !count_in_cons, IH. lia.
Qed.

Lemma count_dict_set id k v d :
  (count_in_bucket id (Some (dict_set k v d))
   <= count_in_bucket id (Some d) + entry_weight id k)%nat.
Proof.
  induction d as [|[k' v'] r IH].
  - change (dict_set k v []) with [(k, v)]. rewrite count_in_cons. cbn [fst]. lia.
  - change (dict_set k v ((k', v') :: r))
      with (if decide (k' = k) then (k, v) :: r else (k', v') :: dict_set k v r).
    destruct (decide (k' = k)) as [->|Hne]; rewrite !count_in_cons; cbn [fst]; lia.
Qed.

(** A [del] that returns takes one entry of the key's id away and no
    other; one that raises changes nothing. *)
Lemma count_del_item id r k w w' :
  del_item r k w = (Return tt, w') ->
  (count_id id w' + entry_weight id k = count_id id w)%nat.
Proof.
  intros H. destruct (del_item_cases r k w) as [[e He]|(r' & n & d & d' & -> & Hn & Hv & Hd & Hrun)].
  - congruence.
  - rewrite Hrun in H. injection H as <-.
    pose proof (count_assigned id r' (Some d') w n Hn) as Hc.
    destruct (dict_del_split k d d' Hd) as (d1 & v & d2 & -> & -> & _).
    rewrite Hv, !count_in_app, count_in_cons in Hc. cbn [fst] in Hc. lia.
Qed.

Lemma del_item_raise r k w e w' : del_item r k w = (Raise e, w') -> w' = w.
Proof.
  intros H. destruct (del_item_cases r k w) as [[e' He]|(r' & n & d & d' & _ & _ & _ & _ & Hrun)];
    congruence.
Qed.

Lemma count_set_item id r k v w o w' :
  set_item r k v w = (o, w') ->
  (count_id id w' <= count_id id w + entry_weight id k)%nat.
Proof.
  intros H. destruct (set_item_cases r k v w) as [[e He]|(r' & n & d & -> & Hn & Hv & Hrun)].
  - rewrite He in H. injection H as _ <-. lia.
  - rewrite Hrun in H. injection H as _ <-.
    pose proof (count_assigned id r' (Some (dict_set k v d)) w n Hn) as Hc.
    pose proof (count_dict_set id k v d). rewrite Hv in Hc. lia.
Qed.

Lemma count_add_dummy id r w o w' :
  add_dummy r w = (o, w') -> (count_id id w' <= count_id id w)%nat.
Proof.
  intros H. destruct (add_dummy_run r w) as (s & Hs & Hrun).
  rewrite Hrun in H. apply (count_set_item id) in H.
  unfold entry_weight in H. rewrite Hs in H.
  change (count_id id (count_encryption (with_draws (count_encryption w) (draws w + 3))))
    with (count_id id w) in H. lia.
Qed.

#[export] Instance count_at_most_stable id n :
  Stable (fun w => (count_id id w <= n)%nat).
Proof. split; auto. Qed.

#[export] Instance count_at_most_memory_blind id n :
  MemoryBlind (fun w => (count_id id w <= n)%nat).
Proof. intros m w H. exact H. Qed.

(** A scan that finds the id takes one of its entries away. *)
Definition one_less (id : Z) (n : nat) (res : option string) (w : world) : Prop :=
  match res with
  | Some _ => (count_id id w + 1 <= n)%nat
  | None => (count_id id w <= n)%nat
  end.

Lemma delete_scan_count id n cur entries :
  triple (fun w => (count_id id w <= n)%nat) (delete_scan cur id entries)
    (one_less id n) (fun w => (count_id id w <= n)%nat).
Proof.
  induction entries as [|[k v] r IH]; simpl.
  - apply triple_ret. auto.
  - destruct (String.eqb (decrypt k) (str id)) eqn:Ek; [|exact IH].
    apply triple_bind_frame; [frame | auto |]. intros v0.
    intros w Hw. unfold bind.
    destruct (del_item cur k w) as [[[]|e] w1] eqn:E1.
    + apply (count_del_item id) in E1.
      assert (entry_weight id k = 1%nat) as Hk.
      { unfold entry_weight, is_entry_of. simpl. now rewrite Ek. }
      destruct (add_dummy cur w1) as [[[]|e] w2] eqn:E2;
        apply (count_add_dummy id) in E2; simpl; lia.
    + apply del_item_raise in E1. now subst.
Qed.

Lemma delete_walk_count id n path levels cur :
  triple (fun w => (count_id id w <= n)%nat) (delete_walk id path levels cur)
    (one_less id n) (fun w => (count_id id w <= n)%nat).
Proof.
  revert cur. induction levels as [|l r IH]; intros cur; simpl.
  - apply triple_ret. auto.
  - eapply triple_bind; [apply value_dict_frame; apply _|]. intros d.
    eapply triple_bind; [apply delete_scan_count|]. intros [x|].
    + apply triple_ret. auto.
    + eapply triple_bind; [apply descend_frame; apply _|]. intros next. apply IH.
Qed.

Lemma delete_data_count id n :
  triple (fun w => (count_id id w <= n)%nat) (delete_data id)
    (fun res w => count_id id w + (if py_eqb res PyNone then 0 else 1) <= n)%nat
    (fun w => (count_id id w <= n)%nat).
Proof.
  unfold delete_data.
  eapply triple_bind; [apply path_of_frame; apply _|]. intros path.
  eapply triple_bind; [apply preserves_ret|]. intros root.
  eapply triple_bind; [apply delete_walk_count|]. intros [x|]; apply triple_ret.
  - intros w H. simpl in *. lia.
  - intros w H. simpl in *. lia.
Qed.

(** *** Buckets stay full

    [tidy lens extra w]: the bucket of every node [r] with [lens r = Some m]
    is a dict of [m] entries; no encrypted key occurs twice in the tree;
    every key in the tree and every key of [extra] (keys taken out of a
    bucket or just made, about to be put in one) comes from an encryption
    already counted, and the keys of [extra] are in no bucket. *)
Record tidy (lens : nat * nat -> option nat) (extra : list ciphertext)
    (w : world) : Prop := {
  tidy_len : forall r n m,
    lookup_node (arr_of w) r = Some n -> lens r = Some m ->
    exists b, value n = Some b /\ length b = m;
  tidy_nodup : forall r b, bucket_at w r = Some b -> NoDup (dict_keys b);
  tidy_apart : forall r1 r2 b1 b2 k,
    r1 <> r2 -> bucket_at w r1 = Some b1 -> bucket_at w r2 = Some b2 ->
    k ∈ dict_keys b1 -> k ∉ dict_keys b2;
  tidy_bound : forall r b k,
    bucket_at w r = Some b -> k ∈ dict_keys b -> (nonce k < encryptions w)%nat;
  tidy_extra_bound : forall k, k ∈ extra -> (nonce k < encryptions w)%nat;
  tidy_extra_out : forall k r b,
    k ∈ extra -> bucket_at w r = Some b -> k ∉ dict_keys b
}.

Definition upd (lens : nat * nat -> option nat) (r : nat * nat) (m : option nat)
    : nat * nat -> option nat :=
  fun r' => if decide (r' = r) then m else lens r'.

(** Every bucket has [BUCKET_SIZE] entries (and the keys are in order). *)
Definition full (w : world) : Prop := tidy (fun _ => Some BUCKET_SIZE) [] w.

Lemma tidy_weaken lens extra lens' extra' w :
  tidy lens extra w ->
  (forall r n m, lookup_node (arr_of w) r = Some n -> lens' r = Some m ->
                 lens r = Some m) ->
  (forall k, k ∈ extra' -> k ∈ extra) ->
  tidy lens' extra' w.
Proof.
  intros [H1 H2 H3 H4 H5 H6] Hl He. split; eauto.
Qed.

Lemma tidy_transport lens extra w w' :
  tidy lens extra w -> arr_of w' = arr_of w ->
  (encryptions w <= encryptions w')%nat ->
  tidy lens extra w'.
Proof.
  intros [H1 H2 H3 H4 H5 H6] Ha He. unfold bucket_at in *.
  split; unfold bucket_at; rewrite ?Ha; eauto.
  - intros r b k Hb Hk. specialize (H4 r b k Hb Hk). lia.
  - intros k Hk. specialize (H5 k Hk). lia.
Qed.

#[export] Instance tidy_stable lens extra : Stable (tidy lens extra).
Proof.
  split; intros; eapply tidy_transport; eauto; simpl; lia.
Qed.

#[export] Instance tidy_memory_blind lens extra : MemoryBlind (tidy lens extra).
Proof. intros m w H. eapply tidy_transport; eauto. Qed.

(** A key from an encryption not yet counted in [w] is new to the tree
    and to [extra]. *)
Lemma tidy_fresh lens extra w w' k :
  tidy lens extra w -> arr_of w' = arr_of w ->
  (encryptions w <= nonce k < encryptions w')%nat ->
  tidy lens (k :: extra) w' /\ k ∉ extra.
Proof.
  intros H Ha Hk.
  assert (H' : tidy lens extra w') by (eapply tidy_transport; eauto; lia).
  destruct H as [H1 H2 H3 H4 H5 H6]. destruct H' as [H1' H2' H3' H4' H5' H6'].
  split.
  - split; eauto.
    + intros k' Hin. apply elem_of_cons in Hin as [->|Hin]; [lia | eauto].
    + intros k' r b Hin Hb. apply elem_of_cons in Hin as [->|Hin]; [|eauto].
      intros Hkb. unfold bucket_at in Hb. rewrite Ha in Hb.
      specialize (H4 r b k Hb Hkb). lia.
  - intros Hin. specialize (H5 k Hin). lia.
Qed.

Lemma bucket_at_assigned r v w r' :
  is_Some (lookup_node (arr_of w) r) ->
  bucket_at (assigned r v w) r' = if decide (r' = r) then v else bucket_at w r'.
Proof.
  intros [n Hn]. unfold bucket_at.
  change (arr_of (assigned r v w))
    with (update_node (arr_of w) r (fun n => set_value n v)).
  destruct (decide (r' = r)) as [->|Hne].
  - rewrite lookup_update_same, Hn. reflexivity.
  - rewrite lookup_update_other by congruence. reflexivity.
Qed.

Lemma lookup_assigned r v w r' :
  lookup_node (arr_of (assigned r v w)) r'
  = if decide (r' = r) then ((fun n => set_value n v) <$> lookup_node (arr_of w) r)
    else lookup_node (arr_of w) r'.
Proof.
  change (arr_of (assigned r v w))
    with (update_node (arr_of w) r (fun n => set_value n v)).
  destruct (decide (r' = r)) as [->|Hne].
  - apply lookup_update_same.
  - apply lookup_update_other. congruence.
Qed.

(** Assigning a bucket whose keys are new to the rest of the tree. *)
Lemma tidy_assigned lens extra extra' w r n b' :
  tidy lens extra w ->
  lookup_node (arr_of w) r = Some n ->
  NoDup (dict_keys b') ->
  (forall k, k ∈ dict_keys b' ->
     (nonce k < encryptions w)%nat
     /\ forall r2 b2, r2 <> r -> bucket_at w r2 = Some b2 -> k ∉ dict_keys b2) ->
  (forall k, k ∈ extra' ->
     (nonce k < encryptions w)%nat /\ (k ∉ dict_keys b')
     /\ forall r2 b2, r2 <> r -> bucket_at w r2 = Some b2 -> k ∉ dict_keys b2) ->
  tidy (upd lens r (Some (length b'))) extra' (assigned r (Some b') w).
Proof.
  intros [H1 H2 H3 H4 H5 H6] Hn Hnd Hnew Hextra.
  assert (Hex : is_Some (lookup_node (arr_of w) r)) by eauto.
  split.
  - intros r' n' m. rewrite lookup_assigned. unfold upd.
    destruct (decide (r' = r)) as [->|Hne]; [|apply H1].
    rewrite Hn. simpl. intros [= <-] [= <-]. eauto.
  - intros r' b. rewrite bucket_at_assigned by exact Hex.
    destruct (decide (r' = r)) as [->|Hne]; [|apply H2]. now intros [= <-].
  - intros r1 r2 b1 b2 k Hne. rewrite !bucket_at_assigned by exact Hex.
    destruct (decide (r1 = r)) as [->|N1]; destruct (decide (r2 = r)) as [->|N2].
    + congruence.
    + intros [= <-] Hb2 Hk. eapply (proj2 (Hnew k Hk)); eauto.
    + intros Hb1 [= <-] Hk Hk'. eapply (proj2 (Hnew k Hk')); eauto.
    + eapply H3; eauto.
  - intros r' b k. rewrite bucket_at_assigned by exact Hex.
    destruct (decide (r' = r)) as [->|Hne]; [|apply H4].
    intros [= <-] Hk. apply (Hnew k Hk).
  - intros k Hk. apply (Hextra k Hk).
  - intros k r' b Hk. rewrite bucket_at_assigned by exact Hex.
    destruct (decide (r' = r)) as [->|Hne].
    + intros [= <-]. apply (Hextra k Hk).
    + intros Hb. eapply (proj2 (proj2 (Hextra k Hk))); eauto.
Qed.

Lemma dict_keys_app (d1 d2 : list (ciphertext * ciphertext)) :
  dict_keys (d1 ++ d2) = dict_keys d1 ++ dict_keys d2.
Proof. unfold dict_keys. apply fmap_app. Qed.

(** [del node.value[k]]: a raise changes nothing; a return leaves the
    node one entry short, with [k] out of the tree. *)
Lemma del_item_tidy lens extra r k w o w' :
  tidy lens extra w -> del_item r k w = (o, w') ->
  match o with
  | Raise _ => w' = w
  | Return _ =>
      exists r' m,
        r = Some r' /\ is_Some (lookup_node (arr_of w') r')
        /\ tidy (upd lens r' (Some m)) (k :: extra) w'
        /\ forall m0, lens r' = Some m0 -> m0 = S m
  end.
Proof.
  intros Ht Hrun.
  destruct (del_item_cases r k w)
    as [[e He]|(r' & n & d & d' & -> & Hn & Hv & Hd & Hr)].
  { rewrite He in Hrun. now injection Hrun as <- <-. }
  rewrite Hr in Hrun. injection Hrun as <- <-.
  destruct (dict_del_split k d d' Hd) as (d1 & v & d2 & -> & -> & Hk1).
  assert (Hb : bucket_at w r' = Some (d1 ++ (k, v) :: d2)).
  { unfold bucket_at. now rewrite Hn. }
  pose proof (tidy_nodup _ _ _ Ht r' _ Hb) as Hnd.
  rewrite dict_keys_app in Hnd. change (dict_keys ((k, v) :: d2)) with (k :: dict_keys d2) in Hnd.
  apply NoDup_app in Hnd as (Hnd1 & Hnd12 & Hnd2).
  apply NoDup_cons in Hnd2 as [Hk2 Hnd2].
  assert (Hsub : forall x, x ∈ dict_keys (d1 ++ d2) -> x ∈ dict_keys (d1 ++ (k, v) :: d2)).
  { intros x. rewrite !dict_keys_app.
    change (dict_keys ((k, v) :: d2)) with (k :: dict_keys d2).
    rewrite !elem_of_app, elem_of_cons. tauto. }
  assert (Hkin : k ∈ dict_keys (d1 ++ (k, v) :: d2)).
  { rewrite dict_keys_app. change (dict_keys ((k, v) :: d2)) with (k :: dict_keys d2).
    rewrite elem_of_app, elem_of_cons. tauto. }
  exists r', (length (d1 ++ d2)). split; [reflexivity|]. split; [|split].
  - rewrite lookup_assigned, decide_True by reflexivity. rewrite Hn. simpl. eauto.
  - eapply tidy_assigned; [exact Ht | exact Hn | | |].
    + rewrite dict_keys_app. apply NoDup_app. repeat split; try assumption.
      intros x Hx1 Hx2. apply (Hnd12 x Hx1). now apply elem_of_cons; right.
    + intros x Hx. split.
      * eapply tidy_bound; [exact Ht | exact Hb | auto].
      * intros r2 b2 Hne Hb2. eapply tidy_apart; [exact Ht | | exact Hb | exact Hb2 | auto].
        congruence.
    + intros x Hx. apply elem_of_cons in Hx as [->|Hx].
      * split; [eapply tidy_bound; [exact Ht | exact Hb | exact Hkin]|]. split.
        -- rewrite dict_keys_app, elem_of_app. tauto.
        -- intros r2 b2 Hne Hb2.
           eapply tidy_apart; [exact Ht | | exact Hb | exact Hb2 | exact Hkin]. congruence.
      * split; [eapply tidy_extra_bound; eauto|]. split.
        -- intros Hin. eapply tidy_extra_out; [exact Ht | exact Hx | exact Hb | auto].
        -- intros r2 b2 _ Hb2. eapply tidy_extra_out; eauto.
  - intros m0 Hm0. destruct (tidy_len _ _ _ Ht r' n m0 Hn Hm0) as (b & Hvb & <-).
    rewrite Hv in Hvb. injection Hvb as <-. rewrite !length_app. simpl. lia.
Qed.

(** [node.value[k] = v] with a key that is in no bucket, on a node that is
    there: it returns, and the node has one entry more. *)
Lemma set_item_tidy lens extra r k v w m :
  tidy lens (k :: extra) w -> k ∉ extra ->
  is_Some (lookup_node (arr_of w) r) -> lens r = Some m ->
  exists w', set_item (Some r) k v w = (Return tt, w')
             /\ tidy (upd lens r (Some (S m))) extra w'
             /\ is_Some (lookup_node (arr_of w') r).
Proof.
  intros Ht Hk [n Hn] Hm.
  destruct (tidy_len _ _ _ Ht r n m Hn Hm) as (d & Hv & Hlen).
  assert (Hb : bucket_at w r = Some d) by (unfold bucket_at; now rewrite Hn).
  assert (Hkd : k ∉ dict_keys d).
  { eapply tidy_extra_out; [exact Ht | | exact Hb]. apply elem_of_cons. now left. }
  destruct (set_item_cases (Some r) k v w)
    as [[e He]|(r' & n' & d' & [= <-] & Hn' & Hv' & Hr)].
  { exfalso. revert He. unfold set_item, node_of, bind, gets, ret, assign_value.
    rewrite Hn. simpl. rewrite Hv. discriminate. }
  rewrite Hn in Hn'. injection Hn' as <-. rewrite Hv in Hv'. injection Hv' as <-.
  rewrite dict_set_fresh in Hr by exact Hkd.
  eexists. split; [exact Hr|]. split.
  - replace (S m) with (length (d ++ [(k, v)])) by (rewrite length_app; simpl; lia).
    eapply tidy_assigned; [exact Ht | exact Hn | | |].
    + rewrite dict_keys_app. apply NoDup_app. repeat split.
      * eapply tidy_nodup; eauto.
      * intros x Hx Hx'. apply list_elem_of_singleton in Hx'. subst. contradiction.
      * apply NoDup_singleton.
    + intros x Hx. rewrite dict_keys_app, elem_of_app in Hx. destruct Hx as [Hx|Hx].
      * split; [eapply tidy_bound; eauto|].
        intros r2 b2 Hne Hb2. eapply tidy_apart; [exact Ht | | exact Hb | exact Hb2 | auto].
        congruence.
      * apply list_elem_of_singleton in Hx. subst x. split.
        -- eapply tidy_extra_bound; [exact Ht|]. apply elem_of_cons. now left.
        -- intros r2 b2 _ Hb2. eapply tidy_extra_out; [exact Ht | | exact Hb2].
           apply elem_of_cons. now left.
    + intros x Hx.
      assert (Hx' : x ∈ k :: extra) by (apply elem_of_cons; now right).
      split; [eapply tidy_extra_bound; eauto|]. split.
      * rewrite dict_keys_app, elem_of_app. intros [Hin|Hin].
        -- eapply tidy_extra_out; [exact Ht | exact Hx' | exact Hb | exact Hin].
        -- apply list_elem_of_singleton in Hin. subst x. contradiction.
      * intros r2 b2 _ Hb2. eapply tidy_extra_out; eauto.
  - rewrite lookup_assigned, decide_True by reflexivity. rewrite Hn. simpl. eauto.
Qed.

(** [add_dummy] on a node that is there returns, and the node has one
    entry more. *)
Lemma add_dummy_tidy lens extra r w m :
  tidy lens extra w ->
  is_Some (lookup_node (arr_of w) r) -> lens r = Some m ->
  exists w', add_dummy (Some r) w = (Return tt, w')
             /\ tidy (upd lens r (Some (S m))) extra w'
             /\ is_Some (lookup_node (arr_of w') r).
Proof.
  intros Ht Hn Hm. destruct (add_dummy_run (Some r) w) as (s & _ & ->).
  set (w1 := count_encryption (with_draws (count_encryption w) (draws w + 3))).
  destruct (tidy_fresh lens extra w w1 (Enc (S (encryptions w)) s) Ht eq_refl)
    as [Ht1 Hfresh]; [simpl; lia|].
  apply set_item_tidy; assumption.
Qed.

Lemma encrypt_tidy lens extra p w :
  tidy lens extra w ->
  exists c w', encrypt p w = (Return c, w')
               /\ tidy lens (c :: extra) w' /\ (c ∉ extra)
               /\ arr_of w' = arr_of w.
Proof.
  intros Ht. exists (Enc (encryptions w) p), (count_encryption w).
  split; [reflexivity|].
  destruct (tidy_fresh lens extra w (count_encryption w) (Enc (encryptions w) p) Ht eq_refl)
    as [H1 H2]; [simpl; lia|]. auto.
Qed.

Abbreviation all_full := (fun _ : nat * nat => Some BUCKET_SIZE) (only parsing).

#[export] Instance full_stable : Stable full.
Proof. exact (tidy_stable _ _). Qed.

#[export] Instance full_memory_blind : MemoryBlind full.
Proof. exact (tidy_memory_blind _ _). Qed.

Lemma full_of_tidy lens extra w :
  tidy lens extra w -> (forall r, lens r = Some BUCKET_SIZE) -> full w.
Proof.
  intros Ht Hl. eapply tidy_weaken; [exact Ht | |].
  - intros r n m _ [= <-]. apply Hl.
  - intros k Hk. now apply elem_of_nil in Hk.
Qed.

Lemma tidy_fewer lens extra extra' w :
  tidy lens extra w -> (forall k, k ∈ extra' -> k ∈ extra) -> tidy lens extra' w.
Proof. intros Ht He. eapply tidy_weaken; eauto. Qed.

Lemma upd_back r r' :
  upd (upd all_full r (Some 3%nat)) r (Some 4%nat) r' = Some BUCKET_SIZE.
Proof. unfold upd. destruct (decide (r' = r)); reflexivity. Qed.

(** Taking an entry out and putting a dummy in its place: the buckets
    are full again, and the key taken out is in none. *)
Lemma del_then_add_dummy extra r k w :
  tidy all_full extra w ->
  match (del_item r k ;; add_dummy r) w with
  | (Return _, w') => tidy all_full (k :: extra) w'
  | (Raise _, w') => w' = w
  end.
Proof.
  intros Ht. rewrite bind_run.
  destruct (del_item r k w) as [[[]|e] w1] eqn:E1;
    pose proof (del_item_tidy _ _ _ _ _ _ _ Ht E1) as H1; [|exact H1].
  destruct H1 as (r' & m & -> & Hn & Ht1 & Hm).
  specialize (Hm _ eq_refl). injection Hm as <-.
  destruct (add_dummy_tidy _ _ r' w1 3 Ht1 Hn) as (w2 & -> & Ht2 & _).
  { unfold upd. now rewrite decide_True. }
  eapply tidy_weaken; [exact Ht2 | | auto].
  intros r0 n0 m0 _ [= <-]. apply upd_back.
Qed.

Lemma replace_first_dummy_full next key data entries :
  triple (tidy all_full [key]) (replace_first_dummy next key data entries)
    (fun _ => full) full.
Proof.
  induction entries as [|[cur_key cur_val] r IH]; simpl.
  - apply triple_ret. intros w H. eapply tidy_fewer; [exact H|].
    intros k Hk. now apply elem_of_nil in Hk.
  - apply triple_bind_frame;
      [frame | intros w H; eapply full_of_tidy; eauto |]. intros val.
    eapply triple_bind.
    { eapply triple_weaken; [apply (is_dummy_frame (tidy all_full [key])) | | |];
        [auto | intros a w H; exact H |].
      intros w H. eapply full_of_tidy; eauto. }
    intros [|]; [|exact IH].
    intros w Ht. rewrite bind_run.
    destruct (del_item next cur_key w) as [[[]|e] w1] eqn:E1;
      pose proof (del_item_tidy _ _ _ _ _ _ _ Ht E1) as H1; simpl in H1.
    + destruct H1 as (r' & m & -> & Hn & Ht1 & Hm).
      specialize (Hm _ eq_refl). injection Hm as <-.
      assert (Ht1' : tidy (upd all_full r' (Some 3%nat)) [key] w1).
      { eapply tidy_fewer; [exact Ht1|]. intros k Hk. apply elem_of_cons. now right. }
      destruct (set_item_tidy _ [] r' key data w1 3 Ht1') as (w2 & -> & Ht2 & _).
      * apply not_elem_of_nil.
      * exact Hn.
      * unfold upd. now rewrite decide_True.
      * eapply full_of_tidy; [exact Ht2|]. intros r0. apply upd_back.
    + subst w1. eapply full_of_tidy; eauto.
Qed.

Lemma push_selected_data_full key data prev level :
  preserves full (_push_selected_data key data prev level).
Proof.
  unfold _push_selected_data.
  apply preserves_bind; [frame|]. intros first.
  apply preserves_bind; [frame|]. intros direction.
  apply preserves_bind; [frame|]. intros pn.
  intros w Ht. rewrite <- bind_assoc_run. rewrite bind_run.
  pose proof (del_then_add_dummy [] (Some prev) key w Ht) as H.
  destruct ((del_item (Some prev) key;; add_dummy (Some prev)) w) as [[[]|e] w1].
  - assert (Hrest : triple (tidy all_full [key])
              (d <- value_dict
                      (if py_eqb direction (PyInt 0) then left pn.2 else right pn.2);;
               replace_first_dummy
                 (if py_eqb direction (PyInt 0) then left pn.2 else right pn.2)
                 key data d)
              (fun _ => full) full).
    { eapply triple_bind.
      - eapply triple_weaken; [apply (value_dict_frame (tidy all_full [key])) | | |];
          [auto | intros a w' H'; exact H' |].
        intros w' H'. eapply full_of_tidy; eauto.
      - intros d. apply replace_first_dummy_full. }
    exact (Hrest w1 H).
  - now subst w1.
Qed.

Lemma push_down_full fuel : preserves full (_push_down fuel).
Proof. apply push_down_pass; [apply _|]. apply push_selected_data_full. Qed.

Lemma delete_scan_full cur id entries : preserves full (delete_scan cur id entries).
Proof.
  induction entries as [|[k v] r IH]; simpl.
  - apply preserves_ret.
  - destruct (String.eqb (decrypt k) (str id)); [|exact IH].
    apply preserves_bind; [frame|]. intros v0. cbv zeta.
    intros w Ht. rewrite <- bind_assoc_run. rewrite bind_run.
    pose proof (del_then_add_dummy [] cur k w Ht) as H.
    destruct ((del_item cur k;; add_dummy cur) w) as [[[]|e] w1].
    + simpl. eapply full_of_tidy; eauto.
    + now subst w1.
Qed.

Lemma delete_data_full id : preserves full (delete_data id).
Proof. apply delete_data_pass; [apply _|]. apply delete_scan_full. Qed.

Lemma value_dict_cases r w :
  (exists e w', value_dict r w = (Raise e, w')
                /\ arr_of w' = arr_of w /\ encryptions w' = encryptions w)
  \/ (exists n d, lookup_node (arr_of w) (default (0, 0)%nat r) = Some n
                  /\ value n = Some d /\ is_Some r
                  /\ value_dict r w = (Return d, record_touch (default (0, 0)%nat r) w)).
Proof.
  unfold value_dict, read_value, node_of, touch, bind, gets, modify, ret, raise.
  destruct r as [r'|]; [|left; eauto].
  simpl. destruct (lookup_node (arr_of w) r') as [n|] eqn:En; [|left; eauto].
  simpl. destruct (value n) as [d|] eqn:Ev.
  - right. exists n, d. eauto.
  - left. eauto.
Qed.

(** [node.value[k]] for a key of the dict: the value, and the node is
    touched. *)
Lemma get_item_run r d k v w :
  bucket_at w r = Some d -> dict_get k d = Some v ->
  get_item (Some r) k w = (Return v, record_touch r w).
Proof.
  intros Hb Hg. unfold bucket_at in Hb.
  destruct (lookup_node (arr_of w) r) as [n|] eqn:En; [|discriminate].
  unfold get_item, value_dict. rewrite !bind_run, (read_value_run r n w En), Hb.
  cbv beta iota. change (ret d (record_touch r w)) with (Return d, record_touch r w).
  cbv beta iota. now rewrite Hg.
Qed.

Lemma get_item_cases r k w :
  (exists e w', get_item r k w = (Raise e, w')
                /\ arr_of w' = arr_of w /\ encryptions w' = encryptions w)
  \/ (exists r' d v, r = Some r' /\ bucket_at w r' = Some d
                     /\ dict_get k d = Some v
                     /\ get_item r k w = (Return v, record_touch r' w)).
Proof.
  unfold get_item. rewrite bind_run.
  destruct (value_dict_cases r w)
    as [(e & w' & -> & Ha & He)|(n & d & Hn & Hv & [r' ->] & ->)].
  { left. eauto. }
  simpl in Hn. simpl (default _ _). cbv beta iota.
  destruct (dict_get k d) as [v|] eqn:Eg.
  - right. exists r', d, v. split; [reflexivity|].
    split; [unfold bucket_at; now rewrite Hn|]. split; [exact Eg | reflexivity].
  - left. exists KeyError, (record_touch r' w). auto.
Qed.

(** The loop of [_encrypt_node] writes nothing to the tree; the keys it
    makes are new and all different. *)
Lemma encrypt_entries_run c0 node d entries acc w :
  bucket_at w node = Some d -> (forall e, e ∈ entries -> e.1 ∈ dict_keys d) ->
  (c0 <= encryptions w)%nat ->
  NoDup (dict_keys acc) ->
  (forall k, k ∈ dict_keys acc -> (c0 <= nonce k < encryptions w)%nat) ->
  exists nd w',
    encrypt_entries node entries acc w = (Return nd, w')
    /\ arr_of w' = arr_of w
    /\ (encryptions w <= encryptions w')%nat
    /\ NoDup (dict_keys nd)
    /\ (forall k, k ∈ dict_keys nd -> (c0 <= nonce k < encryptions w')%nat)
    /\ length nd = (length acc + length entries)%nat.
Proof.
  intros Hbk. revert acc w Hbk.
  induction entries as [|[k v0] r IH]; intros acc w Hbk Hsub Hc Hnd Hb; simpl.
  - exists acc, w. split; [reflexivity|]. split; [reflexivity|].
    split; [lia|]. split; [exact Hnd|]. split; [exact Hb|]. lia.
  - destruct (dict_get_keys k d) as [v Hv]; [apply (Hsub (k, v0)); now left|].
    rewrite bind_run, (get_item_run node d k v w Hbk Hv). cbv beta iota.
    unfold bind at 1. unfold encrypt at 1. unfold bind at 1. unfold encrypt at 1.
    set (ek := Enc (encryptions (record_touch node w)) (decrypt k)).
    set (ev := Enc (encryptions (count_encryption (record_touch node w))) (decrypt v)).
    assert (Hek : ek ∉ dict_keys acc).
    { intros Hin. specialize (Hb ek Hin). simpl in Hb. lia. }
    rewrite dict_set_fresh by exact Hek.
    destruct (IH (acc ++ [(ek, ev)])
                (count_encryption (count_encryption (record_touch node w))))
      as (nd & w' & Hrun & Ha & He & Hnd' & Hb' & Hl).
    + exact Hbk.
    + intros e He. apply Hsub. now right.
    + simpl. lia.
    + rewrite dict_keys_app. apply NoDup_app.
      split; [exact Hnd|]. split; [|apply NoDup_singleton].
      intros x Hx Hx'. apply list_elem_of_singleton in Hx'. subst. contradiction.
    + intros x Hx. rewrite dict_keys_app, elem_of_app in Hx. destruct Hx as [Hx|Hx].
      * specialize (Hb x Hx). simpl. lia.
      * apply list_elem_of_singleton in Hx. subst x. simpl. lia.
    + exists nd, w'. rewrite Hrun. split; [reflexivity|]. split; [exact Ha|].
      split; [simpl in He; lia|]. split; [exact Hnd'|]. split; [exact Hb'|].
      rewrite Hl, length_app. simpl. lia.
Qed.

(** What is left of an operation after its first steps were run. *)
Ltac rest_preserves P :=
  match goal with
  | |- match ?c ?w with _ => _ end =>
      let H := fresh "Hrest" in
      assert (H : preserves P c); [|apply (H w)]
  end.

Lemma assign_value_run r v w : assign_value r v w = (Return tt, assigned r v w).
Proof. reflexivity. Qed.

(** Re-encrypting a bucket gives it as many entries under new keys. *)
Lemma encrypt_node_full node : preserves full (_encrypt_node node).
Proof.
  intros w Ht. unfold _encrypt_node. rewrite bind_run.
  destruct (value_dict_cases (Some node) w)
    as [(e & w' & -> & Ha & He)|(n & d & Hn & Hv & _ & ->)].
  { eapply tidy_transport; [exact Ht | exact Ha | lia]. }
  simpl in Hn. simpl (default _ _).
  rewrite bind_run.
  destruct (encrypt_entries_run (encryptions w) node d d [] (record_touch node w))
    as (nd & w2 & -> & Ha & He & Hnd & Hb & Hl).
  { unfold bucket_at. change (arr_of (record_touch node w)) with (arr_of w).
    now rewrite Hn. }
  { intros e He. unfold dict_keys. apply list_elem_of_fmap. eauto. }
  { simpl. lia. }
  { apply NoDup_nil_2. }
  { intros k Hk. now apply elem_of_nil in Hk. }
  rewrite assign_value_run.
  change (arr_of (record_touch node w)) with (arr_of w) in Ha.
  change (encryptions (record_touch node w)) with (encryptions w) in He, Hb.
  assert (Ht2 : tidy all_full [] w2).
  { eapply tidy_transport; [exact Ht | exact Ha | lia]. }
  assert (Hn2 : lookup_node (arr_of w2) node = Some n) by (rewrite Ha; exact Hn).
  destruct (tidy_len _ _ _ Ht node n _ Hn eq_refl) as (d' & Hv' & Hlen).
  rewrite Hv in Hv'. injection Hv' as <-.
  eapply full_of_tidy.
  - eapply (tidy_assigned all_full [] [] w2 node n nd Ht2 Hn2 Hnd).
    + intros k Hk. destruct (Hb k Hk) as [Hlo Hhi]. split; [exact Hhi|].
      intros r2 b2 _ Hb2 Hin.
      assert (Hb2' : bucket_at w r2 = Some b2).
      { unfold bucket_at in *. now rewrite <- Ha. }
      pose proof (tidy_bound _ _ _ Ht r2 b2 k Hb2' Hin). lia.
    + intros k Hk. now apply elem_of_nil in Hk.
  - intros r. unfold upd. destruct (decide (r = node)); [|reflexivity].
    rewrite Hl, Hlen. reflexivity.
Qed.

Lemma insert_at_root_full tree_root id data entries :
  preserves full (insert_at_root tree_root id data entries).
Proof.
  induction entries as [|[k v] r IH]; simpl.
  - apply preserves_ret.
  - apply preserves_bind; [frame|]. intros val.
    apply preserves_bind; [frame|]. intros [|]; [|exact IH].
    intros w Ht. rewrite bind_run.
    destruct (del_item (Some tree_root) k w) as [[[]|e] w1] eqn:E1;
      pose proof (del_item_tidy _ _ _ _ _ _ _ Ht E1) as H1; simpl in H1;
      [|now subst w1].
    destruct H1 as (r' & m & [= <-] & Hn & Ht1 & Hm).
    specialize (Hm _ eq_refl). injection Hm as <-.
    rewrite bind_run.
    destruct (encrypt_tidy _ _ ("1" ++ data) w1 Ht1) as (cv & w2 & -> & Ht2 & _ & Ha2).
    rewrite bind_run.
    destruct (encrypt_tidy _ _ (str id) w2 Ht2) as (ck & w3 & -> & Ht3 & Hck & Ha3).
    rewrite bind_run.
    destruct (set_item_tidy _ _ tree_root ck cv w3 3 Ht3 Hck) as (w4 & -> & Ht4 & _).
    { rewrite Ha3, Ha2. exact Hn. }
    { unfold upd. now rewrite decide_True. }
    apply (encrypt_node_full tree_root w4).
    eapply full_of_tidy; [exact Ht4|]. intros r0. apply upd_back.
Qed.

#[export] Hint Resolve push_selected_data_full push_down_full delete_scan_full
  delete_data_full encrypt_node_full insert_at_root_full : frame.

Lemma read_value_cases r w :
  (exists e w', read_value r w = (Raise e, w')
                /\ arr_of w' = arr_of w /\ encryptions w' = encryptions w)
  \/ (exists n, lookup_node (arr_of w) (default (0, 0)%nat r) = Some n
                /\ is_Some r
                /\ read_value r w
                   = (Return (value n), record_touch (default (0, 0)%nat r) w)).
Proof.
  unfold read_value, node_of, touch, bind, gets, modify, ret, raise.
  destruct r as [r'|]; [|left; eauto].
  simpl. destruct (lookup_node (arr_of w) r') as [n|] eqn:En; [|left; eauto].
  right. exists n. eauto.
Qed.

(** With the buckets full, [store_data] does not fill the tree again. *)
Lemma store_data_full hmac fuel id data :
  preserves full (store_data hmac fuel id data).
Proof.
  unfold store_data.
  apply preserves_bind; [frame|]. intros m.
  destruct (decide (is_Some (m !! id))) as [Hin|Hnin]; [frame|].
  apply preserves_bind; [frame|]. intros tree_root.
  intros w Ht. rewrite bind_run.
  destruct (read_value_cases (Some tree_root) w)
    as [(e & w' & -> & Ha & He)|(n & Hn & _ & ->)].
  { eapply tidy_transport; [exact Ht | exact Ha | lia]. }
  simpl in Hn. simpl (default _ _).
  destruct (tidy_len _ _ _ Ht tree_root n _ Hn eq_refl) as (d & -> & _).
  cbv beta iota. rest_preserves full; [frame|]. now apply stable_touch.
Qed.

#[export] Hint Resolve store_data_full : frame.

Lemma retrieve_scan_full hmac fuel cur id entries :
  preserves full (retrieve_scan hmac fuel cur id entries).
Proof.
  induction entries as [|[k v] r IH]; simpl.
  - apply preserves_ret.
  - destruct (String.eqb (decrypt k) (str id)); [|exact IH].
    apply preserves_bind; [frame|]. intros v0. cbv zeta.
    intros w Ht. rewrite <- bind_assoc_run. rewrite bind_run.
    pose proof (del_then_add_dummy [] cur k w Ht) as H.
    destruct ((del_item cur k;; add_dummy cur) w) as [[[]|e] w1]; [|now subst w1].
    cbv beta iota. rest_preserves full; [frame|]. eapply full_of_tidy; eauto.
Qed.

#[export] Hint Resolve retrieve_scan_full : frame.

Lemma retrieve_walk_full hmac fuel id path levels cur :
  preserves full (retrieve_walk hmac fuel id path levels cur).
Proof. revert cur. induction levels as [|l r IH]; intros cur; simpl; frame. Qed.

#[export] Hint Resolve retrieve_walk_full : frame.

Lemma retrieve_data_full hmac fuel id : preserves full (retrieve_data hmac fuel id).
Proof. unfold retrieve_data, get_root. frame. Qed.

(** *** Before the tree is filled *)

(** No node has a dict yet. *)
Definition blank (w : world) : Prop :=
  forall r n, lookup_node (arr_of w) r = Some n -> value n = None.

(** The server's constants fit its tree, and there is a root. *)
Definition shaped (w : world) : Prop :=
  length (arr_of w) = S (height (server w))
  /\ bucket_size (server w) = BUCKET_SIZE
  /\ is_Some (lookup_node (arr_of w) (0, 0)%nat).

#[export] Instance shaped_stable : Stable shaped.
Proof. split; auto. Qed.

#[export] Instance shaped_memory_blind : MemoryBlind shaped.
Proof. intros m w H. exact H. Qed.

#[export] Instance shaped_assign_safe : AssignSafe shaped.
Proof.
  intros r v w (H1 & H2 & H3). unfold shaped.
  change (arr_of (with_arr w (update_node (arr_of w) r (fun n => set_value n v))))
    with (update_node (arr_of w) r (fun n => set_value n v)).
  rewrite length_update_node. split; [exact H1|]. split; [exact H2|].
  destruct (decide (r = (0, 0)%nat)) as [->|Hne].
  - rewrite lookup_update_same. destruct H3 as [n ->]. simpl. eauto.
  - rewrite lookup_update_other by exact Hne. exact H3.
Qed.

#[export] Instance blank_stable : Stable blank.
Proof. split; auto. Qed.

#[export] Instance blank_memory_blind : MemoryBlind blank.
Proof. intros m w H. exact H. Qed.

Lemma triple_false {A} (c : M A) Q E : triple (fun _ => False) c Q E.
Proof. intros w []. Qed.

(** On a blank tree nothing can be read from a bucket or deleted from
    one: the call raises. *)
Lemma value_dict_blank r : triple blank (value_dict r) (fun _ _ => False) blank.
Proof.
  intros w Hb. destruct (value_dict_cases r w)
    as [(e & w' & -> & Ha & _)|(n & d & Hn & Hv & _ & _)].
  - unfold blank. rewrite Ha. exact Hb.
  - rewrite (Hb _ _ Hn) in Hv. discriminate.
Qed.

Lemma del_item_blank r k : triple blank (del_item r k) (fun _ _ => False) blank.
Proof.
  intros w Hb. destruct (del_item_cases r k w)
    as [[e ->]|(r' & n & d & d' & _ & Hn & Hv & _)].
  - exact Hb.
  - rewrite (Hb _ _ Hn) in Hv. discriminate.
Qed.

Lemma push_selected_data_blank key data prev level :
  preserves blank (_push_selected_data key data prev level).
Proof.
  unfold _push_selected_data.
  apply preserves_bind; [frame|]. intros first.
  apply preserves_bind; [frame|]. intros direction.
  apply preserves_bind; [frame|]. intros pn.
  eapply triple_bind; [apply del_item_blank|]. intros u. apply triple_false.
Qed.

Lemma push_down_blank fuel : preserves blank (_push_down fuel).
Proof. apply push_down_pass; [apply _|]. apply push_selected_data_blank. Qed.

Lemma delete_scan_blank cur id entries : preserves blank (delete_scan cur id entries).
Proof.
  induction entries as [|[k v] r IH]; simpl.
  - apply preserves_ret.
  - destruct (String.eqb (decrypt k) (str id)); [|exact IH].
    unfold get_item.
    eapply triple_bind;
      [eapply triple_bind; [apply value_dict_blank | intros d; apply triple_false]|].
    intros u. apply triple_false.
Qed.

Lemma delete_data_blank id : preserves blank (delete_data id).
Proof. apply delete_data_pass; [apply _|]. apply delete_scan_blank. Qed.

Lemma retrieve_walk_blank hmac fuel id path levels cur :
  preserves blank (retrieve_walk hmac fuel id path levels cur).
Proof.
  destruct levels as [|l r]; simpl.
  - apply preserves_ret.
  - eapply triple_bind; [apply value_dict_blank|]. intros d. apply triple_false.
Qed.

Lemma retrieve_data_blank hmac fuel id : preserves blank (retrieve_data hmac fuel id).
Proof.
  unfold retrieve_data, get_root.
  apply preserves_bind; [frame|]. intros path.
  apply preserves_bind; [frame|]. intros cur.
  apply preserves_bind; [apply retrieve_walk_blank|]. intros data.
  frame.
Qed.

(** *** Filling the tree

    The loops of [_fill_server_with_dummies] change the values of the
    nodes only: the levels keep their lengths and the server its
    constants. *)
Definition same_frame (w0 w : world) : Prop :=
  length <$> arr_of w = length <$> arr_of w0
  /\ height (server w) = height (server w0)
  /\ bucket_size (server w) = bucket_size (server w0).

Lemma fmap_length_update_node arr r f :
  length <$> update_node arr r f = length <$> arr.
Proof.
  unfold update_node. apply list_eq. intros i. rewrite !list_lookup_fmap.
  destruct (decide (r.1 = i)) as [<-|Hne].
  - rewrite list_lookup_alter_eq. destruct (arr !! r.1); simpl; [|reflexivity].
    now rewrite length_alter.
  - now rewrite list_lookup_alter_ne by exact Hne.
Qed.

#[export] Instance same_frame_stable w0 : Stable (same_frame w0).
Proof. split; auto. Qed.

#[export] Instance same_frame_assign_safe w0 : AssignSafe (same_frame w0).
Proof.
  intros r v w (H1 & H2 & H3). split; [|split; assumption].
  change (arr_of (with_arr w (update_node (arr_of w) r (fun n => set_value n v))))
    with (update_node (arr_of w) r (fun n => set_value n v)).
  rewrite <- H1. apply fmap_length_update_node.
Qed.

Lemma lookup_node_is_Some arr i j :
  is_Some (lookup_node arr (i, j))
  <-> exists n, (length <$> arr) !! i = Some n /\ (j < n)%nat.
Proof.
  unfold lookup_node. simpl. rewrite list_lookup_fmap.
  destruct (arr !! i) as [lv|]; simpl.
  - rewrite lookup_lt_is_Some. split.
    + intros H. exists (length lv). auto.
    + intros (n & [= <-] & H). exact H.
  - split; [intros [x Hx]; discriminate | intros (n & Hn & _); discriminate].
Qed.

(** The bodies of the two outer loops. *)
Definition fill_node (level j : nat) : M unit :=
  node <- get_node_in_level (Z.of_nat level) (Z.of_nat j) ;;
  assign_value node (Some []) ;;
  bs <- gets (fun w => bucket_size (server w)) ;;
  for_each (seq 0 bs) (fun _ => add_dummy (Some node)).

Definition fill_level (level : nat) : M unit :=
  n <- num_nodes_in_level (Z.of_nat level) ;;
  for_each (seq 0 n) (fill_node level).

Lemma fill_unfold :
  _fill_server_with_dummies
  = (h <- gets (fun w => height (server w)) ;;
     for_each (seq 0 (h + 1)) fill_level).
Proof. reflexivity. Qed.

Lemma upd_same lens r m : upd lens r m r = m.
Proof. unfold upd. now rewrite decide_True. Qed.

(** One node: an empty dict, then [BUCKET_SIZE] dummies under new keys. *)
Lemma fill_node_fills lens level j w :
  tidy lens [] w -> is_Some (lookup_node (arr_of w) (level, j)) ->
  bucket_size (server w) = BUCKET_SIZE ->
  exists w', fill_node level j w = (Return tt, w')
             /\ tidy (upd lens (level, j) (Some BUCKET_SIZE)) [] w'.
Proof.
  intros Ht [n Hn] Hbs. unfold fill_node. rewrite bind_run.
  assert (Hg : get_node_in_level (Z.of_nat level) (Z.of_nat j) w
               = (Return (level, j), w)).
  { rewrite get_node_in_level_nat, Hn. reflexivity. }
  rewrite Hg. cbv beta iota. rewrite bind_run, assign_value_run. cbv beta iota.
  set (r := (level, j)) in *. set (w1 := assigned r (Some []) w).
  assert (Ht1 : tidy (upd lens r (Some 0%nat)) [] w1).
  { apply (tidy_assigned lens [] [] w r n []); [exact Ht | exact Hn | constructor | |].
    - intros k Hk. now apply elem_of_nil in Hk.
    - intros k Hk. now apply elem_of_nil in Hk. }
  assert (Hn1 : is_Some (lookup_node (arr_of w1) r)).
  { unfold w1. rewrite lookup_assigned, decide_True by reflexivity.
    rewrite Hn. simpl. eauto. }
  rewrite bind_run.
  change (gets (fun w => bucket_size (server w)) w1)
    with (Return (bucket_size (server w)), w1).
  rewrite Hbs. cbv beta iota. unfold BUCKET_SIZE. cbn [seq for_each].
  destruct (add_dummy_tidy _ _ r w1 0 Ht1 Hn1 (upd_same _ _ _))
    as (w2 & E2 & Ht2 & Hn2).
  rewrite bind_run, E2. cbv beta iota.
  destruct (add_dummy_tidy _ _ r w2 1 Ht2 Hn2 (upd_same _ _ _))
    as (w3 & E3 & Ht3 & Hn3).
  rewrite bind_run, E3. cbv beta iota.
  destruct (add_dummy_tidy _ _ r w3 2 Ht3 Hn3 (upd_same _ _ _))
    as (w4 & E4 & Ht4 & Hn4).
  rewrite bind_run, E4. cbv beta iota.
  destruct (add_dummy_tidy _ _ r w4 3 Ht4 Hn4 (upd_same _ _ _))
    as (w5 & E5 & Ht5 & Hn5).
  rewrite bind_run, E5. cbv beta iota.
  exists w5. split; [reflexivity|].
  eapply tidy_weaken; [exact Ht5 | | auto].
  intros r' n' m _. unfold upd. destruct (decide (r' = r)); auto.
Qed.

Lemma triple_and {A} (P1 P2 : world -> Prop) (c : M A)
    (Q1 Q2 : A -> world -> Prop) (E1 E2 : world -> Prop) :
  triple P1 c Q1 E1 -> triple P2 c Q2 E2 ->
  triple (fun w => P1 w /\ P2 w) c (fun a w => Q1 a w /\ Q2 a w)
         (fun w => E1 w /\ E2 w).
Proof.
  intros H1 H2 w [Hp1 Hp2]. specialize (H1 w Hp1). specialize (H2 w Hp2).
  destruct (c w) as [[a|e] w']; split; assumption.
Qed.

(** A loop over [range(a, a + n)] with an invariant that counts the
    rounds. *)
Lemma triple_for_each_seq (I : nat -> world -> Prop) (body : nat -> M unit)
    (E : world -> Prop) n a :
  (forall i, (a <= i < a + n)%nat -> triple (I i) (body i) (fun _ => I (S i)) E) ->
  triple (I a) (for_each (seq a n) body) (fun _ => I (a + n)%nat) E.
Proof.
  revert a. induction n as [|n IH]; intros a H; simpl.
  - apply triple_ret. intros w Hw. now rewrite Nat.add_0_r.
  - eapply triple_bind; [apply H; lia|]. intros u.
    replace (a + S n)%nat with (S a + n)%nat by lia.
    apply IH. intros i Hi. apply H. lia.
Qed.

(** The nodes before node [j] of level [level], in the order of the
    loops, have their [BUCKET_SIZE] entries. *)
Definition filled_before (level j : nat) : nat * nat -> option nat :=
  fun r => if decide (r.1 < level \/ (r.1 = level /\ r.2 < j))%nat
           then Some BUCKET_SIZE else None.

Lemma fill_node_step w0 level j n :
  (length <$> arr_of w0) !! level = Some n -> (j < n)%nat ->
  bucket_size (server w0) = BUCKET_SIZE ->
  triple (fun w => tidy (filled_before level j) [] w /\ same_frame w0 w)
         (fill_node level j)
         (fun _ w => tidy (filled_before level (S j)) [] w /\ same_frame w0 w)
         (fun _ => False).
Proof.
  intros Hl Hj Hbs w [Ht Hs].
  assert (Hn : is_Some (lookup_node (arr_of w) (level, j))).
  { apply lookup_node_is_Some. exists n. destruct Hs as (-> & _). auto. }
  destruct (fill_node_fills _ level j w Ht Hn) as (w' & E & Ht').
  { destruct Hs as (_ & _ & ->). exact Hbs. }
  assert (Hs' : same_frame w0 (fill_node level j w).2).
  { apply preserves_state; [unfold fill_node; frame | exact Hs]. }
  rewrite E in *. split; [|exact Hs'].
  eapply tidy_weaken; [exact Ht' | | auto].
  intros [a b] nd m _. unfold filled_before, upd. simpl.
  destruct (decide (a < level \/ a = level /\ b < S j)%nat) as [Hlt|]; [|discriminate].
  intros Hm. destruct (decide ((a, b) = (level, j))) as [|Hne]; [exact Hm|].
  rewrite decide_True; [exact Hm|].
  assert (a <> level \/ b <> j) as Hd.
  { destruct (decide (a = level)) as [->|]; [|now left].
    right. intros ->. now apply Hne. }
  lia.
Qed.

Lemma fill_level_step w0 level :
  (level < length (arr_of w0))%nat ->
  bucket_size (server w0) = BUCKET_SIZE ->
  triple (fun w => tidy (filled_before level 0) [] w /\ same_frame w0 w)
         (fill_level level)
         (fun _ w => tidy (filled_before (S level) 0) [] w /\ same_frame w0 w)
         (fun _ => False).
Proof.
  intros Hlv Hbs.
  destruct (lookup_lt_is_Some_2 (length <$> arr_of w0) level) as [n Hn].
  { now rewrite length_fmap. }
  unfold fill_level.
  apply triple_bind with
    (Q := fun m w => (tidy (filled_before level 0) [] w /\ same_frame w0 w) /\ m = n).
  - intros w [Ht Hs]. rewrite num_nodes_in_level_nat.
    destruct Hs as (Hs1 & Hs2). pose proof Hn as Hn'.
    rewrite <- Hs1, list_lookup_fmap in Hn'.
    destruct (arr_of w !! level) as [lv|]; simpl in Hn'; [|discriminate].
    injection Hn' as <-. simpl.
    split; [split; [exact Ht | split; [exact Hs1 | exact Hs2]] | reflexivity].
  - intros m w [HI ->]. revert w HI.
    change (triple (fun w => tidy (filled_before level 0) [] w /\ same_frame w0 w)
              (for_each (seq 0 n) (fill_node level))
              (fun _ w => tidy (filled_before (S level) 0) [] w /\ same_frame w0 w)
              (fun _ => False)).
    eapply triple_weaken;
      [apply (triple_for_each_seq
                (fun j w => tidy (filled_before level j) [] w /\ same_frame w0 w)
                (fill_node level) (fun _ => False) n 0) | auto | | auto].
    + intros i Hi. apply (fill_node_step w0 level i n); auto; lia.
    + intros _ w [Ht Hs]. split; [|exact Hs].
      eapply tidy_weaken; [exact Ht | | auto].
      intros [a b] nd m Hnd. unfold filled_before. simpl.
      destruct (decide (a < S level \/ a = S level /\ b < 0)%nat) as [Hlt|];
        [|discriminate].
      intros Hm. rewrite decide_True; [exact Hm|].
      destruct (decide (a = level)) as [->|]; [|lia]. right.
      assert (Hex : is_Some (lookup_node (arr_of w) (level, b))) by eauto.
      apply lookup_node_is_Some in Hex as (n' & Hn' & Hb).
      destruct Hs as (Hs1 & _). rewrite Hs1, Hn in Hn'. injection Hn' as <-.
      split; [reflexivity | exact Hb].
Qed.

Lemma blank_bucket w r : blank w -> bucket_at w r = None.
Proof.
  intros Hb. unfold bucket_at.
  destruct (lookup_node (arr_of w) r) as [n|] eqn:E; [|reflexivity].
  exact (Hb _ _ E).
Qed.

Lemma blank_tidy lens w : blank w -> (forall r, lens r = None) -> tidy lens [] w.
Proof.
  intros Hb Hl. split.
  - intros r n m _ Hm. rewrite Hl in Hm. discriminate.
  - intros r b H. rewrite blank_bucket in H by exact Hb. discriminate.
  - intros r1 r2 b1 b2 k _ H. rewrite blank_bucket in H by exact Hb. discriminate.
  - intros r b k H. rewrite blank_bucket in H by exact Hb. discriminate.
  - intros k Hk. now apply elem_of_nil in Hk.
  - intros k r b Hk. now apply elem_of_nil in Hk.
Qed.

(** On a tree without any dict, [_fill_server_with_dummies] returns, and
    then every node has its [BUCKET_SIZE] entries. *)
Lemma fill_fills :
  triple (fun w => shaped w /\ blank w) _fill_server_with_dummies
         (fun _ => full) (fun _ => False).
Proof.
  intros w0 [(Hlen & Hbs & Hroot) Hb]. rewrite fill_unfold, bind_run.
  change (gets (fun w => height (server w)) w0)
    with (Return (height (server w0)), w0).
  cbv beta iota.
  assert (H : triple (fun w => tidy (filled_before 0 0) [] w /\ same_frame w0 w)
                (for_each (seq 0 (height (server w0) + 1)) fill_level)
                (fun _ => full) (fun _ => False)).
  { eapply triple_weaken;
      [apply (triple_for_each_seq
                (fun l w => tidy (filled_before l 0) [] w /\ same_frame w0 w)
                fill_level (fun _ => False) (height (server w0) + 1) 0)
      | auto | | auto].
    - intros i Hi. apply fill_level_step; [lia | exact Hbs].
    - intros _ w [Ht (Hs1 & _)]. eapply tidy_weaken; [exact Ht | | auto].
      intros [a b] nd m Hnd [= <-]. unfold filled_before. simpl.
      rewrite decide_True; [reflexivity|]. left.
      assert (Hex : is_Some (lookup_node (arr_of w) (a, b))) by eauto.
      apply lookup_node_is_Some in Hex as (n' & Hn' & _).
      apply lookup_lt_Some in Hn'. rewrite Hs1, length_fmap in Hn'. lia. }
  apply H. split.
  - apply blank_tidy; [exact Hb|]. intros [a b]. unfold filled_before. simpl.
    apply decide_False. lia.
  - repeat split.
Qed.

(** *** The tree of a new server, and the states reached from it *)

(** Either no node has a dict yet, or every node has a full one. *)
Definition settled (w : world) : Prop := shaped w /\ (blank w \/ full w).

Lemma store_data_blank hmac fuel id data :
  triple (fun w => shaped w /\ blank w) (store_data hmac fuel id data)
         (fun _ w => blank w \/ full w) (fun w => blank w \/ full w).
Proof.
  unfold store_data, get_root.
  apply triple_bind with (Q := fun _ w => shaped w /\ blank w);
    [apply triple_gets; auto|]. intros m.
  destruct (decide (is_Some (m !! id))) as [Hin|Hnin].
  { apply triple_ret. intros w [_ Hb]. now left. }
  apply triple_bind with (Q := fun _ w => shaped w /\ blank w);
    [apply triple_ret; auto|]. intros tree_root.
  intros w [Hs Hb]. rewrite bind_run.
  destruct (read_value_cases (Some tree_root) w)
    as [(e & w' & -> & Ha & He)|(n & Hn & _ & ->)].
  { left. unfold blank. rewrite Ha. exact Hb. }
  simpl in Hn. simpl (default _ _). rewrite (Hb _ _ Hn). cbv beta iota.
  rewrite bind_run.
  pose proof (fill_fills (record_touch tree_root w)) as Hfill.
  destruct (_fill_server_with_dummies (record_touch tree_root w)) as [[[]|e] w1].
  2:{ exfalso. apply Hfill. split; [now apply stable_touch | exact Hb]. }
  assert (Hf : full w1).
  { apply Hfill. split; [now apply stable_touch | exact Hb]. }
  cbv beta iota.
  match goal with
  | |- match ?c ?w with _ => _ end =>
      assert (Hrest : preserves full c); [frame|]; specialize (Hrest w Hf);
      destruct (c w) as [[a|e] w2]; right; exact Hrest
  end.
Qed.

Lemma store_data_settled hmac fuel id data :
  preserves settled (store_data hmac fuel id data).
Proof.
  intros w [Hs Hbf].
  assert (H1 : shaped (store_data hmac fuel id data w).2).
  { apply preserves_state; [frame | exact Hs]. }
  assert (H2 : (fun w' => blank w' \/ full w') (store_data hmac fuel id data w).2).
  { destruct Hbf as [Hb|Hf].
    - pose proof (store_data_blank hmac fuel id data w (conj Hs Hb)) as H.
      destruct (store_data hmac fuel id data w) as [[a|e] w']; exact H.
    - right. apply preserves_state; [apply store_data_full | exact Hf]. }
  destruct (store_data hmac fuel id data w) as [[a|e] w']; split; assumption.
Qed.

Lemma retrieve_data_settled hmac fuel id :
  preserves settled (retrieve_data hmac fuel id).
Proof.
  apply preserves_and; [frame|].
  apply preserves_or; [apply retrieve_data_blank | apply retrieve_data_full].
Qed.

Lemma delete_data_settled id : preserves settled (delete_data id).
Proof.
  apply preserves_and; [frame|].
  apply preserves_or; [apply delete_data_blank | apply delete_data_full].
Qed.

Lemma push_down_settled fuel : preserves settled (_push_down fuel).
Proof.
  apply preserves_and; [frame|].
  apply preserves_or; [apply push_down_blank | apply push_down_full].
Qed.

(** [build_tree_arr]: one list of nodes per level, none with a value. *)
Lemma build_levels_length level n cur : length (build_levels level n cur) = S n.
Proof. revert level cur. induction n as [|n IH]; intros; simpl; [|rewrite IH]; reflexivity. Qed.

Lemma link_level_blank level cur :
  Forall (fun n => value n = None) cur ->
  Forall (fun n => value n = None) (link_level level cur).
Proof.
  intros H. apply Forall_lookup. intros j n Hn. unfold link_level in Hn.
  rewrite list_lookup_imap in Hn.
  destruct (cur !! j) as [n0|] eqn:E; simpl in Hn; [|discriminate].
  injection Hn as <-. simpl. exact (proj1 (Forall_lookup _ _) H j n0 E).
Qed.

Lemma next_level_blank level cur :
  Forall (fun n => value n = None) (next_level level cur).
Proof.
  unfold next_level. apply Forall_concat, Forall_lookup. intros j l Hl.
  rewrite list_lookup_imap in Hl.
  destruct (cur !! j) as [n0|]; simpl in Hl; [|discriminate].
  injection Hl as <-. repeat constructor.
Qed.

Lemma build_levels_blank level n cur :
  Forall (fun n => value n = None) cur ->
  Forall (Forall (fun n => value n = None)) (build_levels level n cur).
Proof.
  revert level cur. induction n as [|n IH]; intros level cur H; simpl.
  - repeat constructor. exact H.
  - constructor; [now apply link_level_blank|]. apply IH, next_level_blank.
Qed.

Lemma build_levels_root level n cur x :
  cur !! 0%nat = Some x -> is_Some (lookup_node (build_levels level n cur) (0, 0)%nat).
Proof.
  intros H. unfold lookup_node. destruct n as [|n]; simpl.
  - eauto.
  - unfold link_level. rewrite list_lookup_imap, H. simpl. eauto.
Qed.

Lemma length_concat_imap_pairs {A B} (f : nat -> A -> list B) l :
  (forall j x, length (f j x) = 2%nat) ->
  length (concat (imap f l)) = (2 * length l)%nat.
Proof.
  revert f. induction l as [|x r IH]; intros f Hf; [reflexivity|].
  rewrite imap_cons. simpl concat. rewrite length_app, Hf.
  rewrite (IH (f ∘ S)) by (intros j y; apply Hf). simpl. lia.
Qed.

Lemma length_next_level level cur :
  length (next_level level cur) = (2 * length cur)%nat.
Proof. unfold next_level. now apply length_concat_imap_pairs. Qed.

Lemma build_levels_count level n cur :
  (length (concat (build_levels level n cur)) + length cur
   = length cur * 2 ^ S n)%nat.
Proof.
  revert level cur. induction n as [|n IH]; intros level cur.
  - simpl. rewrite length_app. simpl. lia.
  - change (build_levels level (S n) cur)
      with (link_level level cur :: build_levels (S level) n (next_level level cur)).
    simpl concat. rewrite length_app.
    specialize (IH (S level) (next_level level cur)).
    rewrite length_next_level in IH.
    unfold link_level. rewrite length_imap.
    change (2 ^ S (S n))%nat with (2 * 2 ^ S n)%nat. nia.
Qed.

Lemma build_levels_last level n cur :
  exists lf, last (build_levels level n cur) = Some lf
             /\ length lf = (length cur * 2 ^ n)%nat.
Proof.
  revert level cur. induction n as [|n IH]; intros level cur.
  - exists cur. split; [reflexivity | simpl; lia].
  - destruct (IH (S level) (next_level level cur)) as (lf & Hl & Hlen).
    exists lf. split.
    + change (build_levels level (S n) cur)
        with (link_level level cur :: build_levels (S level) n (next_level level cur)).
      rewrite last_cons, Hl. reflexivity.
    + rewrite Hlen, length_next_level.
      change (2 ^ S n)%nat with (2 * 2 ^ n)%nat. lia.
Qed.

(** Whatever [size] says, the tree that [PerfectTree(requested)] builds is
    perfect: [2^(L+1) - 1] nodes and [2^L] leaves for its height [L]. *)
Theorem built_tree_is_perfect requested t :
  new_tree requested = Return t ->
  node_count t = (2 ^ S (tree_height t) - 1)%nat
  /\ length (leaves t) = (2 ^ tree_height t)%nat.
Proof.
  unfold new_tree. intros H.
  destruct (fix_size (requested + 1)) as [sz|e]; [|discriminate].
  destruct (log2_floor sz) as [h|e]; [|discriminate].
  injection H as <-. unfold node_count, leaves, build_tree_arr. cbn [tree_arr tree_height].
  split.
  - pose proof (build_levels_count 0 (Z.to_nat h) [new_node None]) as Hc.
    change (length [new_node None]) with 1%nat in Hc. lia.
  - destruct (build_levels_last 0 (Z.to_nat h) [new_node None]) as (lf & -> & Hlen).
    change (length [new_node None]) with 1%nat in Hlen. simpl. lia.
Qed.

(** [PerfectTree(4)] *)
Lemma built_tree_is_perfect_witness :
  node_count (_tree (server_of 4)) = 7%nat
  /\ length (leaves (_tree (server_of 4))) = 4%nat.
Proof.
  apply (built_tree_is_perfect 4 (_tree (server_of 4))).
  vm_compute. reflexivity.
Defined.

Lemma new_server_blank blocks s k r :
  new_server blocks = Return s ->
  shaped (fresh_world s k r) /\ blank (fresh_world s k r).
Proof.
  unfold new_server, new_tree. intros H.
  destruct (fix_size (blocks + 1)) as [sz|e]; [|discriminate].
  destruct (log2_floor sz) as [h|e]; [|discriminate].
  injection H as <-. split; [split; [|split]|].
  - apply build_levels_length.
  - reflexivity.
  - apply (build_levels_root 0 (Z.to_nat h) [new_node None] (new_node None)).
    reflexivity.
  - intros [i j] n Hn. unfold lookup_node in Hn.
    pose proof (build_levels_blank 0 (Z.to_nat h) [new_node None]) as Hall.
    destruct (arr_of _ !! (i, j).1) as [lv|] eqn:E; [|discriminate].
    assert (Hlv : Forall (fun n => value n = None) lv).
    { refine (proj1 (Forall_lookup _ _) (Hall _) i lv E). repeat constructor. }
    exact (proj1 (Forall_lookup _ _) Hlv j n Hn).
Qed.

Lemma new_server_settled blocks s k r :
  new_server blocks = Return s -> settled (fresh_world s k r).
Proof.
  intros H. destruct (new_server_blank blocks s k r H) as [Hs Hb].
  split; [exact Hs | now left].
Qed.

Lemma reachable_settled hmac w : reachable hmac w -> settled w.
Proof.
  induction 1 as [blocks s k r Hs|fuel id data w _ IH|fuel id w _ IH|id w _ IH
                 |fuel w _ IH].
  - now apply (new_server_settled blocks).
  - apply preserves_state; [apply store_data_settled | exact IH].
  - apply preserves_state; [apply retrieve_data_settled | exact IH].
  - apply preserves_state; [apply delete_data_settled | exact IH].
  - apply preserves_state; [apply push_down_settled | exact IH].
Qed.

(** C5 holds.  In every state that a client and its server reach from a
    new server by stores, retrieves, deletes and push-down passes, however
    the random draws fall and whether the calls return or raise: once the
    tree is initialised (the root's value is a dict), the bucket of every
    node of the tree is a dict of exactly [BUCKET_SIZE] = 4 entries under
    4 different keys. *)
Theorem buckets_stay_full hmac w r :
  reachable hmac w -> initialised w ->
  is_Some (lookup_node (arr_of w) r) ->
  exists b, bucket_at w r = Some b /\ length b = BUCKET_SIZE
            /\ NoDup (dict_keys b).
Proof.
  intros Hreach Hinit [n Hn].
  destruct (reachable_settled hmac w Hreach) as [_ [Hb|Hf]].
  - destruct Hinit as [b Hroot]. rewrite blank_bucket in Hroot by exact Hb.
    discriminate.
  - destruct (tidy_len _ _ _ Hf r n _ Hn eq_refl) as (b & Hv & Hlen).
    assert (Hat : bucket_at w r = Some b) by (unfold bucket_at; now rewrite Hn).
    exists b. split; [exact Hat | split; [exact Hlen|]].
    exact (tidy_nodup _ _ _ Hf r b Hat).
Qed.

(** The last leaf of [Server(7)] after the store of the first run. *)
Lemma buckets_stay_full_witness :
  exists b, bucket_at deep_store.2 (2, 3)%nat = Some b /\ length b = BUCKET_SIZE
            /\ NoDup (dict_keys b).
Proof.
  assert (H1 : reachable plain_tag deep_store.2).
  { unfold deep_store. apply reach_store. apply (reach_fresh plain_tag 7).
    vm_compute. reflexivity. }
  assert (H2 : initialised deep_store.2).
  { vm_compute. eexists. reflexivity. }
  assert (H3 : is_Some (lookup_node (arr_of deep_store.2) (2, 3)%nat)).
  { vm_compute. eexists. reflexivity. }
  exact (buckets_stay_full plain_tag deep_store.2 (2, 3)%nat H1 H2 H3).
Defined.

(** *** At most one entry for an id

    [str] gives different ids different keys. *)
Lemma str_inj a b : str a = str b -> a = b.
Proof.
  unfold str. intros H.
  assert (Hok : forall z, NilZero.int_of_string (NilZero.string_of_int (Z.to_int z))
                          = Some (Z.to_int z)).
  { intros z. apply NilZero.isi; destruct z; simpl; try discriminate;
      intros [= E]; now apply DecimalPos.Unsigned.to_uint_nonnil in E. }
  pose proof (Hok a) as Ha. rewrite H, Hok in Ha. injection Ha as Ha.
  rewrite <- (DecimalZ.of_to a), <- (DecimalZ.of_to b). now rewrite Ha.
Qed.

(** What a key with plaintext [s] counts for the id [i]. *)
Definition wt (s : string) (i : Z) : nat :=
  if String.eqb s (str i) then 1%nat else 0%nat.

Lemma entry_weight_wt i k : entry_weight i k = wt (decrypt k) i.
Proof. reflexivity. Qed.

Lemma wt_same id : wt (str id) id = 1%nat.
Proof. unfold wt. now rewrite String.eqb_refl. Qed.

Lemma wt_other id i : i <> id -> wt (str id) i = 0%nat.
Proof.
  intros Hne. unfold wt. destruct (String.eqb (str id) (str i)) eqn:E; [|reflexivity].
  apply String.eqb_eq, str_inj in E. congruence.
Qed.

Lemma wt_le s i : (wt s i <= 1)%nat.
Proof. unfold wt. destruct (String.eqb s (str i)); lia. Qed.

(** [within g f w]: for every id [i] the tree holds at most [f i] entries,
    with room left for [g i] more. *)
Definition within (g f : Z -> nat) (w : world) : Prop :=
  forall i, (count_id i w + g i <= f i)%nat.

#[export] Instance within_stable g f : Stable (within g f).
Proof. split; auto. Qed.

#[export] Instance within_memory_blind g f : MemoryBlind (within g f).
Proof. intros m w H. exact H. Qed.

#[export] Instance memory_is_stable m : Stable (fun w => memory w = m).
Proof. split; auto. Qed.

#[export] Instance memory_is_tree_blind m : TreeBlind (fun w => memory w = m).
Proof. intros arr w H. exact H. Qed.

Lemma within_less g g' f w :
  within g f w -> (forall i, (g' i <= g i)%nat) -> within g' f w.
Proof. intros H Hg i. specialize (H i). specialize (Hg i). lia. Qed.

Lemma within_transport g f w w' :
  arr_of w' = arr_of w -> within g f w -> within g f w'.
Proof. intros Ha H i. unfold count_id. rewrite Ha. apply H. Qed.

Lemma del_item_within g f r k :
  triple (within g f) (del_item r k)
    (fun _ => within (fun i => g i + entry_weight i k)%nat f) (within g f).
Proof.
  intros w H. destruct (del_item r k w) as [[[]|e] w'] eqn:E.
  - intros i. pose proof (count_del_item i _ _ _ _ E). specialize (H i). lia.
  - apply del_item_raise in E. now subst.
Qed.

Lemma del_item_within_le g f r k : preserves (within g f) (del_item r k).
Proof.
  intros w H. pose proof (del_item_within g f r k w H) as H'.
  destruct (del_item r k w) as [[[]|e] w']; [|exact H'].
  eapply within_less; [exact H'|]. intros i. simpl. lia.
Qed.

Lemma set_item_within g f r k v :
  triple (within (fun i => g i + entry_weight i k)%nat f) (set_item r k v)
    (fun _ => within g f) (within g f).
Proof.
  intros w H.
  destruct (set_item r k v w) as [[[]|e] w'] eqn:E; intros i;
    pose proof (count_set_item i _ _ _ _ _ _ E); specialize (H i); simpl in H; lia.
Qed.

Lemma add_dummy_within g f r : preserves (within g f) (add_dummy r).
Proof.
  intros w H.
  destruct (add_dummy r w) as [[[]|e] w'] eqn:E; intros i;
    pose proof (count_add_dummy i _ _ _ _ E); specialize (H i); lia.
Qed.

Lemma update_node_missing arr r f :
  lookup_node arr r = None -> update_node arr r f = arr.
Proof.
  unfold lookup_node, update_node. intros H. apply list_eq. intros i.
  destruct (decide (r.1 = i)) as [<-|Hne].
  - rewrite list_lookup_alter_eq.
    destruct (arr !! r.1) as [lv|] eqn:E; simpl; [|reflexivity].
    f_equal. apply list_eq. intros j.
    destruct (decide (r.2 = j)) as [<-|Hne].
    + rewrite list_lookup_alter_eq, H. reflexivity.
    + now rewrite list_lookup_alter_ne.
  - now rewrite list_lookup_alter_ne.
Qed.

Lemma count_assigned_le i r v w :
  (count_id i (assigned r v w) <= count_id i w + count_in_bucket i v)%nat.
Proof.
  destruct (lookup_node (arr_of w) r) as [n|] eqn:E.
  - pose proof (count_assigned i r v w n E). lia.
  - unfold count_id.
    change (arr_of (assigned r v w))
      with (update_node (arr_of w) r (fun n => set_value n v)).
    rewrite update_node_missing by exact E. lia.
Qed.

Lemma assign_empty_within g f r : preserves (within g f) (assign_value r (Some [])).
Proof.
  intros w H. rewrite assign_value_run. cbv beta iota. intros i.
  pose proof (count_assigned_le i r (Some []) w) as Hc.
  change (count_in_bucket i (Some [])) with 0%nat in Hc. specialize (H i). lia.
Qed.

#[export] Hint Resolve del_item_within_le add_dummy_within assign_empty_within : frame.

Lemma fill_within g f : preserves (within g f) _fill_server_with_dummies.
Proof. unfold _fill_server_with_dummies. frame. Qed.

(** Re-encrypting keeps for every id the number of its entries, or
    lowers it. *)
Lemma encrypt_entries_count node entries acc w :
  match encrypt_entries node entries acc w with
  | (Return nd, w') =>
      arr_of w' = arr_of w
      /\ forall i, (count_in_bucket i (Some nd)
                    <= count_in_bucket i (Some entries)
                       + count_in_bucket i (Some acc))%nat
  | (Raise _, w') => arr_of w' = arr_of w
  end.
Proof.
  revert acc w. induction entries as [|[k v0] r IH]; intros acc w.
  - simpl. split; [reflexivity|]. intros i. lia.
  - cbn [encrypt_entries]. rewrite bind_run.
    destruct (get_item_cases (Some node) k w)
      as [(e & w' & -> & Ha & _)|(r' & d & v & _ & _ & _ & ->)]; [exact Ha|].
    cbv beta iota. unfold bind at 1. unfold encrypt at 1.
    unfold bind at 1. unfold encrypt at 1.
    match goal with
    | |- match encrypt_entries _ _ (dict_set ?ek ?ev _) ?w1 with _ => _ end =>
        specialize (IH (dict_set ek ev acc) w1);
        pose proof (fun i => count_dict_set i ek ev acc) as Hd;
        destruct (encrypt_entries node r (dict_set ek ev acc) w1) as [[nd|e] w2]
    end.
    + destruct IH as [Ha Hc]. split; [exact Ha|]. intros i.
      specialize (Hc i). specialize (Hd i).
      rewrite count_in_cons. cbn [fst].
      change (entry_weight i (Enc (encryptions (record_touch r' w)) (decrypt k)))
        with (entry_weight i k) in Hd. lia.
    + exact IH.
Qed.

Lemma encrypt_node_within g f node : preserves (within g f) (_encrypt_node node).
Proof.
  intros w H. unfold _encrypt_node. rewrite bind_run.
  destruct (value_dict_cases (Some node) w)
    as [(e & w' & -> & Ha & He)|(n & d & Hn & Hv & _ & ->)].
  { now apply (within_transport g f w). }
  simpl in Hn. simpl (default _ _). rewrite bind_run.
  pose proof (encrypt_entries_count node d [] (record_touch node w)) as Hcount0.
  destruct (encrypt_entries node d [] (record_touch node w)) as [[nd|e] w2].
  2:{ now apply (within_transport g f w). }
  destruct Hcount0 as [Ha Hc].
  rewrite assign_value_run. cbv beta iota. intros i.
  assert (Hn2 : lookup_node (arr_of w2) node = Some n) by (now rewrite Ha).
  pose proof (count_assigned i node (Some nd) w2 n Hn2) as Hcount.
  rewrite Hv in Hcount. specialize (Hc i).
  change (count_in_bucket i (Some [])) with 0%nat in Hc.
  assert (count_id i w2 = count_id i w) as Hsame by (unfold count_id; now rewrite Ha).
  specialize (H i). lia.
Qed.

Lemma replace_first_dummy_within g f next key data entries :
  triple (within (fun i => g i + entry_weight i key)%nat f)
    (replace_first_dummy next key data entries)
    (fun _ => within g f) (within g f).
Proof.
  assert (Hless : forall w, within (fun i => g i + entry_weight i key)%nat f w ->
                            within g f w).
  { intros w H. eapply within_less; [exact H|]. intros i. simpl. lia. }
  induction entries as [|[k v] r IH]; simpl.
  - apply triple_ret. exact Hless.
  - apply triple_bind_frame; [frame | exact Hless|]. intros val.
    apply triple_bind_frame; [frame | exact Hless|]. intros [|]; [|exact IH].
    apply triple_bind_frame; [frame | exact Hless|]. intros u.
    apply set_item_within.
Qed.

Lemma push_selected_data_within g f key data prev level :
  preserves (within g f) (_push_selected_data key data prev level).
Proof.
  assert (Hless : forall w, within (fun i => g i + entry_weight i key)%nat f w ->
                            within g f w).
  { intros w H. eapply within_less; [exact H|]. intros i. simpl. lia. }
  unfold _push_selected_data.
  apply preserves_bind; [frame|]. intros first.
  apply preserves_bind; [frame|]. intros direction.
  apply preserves_bind; [frame|]. intros pn.
  eapply triple_bind; [apply del_item_within|]. intros u.
  apply triple_bind_frame; [frame | exact Hless|]. intros u'.
  apply triple_bind_frame; [frame | exact Hless|]. intros d.
  apply replace_first_dummy_within.
Qed.

Lemma push_down_within g f fuel : preserves (within g f) (_push_down fuel).
Proof. apply push_down_pass; [apply _|]. apply push_selected_data_within. Qed.

Lemma delete_scan_within g f cur id entries :
  preserves (within g f) (delete_scan cur id entries).
Proof. induction entries as [|[k v] r IH]; simpl; frame. Qed.

Lemma delete_data_within g f id : preserves (within g f) (delete_data id).
Proof. apply delete_data_pass; [apply _|]. apply delete_scan_within. Qed.

#[export] Hint Resolve fill_within encrypt_node_within push_down_within : frame.

Lemma encrypt_plain (P E : world -> Prop) `{!Stable P} p :
  triple P (encrypt p) (fun c w => P w /\ decrypt c = p) E.
Proof.
  intros w H. unfold encrypt. split; [now apply stable_encryption | reflexivity].
Qed.

(** The store puts at most one entry for its id in the tree. *)
Lemma insert_at_root_within g f tree_root id data entries :
  triple (within (fun i => g i + wt (str id) i)%nat f)
    (insert_at_root tree_root id data entries)
    (fun _ => within g f) (within g f).
Proof.
  assert (Hless : forall w, within (fun i => g i + wt (str id) i)%nat f w ->
                            within g f w).
  { intros w H. eapply within_less; [exact H|]. intros i. simpl. lia. }
  induction entries as [|[k v] r IH]; simpl.
  - apply triple_ret. exact Hless.
  - apply triple_bind_frame; [frame | exact Hless|]. intros val.
    apply triple_bind_frame; [frame | exact Hless|]. intros [|]; [|exact IH].
    apply triple_bind_frame; [frame | exact Hless|]. intros u.
    apply triple_bind_frame; [frame | exact Hless|]. intros enc_val.
    apply triple_bind with
      (Q := fun c w => within (fun i => g i + wt (str id) i)%nat f w
                       /\ decrypt c = str id).
    { apply encrypt_plain. apply _. }
    intros enc_key. apply triple_pure. intros Hk.
    apply triple_bind with (Q := fun _ => within g f);
      [|intros u'; apply encrypt_node_within].
    intros w H. apply (set_item_within g f). intros i.
    rewrite entry_weight_wt, Hk. apply H.
Qed.

(** [calm w]: the tree holds at most one entry for an id, and none for
    an id that is not in the position map. *)
Definition calm (w : world) : Prop :=
  forall i, (count_id i w <= 1)%nat
            /\ (memory w !! i = None -> count_id i w = 0%nat).

#[export] Instance calm_stable : Stable calm.
Proof. split; auto. Qed.

Lemma calm_from w0 w :
  calm w0 -> memory w = memory w0 ->
  within (fun _ => 0%nat) (fun i => count_id i w0) w -> calm w.
Proof.
  intros Hc Hm Hw i. destruct (Hc i) as [H1 H2]. specialize (Hw i). simpl in Hw.
  rewrite Hm. split; [lia|]. intros Hn. specialize (H2 Hn). lia.
Qed.

Lemma calm_after_insert w0 w id x :
  calm w0 -> memory w0 !! id = None -> memory w = <[id := x]> (memory w0) ->
  within (fun _ => 0%nat) (fun i => count_id i w0 + wt (str id) i)%nat w ->
  calm w.
Proof.
  intros Hc Hid Hm Hw i. destruct (Hc i) as [H1 H2]. specialize (Hw i).
  simpl in Hw. rewrite Hm. destruct (decide (i = id)) as [->|Hne].
  - rewrite lookup_insert_eq. specialize (H2 Hid).
    pose proof (wt_le (str id) id). split; [lia | discriminate].
  - rewrite lookup_insert_ne by congruence. rewrite wt_other in Hw by exact Hne.
    split; [lia|]. intros Hn. specialize (H2 Hn). lia.
Qed.

(** An operation that adds no entry and leaves the position map alone. *)
Lemma calm_by_adding_nothing {A} (c : M A) :
  (forall g f, preserves (within g f) c) ->
  (forall m, preserves (fun w => memory w = m) c) ->
  preserves calm c.
Proof.
  intros Hw Hm w0 Hc.
  pose proof (Hw (fun _ => 0%nat) (fun i => count_id i w0) w0) as H1.
  pose proof (Hm (memory w0) w0 eq_refl) as H2.
  destruct (c w0) as [[a|e] w1]; apply (calm_from w0); auto;
    apply H1; intros i; simpl; lia.
Qed.

Lemma delete_data_calm id : preserves calm (delete_data id).
Proof.
  apply calm_by_adding_nothing; [intros g f; apply delete_data_within|].
  intros m. frame.
Qed.

Lemma push_down_calm fuel : preserves calm (_push_down fuel).
Proof.
  apply calm_by_adding_nothing; [intros g f; apply push_down_within|].
  intros m. frame.
Qed.

Lemma store_data_calm hmac fuel id data :
  preserves calm (store_data hmac fuel id data).
Proof.
  intros w0 Hc.
  set (f0 := fun i => count_id i w0).
  set (f1 := fun i => (count_id i w0 + wt (str id) i)%nat).
  set (PA := fun w => within (fun _ => 0%nat) f0 w /\ memory w = memory w0).
  assert (HA : forall w, PA w -> calm w).
  { intros w [H1 H2]. now apply (calm_from w0). }
  assert (Hpa : forall A (c : M A),
             preserves (within (fun _ => 0%nat) f0) c ->
             preserves (fun w => memory w = memory w0) c -> preserves PA c).
  { intros A c H1 H2. now apply preserves_and. }
  enough (H : triple PA (store_data hmac fuel id data) (fun _ => calm) calm).
  { apply H. split; [intros i; unfold f0; simpl; lia | reflexivity]. }
  unfold store_data, get_root.
  apply triple_bind with (Q := fun m w => PA w /\ m = memory w0).
  { apply triple_gets. intros w [H1 H2]. split; [split|]; assumption. }
  intros m. apply triple_pure. intros ->.
  destruct (decide (is_Some (memory w0 !! id))) as [Hin|Hnin].
  { apply triple_ret. exact HA. }
  assert (Hid : memory w0 !! id = None).
  { destruct (memory w0 !! id) eqn:E; [exfalso; apply Hnin; eauto | reflexivity]. }
  apply triple_bind_frame; [frame | exact HA|]. intros tree_root.
  apply triple_bind_frame; [apply Hpa; frame | exact HA|]. intros v.
  apply triple_bind_frame; [destruct v; apply Hpa; frame | exact HA|]. intros u.
  apply triple_bind_frame; [apply Hpa; frame | exact HA|]. intros k. cbv zeta.
  apply triple_bind_frame; [apply Hpa; frame | exact HA|]. intros lmin.
  apply triple_bind_frame; [apply Hpa; frame | exact HA|]. intros lmax.
  apply triple_bind_frame; [apply Hpa; frame | exact HA|]. intros leaf.
  match goal with
  | |- triple _ (bind (modify (fun w => with_memory w (<[id := ?x]> (memory w)))) _) _ _ =>
      set (x0 := x)
  end.
  set (PB := fun g w => within g f1 w /\ memory w = <[id := x0]> (memory w0)).
  assert (HB : forall g w, PB g w -> calm w).
  { intros g w [H1 H2]. apply (calm_after_insert w0 w id x0 Hc Hid H2).
    eapply within_less; [exact H1|]. intros i. lia. }
  apply triple_bind with (Q := fun _ => PB (wt (str id))).
  { apply triple_modify. intros w [H1 H2]. split.
    - intros i. specialize (H1 i). unfold f0, f1 in *. simpl in H1.
      change (count_id i (with_memory w (<[id:=x0]> (memory w)))) with (count_id i w).
      lia.
    - simpl. now rewrite H2. }
  intros u'.
  apply triple_bind_frame; [apply preserves_and; frame | apply HB |]. intros d.
  apply triple_bind with (Q := fun _ => PB (fun _ => 0%nat)).
  { intros w [H1 H2].
    pose proof (insert_at_root_within (fun _ => 0%nat) f1 tree_root id data d w H1) as Ha.
    pose proof (insert_at_root_frame (fun w => memory w = <[id := x0]> (memory w0))
                  tree_root id data d w H2) as Hb.
    destruct (insert_at_root tree_root id data d w) as [[[]|e] w1].
    - split; assumption.
    - apply (HB (fun _ => 0%nat)). split; assumption. }
  intros u''.
  apply triple_bind_frame;
    [apply preserves_and; [apply push_down_within | frame] | apply HB |].
  intros u3. apply triple_ret. apply HB.
Qed.

Lemma forget_run id w :
  forget id w
  = match memory w !! id with
    | None => (Raise KeyError, w)
    | Some _ => (Return tt, with_memory w (delete id (memory w)))
    end.
Proof. unfold forget, bind, gets. destruct (memory w !! id); reflexivity. Qed.

(** A retrieve that finds the entry takes it out and forgets the id
    before it stores the data again. *)
Lemma retrieve_scan_calm hmac fuel cur id entries :
  preserves calm (retrieve_scan hmac fuel cur id entries).
Proof.
  induction entries as [|[k v] r IH]; simpl.
  - apply preserves_ret.
  - destruct (String.eqb (decrypt k) (str id)) eqn:Ek; [|exact IH].
    apply preserves_bind; [frame|]. intros v0. cbv zeta.
    intros w Hc. rewrite bind_run.
    destruct (del_item cur k w) as [[[]|e] w1] eqn:E1.
    2:{ apply del_item_raise in E1. now subst. }
    assert (Hm1 : memory w1 = memory w).
    { pose proof (preserves_state (fun w' => memory w' = memory w) (del_item cur k) w)
        as H. rewrite E1 in H. apply H; [frame | reflexivity]. }
    assert (Hc1 : forall i, (count_id i w1 + entry_weight i k = count_id i w)%nat).
    { intros i. apply (count_del_item i _ _ _ _ E1). }
    assert (Hk : entry_weight id k = 1%nat).
    { unfold entry_weight, is_entry_of. simpl. now rewrite Ek. }
    rewrite bind_run.
    assert (Hm2 : memory (add_dummy cur w1).2 = memory w1).
    { apply (preserves_state (fun w' => memory w' = memory w1)); [frame | reflexivity]. }
    assert (Hc2 : forall i, (count_id i (add_dummy cur w1).2 <= count_id i w1)%nat).
    { intros i. apply (count_add_dummy i cur w1 (add_dummy cur w1).1).
      now destruct (add_dummy cur w1). }
    assert (Hcalm2 : calm (add_dummy cur w1).2).
    { apply (calm_from w); [exact Hc | congruence|]. intros i.
      specialize (Hc1 i). specialize (Hc2 i). simpl. lia. }
    destruct (add_dummy cur w1) as [[[]|e] w2]; [|exact Hcalm2].
    simpl in Hm2, Hc2, Hcalm2. cbv beta iota.
    rewrite bind_run, forget_run.
    destruct (memory w2 !! id) as [x|] eqn:Em; [|exact Hcalm2].
    cbv beta iota.
    set (w3 := with_memory w2 (delete id (memory w2))).
    assert (Hc3 : calm w3).
    { intros i. change (count_id i w3) with (count_id i w2).
      change (memory w3) with (delete id (memory w2)).
      destruct (Hc i) as [H1 H2]. pose proof (Hc1 i) as H3. pose proof (Hc2 i) as H4.
      destruct (decide (i = id)) as [->|Hne].
      - rewrite Hk in H3. split; [lia|]. intros _. lia.
      - rewrite lookup_delete_ne by congruence. rewrite Hm2, Hm1.
        split; [lia|]. intros Hn. specialize (H2 Hn). lia. }
    rest_preserves calm; [|exact Hc3].
    apply preserves_bind; [apply store_data_calm|]. intros res. apply preserves_ret.
Qed.

#[export] Hint Resolve retrieve_scan_calm : frame.

Lemma retrieve_walk_calm hmac fuel id path levels cur :
  preserves calm (retrieve_walk hmac fuel id path levels cur).
Proof. revert cur. induction levels as [|l r IH]; intros cur; simpl; frame. Qed.

#[export] Hint Resolve retrieve_walk_calm : frame.

Lemma retrieve_data_calm hmac fuel id : preserves calm (retrieve_data hmac fuel id).
Proof. unfold retrieve_data, get_root. frame. Qed.

Lemma sum_list_zero l : Forall (fun n => n = 0%nat) l -> sum_list l = 0%nat.
Proof. induction 1 as [|x r Hx _ IH]; simpl; [reflexivity|]. now rewrite Hx, IH. Qed.

Lemma blank_count i w : blank w -> count_id i w = 0%nat.
Proof.
  intros Hb. unfold count_id. apply sum_list_zero, Forall_fmap, Forall_concat.
  apply Forall_lookup. intros a lv Ha. apply Forall_lookup. intros b n Hn.
  assert (Hl : lookup_node (arr_of w) (a, b) = Some n).
  { unfold lookup_node. simpl. now rewrite Ha. }
  simpl. now rewrite (Hb _ _ Hl).
Qed.

Lemma reachable_calm hmac w : reachable hmac w -> calm w.
Proof.
  induction 1 as [blocks s k r Hs|fuel id data w _ IH|fuel id w _ IH|id w _ IH
                 |fuel w _ IH].
  - destruct (new_server_blank blocks s k r Hs) as [_ Hb]. intros i.
    rewrite (blank_count i _ Hb). split; [lia | reflexivity].
  - apply preserves_state; [apply store_data_calm | exact IH].
  - apply preserves_state; [apply retrieve_data_calm | exact IH].
  - apply preserves_state; [apply delete_data_calm | exact IH].
  - apply preserves_state; [apply push_down_calm | exact IH].
Qed.

(** In every state that client and server reach from a new server, the
    tree holds at most one entry for an id, and none for an id that is
    not in the position map. *)
Theorem at_most_one_entry_per_id hmac w id :
  reachable hmac w ->
  (count_id id w <= 1)%nat /\ (memory w !! id = None -> count_id id w = 0%nat).
Proof. intros H. exact (reachable_calm hmac w H id). Qed.

(** Id 1 after its store on [Server(7)]. *)
Lemma at_most_one_entry_per_id_witness : (count_id 1 deep_store.2 <= 1)%nat.
Proof.
  refine (proj1 (at_most_one_entry_per_id plain_tag deep_store.2 1 _)).
  unfold deep_store. apply reach_store. apply (reach_fresh plain_tag 7).
  vm_compute. reflexivity.
Defined.

(** *** Unknown and known ids *)

Lemma store_known_id hmac fuel id data w :
  is_Some (memory w !! id) ->
  store_data hmac fuel id data w = (Return (PyStr ID_EXISTS), w).
Proof.
  intros H. unfold store_data, bind, gets, ret.
  destruct (decide (is_Some (memory w !! id))); [reflexivity | contradiction].
Qed.

(** C4 is not what the code does: for an id that is not in the position
    map, [retrieve_data] and [delete_data] raise [KeyError] at their first
    statement and leave the state as it was. *)
Theorem unknown_id_raises_key_error hmac fuel id w :
  memory w !! id = None ->
  retrieve_data hmac fuel id w = (Raise KeyError, w)
  /\ delete_data id w = (Raise KeyError, w).
Proof.
  intros H. unfold retrieve_data, delete_data, path_of, bind, gets.
  rewrite H. split; reflexivity.
Qed.

Lemma unknown_id_raises_key_error_witness :
  let w := fresh_world (server_of 7) "K" deep_draws in
  retrieve_data plain_tag 3 5 w = (Raise KeyError, w)
  /\ delete_data 5 w = (Raise KeyError, w).
Proof. apply unknown_id_raises_key_error. reflexivity. Defined.


Lemma push_down_keeps_memory fuel w :
  memory (_push_down fuel w).2 = memory w /\ key (_push_down fuel w).2 = key w.
Proof.
  apply (preserves_state (fun w' => memory w' = memory w /\ key w' = key w)).
  - apply push_down_frame; apply _.
  - split; reflexivity.
Qed.

Lemma triple_true {A} (P : world -> Prop) (c : M A) :
  triple P c (fun _ _ => True) (fun _ => True).
Proof. intros w _. destruct (c w) as [[a|e] w']; exact I. Qed.

#[export] Instance known_id_stable id : Stable (fun w => is_Some (memory w !! id)).
Proof. split; auto. Qed.

#[export] Instance known_id_tree_blind id :
  TreeBlind (fun w => is_Some (memory w !! id)).
Proof. intros arr w H. exact H. Qed.




(** Every operation only adds to the trace. *)
Lemma trace_grows {A} (c : M A) w :
  preserves (fun w' => exists l, trace w' = l ++ trace w) c ->
  exists l, trace (c w).2 = l ++ trace w.
Proof. intros H. apply (preserves_state _ c w H). now exists []. Qed.

Lemma touched_since_app w w' l :
  trace w' = l ++ trace w -> touched_since w w' = rev l.
Proof.
  intros H. unfold touched_since. rewrite H, length_app.
  replace (length l + length (trace w) - length (trace w))%nat with (length l) by lia.
  now rewrite take_app_length.
Qed.

(** C9 is not what the code does.  From any state in which [id1] is in
    the position map and [id2] is not, and whatever the random draws of
    the two runs, a store of [id1] touches no node at all while a store of
    [id2] touches at least the root: the server tells the two one-call
    sequences apart by looking at whether anything was touched. *)
Theorem store_shows_whether_id_is_known hmac fuel r1 r2 id1 id2 data w n :
  is_Some (memory w !! id1) ->
  memory w !! id2 = None ->
  lookup_node (arr_of w) (0, 0)%nat = Some n ->
  touched_since w (run_ops hmac fuel [Store id1 data] (reseed w r1)).2 = []
  /\ head (touched_since w (run_ops hmac fuel [Store id2 data] (reseed w r2)).2)
     = Some (0, 0)%nat.
Proof.
  intros H1 H2 Hroot. split.
  - simpl. rewrite store_known_id by exact H1. simpl.
    now rewrite (touched_since_app w (reseed w r1) []).
  - simpl.
    destruct (store_data hmac fuel id2 data (reseed w r2)) as [res w'] eqn:E.
    simpl.
    assert (Hgrow : exists l, trace w' = l ++ (0, 0)%nat :: trace w).
    { replace w' with (store_data hmac fuel id2 data (reseed w r2)).2
        by now rewrite E.
      unfold store_data. rewrite bind_run. unfold gets at 1.
      change (memory (reseed w r2)) with (memory w).
      destruct (decide (is_Some (memory w !! id2))) as [[x Hx]|_]; [congruence|].
      rewrite bind_run. unfold get_root at 1, ret at 1.
      rewrite bind_run, (read_value_run _ n) by exact Hroot.
      apply (preserves_state (fun w' => exists l, trace w' = l ++ (0, 0)%nat :: trace w)).
      - frame.
      - now exists []. }
    destruct Hgrow as [l Hl].
    rewrite (touched_since_app w w' (l ++ [(0, 0)%nat])).
    + rewrite rev_app_distr. reflexivity.
    + rewrite Hl, <- app_assoc. reflexivity.
Qed.

(** After a first store on [Server(1)]: a second store of id 1, and a store
    of id 2. *)
Lemma store_shows_whether_id_is_known_witness :
  let w := (store_data plain_tag 3 1 "aaaa"
              (fresh_world (server_of 1) "K" (draws_from 0 []))).2 in
  touched_since w (run_ops plain_tag 3 [Store 1 "aaaa"] (reseed w (fun _ => 0))).2 = []
  /\ head (touched_since w (run_ops plain_tag 3 [Store 2 "aaaa"] (reseed w (fun _ => 1))).2)
     = Some (0, 0)%nat.
Proof.
  eapply store_shows_whether_id_is_known.
  - vm_compute. eauto.
  - reflexivity.
  - vm_compute. reflexivity.
Defined.

(** *** The shape of the tree *)

Definition parent_at (i j : nat) : option (nat * nat) :=
  match i with
  | O => None
  | S i' => Some (i', j / 2)%nat
  end.

(** The node at place [j] of level [i] in a new tree of height [h]. *)
Definition node_at (h i j : nat) : Node :=
  {| parent := parent_at i j;
     left := if (i <? h)%nat then Some (S i, 2 * j)%nat else None;
     right := if (i <? h)%nat then Some (S i, 2 * j + 1)%nat else None;
     value := None |}.

Lemma lookup_concat_pairs {A B} (f : nat -> B) (l : list A) j :
  concat (imap (fun i _ => [f i; f i]) l) !! j
  = if decide (j < 2 * length l)%nat then Some (f (j / 2)%nat) else None.
Proof.
  revert f j. induction l as [|x r IH]; intros f j.
  - rewrite decide_False by (simpl; lia). reflexivity.
  - rewrite imap_cons.
    destruct j as [|[|j]].
    + rewrite decide_True by (simpl; lia). reflexivity.
    + rewrite decide_True by (simpl; lia). reflexivity.
    + etransitivity; [exact (IH (f ∘ S) j)|].
      replace (S (S j)) with (j + 1 * 2)%nat by lia.
      rewrite Nat.div_add by lia.
      destruct (decide (j < 2 * length r)%nat).
      * rewrite decide_True by (simpl; lia). unfold compose. do 2 f_equal. lia.
      * rewrite decide_False by (simpl; lia). reflexivity.
Qed.

Lemma next_level_unlinked level m (cur : list Node) :
  length cur = m ->
  next_level level cur = (fun j => new_node (parent_at (S level) j)) <$> seq 0 (2 * m).
Proof.
  intros Hm. apply list_eq. intros j. unfold next_level.
  rewrite (lookup_concat_pairs (fun j => new_node (Some (level, j)))), Hm.
  rewrite list_lookup_fmap.
  destruct (decide (j < 2 * m)%nat) as [Hj|Hj].
  - rewrite lookup_seq_lt by exact Hj. reflexivity.
  - rewrite lookup_seq_ge by lia. reflexivity.
Qed.

Lemma build_levels_lookup n : forall level m cur i j,
  cur = (fun j => new_node (parent_at level j)) <$> seq 0 m ->
  lookup_node (build_levels level n cur) (i, j)
  = if decide (i <= n /\ j < m * 2 ^ i)%nat
    then Some (node_at (level + n) (level + i) j) else None.
Proof.
  induction n as [|n IH]; intros level m cur i j Hcur; unfold lookup_node; cbn [fst snd].
  - destruct i as [|i]; cbn [build_levels].
    + change ([cur] !! 0%nat) with (Some cur). subst cur.
      rewrite list_lookup_fmap.
      destruct (decide (j < m)%nat) as [Hj|Hj].
      * rewrite lookup_seq_lt by exact Hj. rewrite decide_True by (simpl; lia).
        simpl. unfold node_at. rewrite !Nat.add_0_r, Nat.ltb_irrefl. reflexivity.
      * rewrite lookup_seq_ge by lia. rewrite decide_False by (simpl; lia).
        reflexivity.
    + change ([cur] !! S i) with (@None (list Node)).
      rewrite decide_False by lia. reflexivity.
  - cbn [build_levels]. destruct i as [|i].
    + change ((link_level level cur :: build_levels (S level) n (next_level level cur))
                !! 0%nat) with (Some (link_level level cur)).
      unfold link_level. rewrite list_lookup_imap. subst cur.
      rewrite list_lookup_fmap.
      destruct (decide (j < m)%nat) as [Hj|Hj].
      * rewrite lookup_seq_lt by exact Hj. rewrite decide_True by (simpl; lia).
        simpl. unfold node_at, set_children. rewrite !Nat.add_0_r.
        rewrite (proj2 (Nat.ltb_lt level (level + S n))) by lia.
        unfold new_node. simpl. repeat f_equal; lia.
      * rewrite lookup_seq_ge by lia. rewrite decide_False by (simpl; lia).
        reflexivity.
    + change ((link_level level cur :: build_levels (S level) n (next_level level cur))
                !! S i) with (build_levels (S level) n (next_level level cur) !! i).
      pose proof (IH (S level) (2 * m)%nat (next_level level cur) i j) as H.
      unfold lookup_node in H. cbn [fst snd] in H. rewrite H.
      2:{ apply next_level_unlinked. subst cur. now rewrite length_fmap, length_seq. }
      replace (S level + n)%nat with (level + S n)%nat by lia.
      replace (S level + i)%nat with (level + S i)%nat by lia.
      change (2 ^ S i)%nat with (2 * 2 ^ i)%nat.
      destruct (decide (i <= n /\ j < 2 * m * 2 ^ i)%nat) as [Hd|Hd].
      * rewrite decide_True by nia. reflexivity.
      * rewrite decide_False by nia. reflexivity.
Qed.

Lemma build_tree_arr_lookup h i j :
  lookup_node (build_tree_arr h) (i, j)
  = if decide (i <= h /\ j < 2 ^ i)%nat then Some (node_at h i j) else None.
Proof.
  unfold build_tree_arr.
  rewrite (build_levels_lookup h 0 1 [new_node None] i j eq_refl).
  destruct (decide (i <= h /\ j < 1 * 2 ^ i)%nat) as [Hd|Hd].
  - rewrite decide_True by lia. reflexivity.
  - rewrite decide_False by lia. reflexivity.
Qed.

(** [PerfectTree.build_tree_arr] builds a heap-shaped tree: level [i] has
    the [2^i] nodes [(i, 0)] .. [(i, 2^i - 1)] and there are levels [0] ..
    [h]; the children of [(i, j)] are [(i+1, 2j)] and [(i+1, 2j+1)] and
    its parent is [(i-1, j/2)]; the leaves have no children, the root
    has no parent, and no node has a value yet. *)
Theorem built_tree_is_a_heap h i j :
  lookup_node (build_tree_arr h) (i, j)
  = if decide (i <= h /\ j < 2 ^ i)%nat then Some (node_at h i j) else None.
Proof. apply build_tree_arr_lookup. Qed.

(** *** Building a server *)

(** What [Server(blocks)] is made of, when it is made. *)
Lemma new_server_fields blocks :
  if decide (0 < blocks) then
    exists sz h,
      fix_size (blocks + 1) = Return sz /\ 0 < sz
      /\ Z.of_nat h = Z.log2 sz
      /\ Z.log2 sz = Z.log2_up (blocks + 1) - 1
      /\ new_server blocks
         = Return {| data_blocks := blocks; bucket_size := BUCKET_SIZE;
                     _tree := {| size := sz; tree_height := h;
                                 tree_arr := build_tree_arr h |};
                     height := h;
                     leaves_num := length (leaves {| size := sz; tree_height := h;
                                                     tree_arr := build_tree_arr h |});
                     leaf_min := 2 ^ (Z.of_nat h + 1);
                     leaf_max := 2 ^ (Z.of_nat h + 1) * 2 - 1 |}
  else new_server blocks = Raise ValueError.
Proof.
  unfold new_server, new_tree, fix_size, log2_ceil, log2_floor.
  destruct (decide (0 < blocks)) as [Hpos|Hneg].
  - rewrite (proj2 (Z.leb_gt (blocks + 1) 0)) by lia.
    set (x := blocks + 1).
    assert (Hx : 1 < x) by (unfold x; lia).
    pose proof (Z.le_log2_log2_up x) as H1.
    pose proof (Z.le_log2_up_succ_log2 x) as H2.
    pose proof (Z.log2_up_eqn x Hx) as H3.
    pose proof (Z.log2_nonneg (Z.pred x)) as H4.
    pose proof (Z.log2_nonneg x) as H5.
    destruct (Z.log2_up x =? Z.log2 x) eqn:E; simpl.
    + rewrite (proj2 (Z.leb_gt (x - 1) 0)) by lia.
      exists (x - 1), (Z.to_nat (Z.log2 (x - 1))).
      replace (x - 1) with (Z.pred x) in * by lia.
      split; [reflexivity|]. split; [lia|]. split; [lia|]. split; [lia|].
      reflexivity.
    + apply Z.eqb_neq in E.
      replace (x + 1 - 1) with x by lia.
      rewrite (proj2 (Z.leb_gt x 0)) by lia.
      exists x, (Z.to_nat (Z.log2 x)).
      split; [reflexivity|]. split; [lia|]. split; [lia|]. split; [lia|].
      reflexivity.
  - destruct (blocks + 1 <=? 0) eqn:E; [reflexivity|].
    apply Z.leb_gt in E. assert (blocks = 0) as -> by lia. reflexivity.
Qed.

(** [Server(blocks)] raises [ValueError] (from [math.log]) for
    [blocks <= 0].  For [blocks >= 1] it is built, with buckets of 4,
    [2^height] leaves, and the leaf labels [2^(height+1)] ..
    [2^(height+2) - 1] for the position map to draw from. *)
Theorem server_needs_a_positive_size blocks :
  (blocks <= 0 -> new_server blocks = Raise ValueError)
  /\ (0 < blocks ->
      exists s, new_server blocks = Return s
                /\ data_blocks s = blocks /\ bucket_size s = BUCKET_SIZE
                /\ tree_height (_tree s) = height s
                /\ leaves_num s = (2 ^ height s)%nat
                /\ leaf_min s = 2 ^ (Z.of_nat (height s) + 1)
                /\ leaf_max s = 2 ^ (Z.of_nat (height s) + 2) - 1).
Proof.
  pose proof (new_server_fields blocks) as H.
  destruct (decide (0 < blocks)) as [Hpos|Hneg]; split; try lia; intros _.
  - destruct H as (sz & h & _ & _ & _ & _ & ->). eexists. split; [reflexivity|].
    cbn [data_blocks bucket_size _tree tree_height height leaves_num leaf_min leaf_max].
    split; [reflexivity|]. split; [reflexivity|]. split; [reflexivity|]. split.
    + unfold leaves, build_tree_arr. cbn [tree_arr].
      destruct (build_levels_last 0 h [new_node None]) as (lf & -> & Hlen).
      simpl in *. lia.
    + split; [reflexivity|].
      replace (Z.of_nat h + 2) with (Z.succ (Z.of_nat h + 1)) by lia.
      rewrite Z.pow_succ_r by lia. lia.
  - exact H.
Qed.

(** For [1 <= blocks < 2^29 - 1] (sizes for which [math.log(x, 2)] in
    floating point has the floor and the ceiling of the exact logarithm)
    the tree of [Server(blocks)] is the smallest perfect tree with at
    least [blocks] nodes: its height is [ceil(log2(blocks + 1)) - 1]. *)
Theorem server_has_room_for_its_blocks blocks s :
  0 < blocks < 2 ^ 29 - 1 ->
  new_server blocks = Return s ->
  Z.of_nat (height s) = Z.log2_up (blocks + 1) - 1
  /\ Z.of_nat (node_count (_tree s)) = 2 ^ Z.log2_up (blocks + 1) - 1
  /\ blocks <= Z.of_nat (node_count (_tree s)) < 2 * blocks + 1.
Proof.
  intros Hb Hs. pose proof (new_server_fields blocks) as H.
  rewrite decide_True in H by lia.
  destruct H as (sz & h & _ & _ & Hh & Hlog & Hnew).
  rewrite Hnew in Hs. injection Hs as <-.
  cbn [height _tree]. unfold node_count. cbn [tree_arr]. unfold build_tree_arr.
  pose proof (build_levels_count 0 h [new_node None]) as Hc.
  change (length [new_node None]) with 1%nat in Hc.
  assert (Hn : Z.of_nat (length (concat (build_levels 0 h [new_node None])))
               = 2 ^ (Z.of_nat h + 1) - 1).
  { apply (f_equal Z.of_nat) in Hc.
    rewrite Nat2Z.inj_add, Nat2Z.inj_mul, Nat2Z.inj_pow in Hc.
    change (Z.of_nat 1) with 1 in Hc. change (Z.of_nat 2) with 2 in Hc.
    rewrite Nat2Z.inj_succ in Hc.
    replace (Z.of_nat h + 1) with (Z.succ (Z.of_nat h)) by lia. lia. }
  pose proof (Z.log2_up_spec (blocks + 1) ltac:(lia)) as Hspec.
  assert (Hup : Z.of_nat h + 1 = Z.log2_up (blocks + 1)) by lia.
  rewrite Hn, Hup.
  assert (HP : 2 ^ Z.log2_up (blocks + 1) = 2 * 2 ^ Z.pred (Z.log2_up (blocks + 1))).
  { rewrite <- Z.pow_succ_r by lia. f_equal. lia. }
  split; [lia|]. split; [reflexivity|]. lia.
Qed.

(** [Server(7)] has 7 nodes, [Server(4)] as well. *)
Lemma server_has_room_for_its_blocks_witness :
  Z.of_nat (height (server_of 4)) = Z.log2_up (4 + 1) - 1
  /\ Z.of_nat (node_count (_tree (server_of 4))) = 2 ^ Z.log2_up (4 + 1) - 1
  /\ 4 <= Z.of_nat (node_count (_tree (server_of 4))) < 2 * 4 + 1.
Proof.
  apply (server_has_room_for_its_blocks 4 (server_of 4)); [lia|].
  vm_compute. reflexivity.
Defined.

(** *** The shape is kept *)

Definition links (n : Node)
    : option (nat * nat) * option (nat * nat) * option (nat * nat) :=
  (parent n, left n, right n).

(** The tree has the nodes and links it was built with, and the server
    its constants. *)
Definition built (w : world) : Prop :=
  length (arr_of w) = S (height (server w))
  /\ (forall i j,
        links <$> lookup_node (arr_of w) (i, j)
        = if decide (i <= height (server w) /\ j < 2 ^ i)%nat
          then Some (links (node_at (height (server w)) i j)) else None)
  /\ bucket_size (server w) = BUCKET_SIZE
  /\ leaf_min (server w) = 2 ^ (Z.of_nat (height (server w)) + 1)
  /\ leaf_max (server w) = 2 ^ (Z.of_nat (height (server w)) + 2) - 1.

#[export] Instance built_stable : Stable built.
Proof. split; auto. Qed.

#[export] Instance built_memory_blind : MemoryBlind built.
Proof. intros m w H. exact H. Qed.

#[export] Instance built_assign_safe : AssignSafe built.
Proof.
  intros r v w (H1 & H2 & H3 & H4 & H5).
  split; [|split; [|split; [|split]]]; try assumption.
  - change (length (update_node (arr_of w) r (fun n => set_value n v))
            = S (height (server w))).
    now rewrite length_update_node.
  - intros i j.
    change (links <$> lookup_node (update_node (arr_of w) r (fun n => set_value n v))
                        (i, j)
            = if decide (i <= height (server w) /\ j < 2 ^ i)%nat
              then Some (links (node_at (height (server w)) i j)) else None).
    rewrite <- H2. destruct (decide (r = (i, j))) as [->|Hne].
    + rewrite lookup_update_same. now destruct (lookup_node (arr_of w) (i, j)).
    + now rewrite lookup_update_other by exact Hne.
Qed.

Lemma new_server_built blocks s k r :
  new_server blocks = Return s -> built (fresh_world s k r).
Proof.
  intros Hs. pose proof (new_server_fields blocks) as H.
  destruct (decide (0 < blocks)); [|congruence].
  destruct H as (sz & h & _ & _ & _ & _ & Hnew).
  rewrite Hnew in Hs. injection Hs as <-.
  split; [|split; [|split; [|split]]].
  - apply build_levels_length.
  - intros i j.
    change (links <$> lookup_node (build_tree_arr h) (i, j)
            = if decide (i <= h /\ j < 2 ^ i)%nat
              then Some (links (node_at h i j)) else None).
    rewrite build_tree_arr_lookup.
    now destruct (decide (i <= h /\ j < 2 ^ i)%nat).
  - reflexivity.
  - reflexivity.
  - cbn [leaf_max server fresh_world height].
    replace (Z.of_nat h + 2) with (Z.succ (Z.of_nat h + 1)) by lia.
    rewrite Z.pow_succ_r by lia. lia.
Qed.

Lemma reachable_built hmac w : reachable hmac w -> built w.
Proof.
  induction 1 as [blocks s k r Hs|fuel id data w _ IH|fuel id w _ IH|id w _ IH
                 |fuel w _ IH].
  - now apply (new_server_built blocks).
  - apply preserves_state; [apply store_data_frame; apply _ | exact IH].
  - apply preserves_state; [apply retrieve_data_frame; apply _ | exact IH].
  - apply preserves_state; [apply delete_data_frame; apply _ | exact IH].
  - apply preserves_state; [apply push_down_frame; apply _ | exact IH].
Qed.

Lemma built_lookup w i j :
  built w ->
  is_Some (lookup_node (arr_of w) (i, j))
  <-> (i <= height (server w) /\ j < 2 ^ i)%nat.
Proof.
  intros (_ & H & _). specialize (H i j).
  destruct (decide (i <= height (server w) /\ j < 2 ^ i)%nat) as [Hd|Hd];
    destruct (lookup_node (arr_of w) (i, j)); try discriminate; split;
    intros Hx; eauto; try contradiction; now destruct Hx.
Qed.

Lemma built_level w i :
  built w ->
  if decide (i <= height (server w))%nat
  then exists lv, arr_of w !! i = Some lv /\ length lv = (2 ^ i)%nat
  else arr_of w !! i = None.
Proof.
  intros Hb. pose proof Hb as (Hlen & _).
  destruct (decide (i <= height (server w))%nat) as [Hi|Hi].
  - destruct (lookup_lt_is_Some_2 (arr_of w) i) as [lv Hlv]; [lia|].
    exists lv. split; [exact Hlv|].
    assert (Hj : forall j, is_Some (lv !! j) <-> (j < 2 ^ i)%nat).
    { intros j. pose proof (built_lookup w i j Hb) as H.
      unfold lookup_node in H. cbn [fst snd] in H. rewrite Hlv in H. tauto. }
    destruct (Nat.lt_trichotomy (length lv) (2 ^ i)) as [Hlt|[Heq|Hgt]];
      [|exact Heq|].
    + apply Hj in Hlt. apply lookup_lt_is_Some in Hlt. lia.
    + apply lookup_lt_is_Some, Hj in Hgt. lia.
  - apply lookup_ge_None. lia.
Qed.

(** How Python reads an index into a list of [n] elements: [0 .. n - 1]
    from the front, [-n .. -1] from the end, anything else is out of
    range. *)
Definition wrap (n : nat) (i : Z) : option nat :=
  if decide (0 <= i < Z.of_nat n)%Z then Some (Z.to_nat i)
  else if decide (- Z.of_nat n <= i < 0)%Z then Some (Z.to_nat (i + Z.of_nat n))
  else None.

Lemma wrap_lt n i a : wrap n i = Some a -> (a < n)%nat.
Proof.
  unfold wrap. destruct (decide (0 <= i < Z.of_nat n)%Z); [intros [= <-]; lia|].
  destruct (decide (- Z.of_nat n <= i < 0)%Z); [intros [= <-]; lia | discriminate].
Qed.

Lemma py_index_wrap {A} (l : list A) i :
  py_index l i
  = match wrap (length l) i with
    | Some a => (fun x => (a, x)) <$> l !! a
    | None => None
    end.
Proof.
  unfold py_index, wrap.
  destruct (decide (0 <= i < Z.of_nat (length l))%Z) as [H1|H1].
  - assert (E : (i <? 0)%Z = false) by (apply Z.ltb_ge; lia). rewrite E, E.
    now destruct (l !! Z.to_nat i).
  - destruct (decide (- Z.of_nat (length l) <= i < 0)%Z) as [H2|H2].
    + assert (E : (i <? 0)%Z = true) by (apply Z.ltb_lt; lia). rewrite E.
      assert (E' : (i + Z.of_nat (length l) <? 0)%Z = false) by (apply Z.ltb_ge; lia).
      rewrite E'. now destruct (l !! Z.to_nat (i + Z.of_nat (length l))).
    + destruct (i <? 0)%Z eqn:E.
      * apply Z.ltb_lt in E.
        assert (E' : (i + Z.of_nat (length l) <? 0)%Z = true) by (apply Z.ltb_lt; lia).
        now rewrite E'.
      * apply Z.ltb_ge in E. rewrite (proj2 (Z.ltb_ge i 0)) by lia.
        rewrite (proj2 (lookup_ge_None l (Z.to_nat i))) by lia. reflexivity.
Qed.

(** In every state that client and server reach, the server's accessors
    see the tree as it was built, with Python's reading of the indices:
    there are [height + 1] levels, so [num_nodes_in_level(i)] is defined
    for [-(height + 1) <= i <= height] and an [IndexError] outside, and
    level [a] has [2^a] nodes; [get_node_in_level(i, j)] is the node at
    place [b] of level [a], where [a] is [i] or [i + height + 1] and [b] is
    [j] or [j + 2^a], and an [IndexError] when [i] or [j] is out of range;
    [get_leaf(j)] is a node of the last level. *)
Theorem accessors_see_the_built_tree hmac w (i j : Z) :
  reachable hmac w ->
  num_nodes_in_level i w
  = (match wrap (S (height (server w))) i with
     | Some a => Return (2 ^ a)%nat
     | None => Raise IndexError
     end, w)
  /\ get_node_in_level i j w
     = (match wrap (S (height (server w))) i with
        | Some a =>
            match wrap (2 ^ a) j with
            | Some b => Return (a, b)
            | None => Raise IndexError
            end
        | None => Raise IndexError
        end, w)
  /\ get_leaf j w
     = (match wrap (2 ^ height (server w)) j with
        | Some b => Return (height (server w), b)
        | None => Raise IndexError
        end, w).
Proof.
  intros Hr. pose proof (reachable_built hmac w Hr) as Hb.
  pose proof Hb as (Hlen & _).
  assert (Hlevel : forall a, (a < S (height (server w)))%nat ->
            exists lv, arr_of w !! a = Some lv /\ length lv = (2 ^ a)%nat).
  { intros a Ha. pose proof (built_level w a Hb) as H.
    rewrite decide_True in H by lia. exact H. }
  split; [|split].
  - unfold num_nodes_in_level, bind, gets. rewrite py_index_wrap, Hlen.
    destruct (wrap (S (height (server w))) i) as [a|] eqn:Ew; [|reflexivity].
    destruct (Hlevel a (wrap_lt _ _ _ Ew)) as (lv & -> & Hl). simpl.
    now rewrite Hl.
  - unfold get_node_in_level, bind, gets. rewrite py_index_wrap, Hlen.
    destruct (wrap (S (height (server w))) i) as [a|] eqn:Ew; [|reflexivity].
    destruct (Hlevel a (wrap_lt _ _ _ Ew)) as (lv & -> & Hl). simpl.
    rewrite py_index_wrap, Hl.
    destruct (wrap (2 ^ a) j) as [b|] eqn:Ej; [|reflexivity].
    destruct (lookup_lt_is_Some_2 lv b) as [n ->];
      [rewrite Hl; exact (wrap_lt _ _ _ Ej) | reflexivity].
  - unfold get_leaf, bind, gets. rewrite last_lookup, Hlen. cbn [Init.Nat.pred].
    destruct (Hlevel (height (server w)) ltac:(lia)) as (lv & -> & Hl).
    replace (S (height (server w)) - 1)%nat with (height (server w)) by lia.
    rewrite py_index_wrap, Hl.
    destruct (wrap (2 ^ height (server w)) j) as [b|] eqn:Ej; [|reflexivity].
    destruct (lookup_lt_is_Some_2 lv b) as [n ->];
      [rewrite Hl; exact (wrap_lt _ _ _ Ej) | reflexivity].
Qed.

(** The tree of [Server(7)] after a store, of height 2: the last level
    has 4 nodes, [get_node_in_level(-1, -1)] is its last node and
    [get_leaf(4)] is out of range. *)
Lemma accessors_see_the_built_tree_witness :
  let w := deep_store.2 in
  num_nodes_in_level (-1) w = (Return 4%nat, w)
  /\ get_node_in_level (-1) (-1) w = (Return (2, 3)%nat, w)
  /\ get_leaf 4 w = (Raise IndexError, w).
Proof.
  assert (Hh : height (server deep_store.2) = 2%nat) by (vm_compute; reflexivity).
  pose proof (accessors_see_the_built_tree plain_tag deep_store.2 (-1) (-1)) as H1.
  pose proof (accessors_see_the_built_tree plain_tag deep_store.2 (-1) 4) as H2.
  rewrite Hh in H1, H2.
  assert (Hr : reachable plain_tag deep_store.2).
  { unfold deep_store. apply reach_store. apply (reach_fresh plain_tag 7).
    vm_compute. reflexivity. }
  destruct (H1 Hr) as (Ha & Hb & _). destruct (H2 Hr) as (_ & _ & Hc).
  split; [exact Ha | split; [exact Hb | exact Hc]].
Defined.

(** *** What a store records *)

Lemma string_length_app s1 s2 :
  String.length (s1 ++ s2)%string = (String.length s1 + String.length s2)%nat.
Proof. induction s1 as [|c r IH]; simpl; [reflexivity | now rewrite IH]. Qed.

(** [bin(p)[2:]] has as many digits as [p] has bits, the first a ['1']. *)
Lemma bin_digits_bounds p :
  2 ^ Z.of_nat (String.length (bin_digits p)) <= 2 * Z.pos p
  < 2 * 2 ^ Z.of_nat (String.length (bin_digits p)).
Proof.
  induction p as [q IH|q IH|]; cbn [bin_digits].
  - rewrite string_length_app. change (String.length "1") with 1%nat.
    rewrite Nat2Z.inj_add, Z.pow_add_r by lia.
    change (2 ^ Z.of_nat 1) with 2. lia.
  - rewrite string_length_app. change (String.length "0") with 1%nat.
    rewrite Nat2Z.inj_add, Z.pow_add_r by lia.
    change (2 ^ Z.of_nat 1) with 2. lia.
  - simpl. lia.
Qed.

Lemma bin_digits_first p : String.get 0 (bin_digits p) = Some "1"%char.
Proof.
  induction p as [q IH|q IH|]; cbn [bin_digits]; [| |reflexivity];
    destruct (bin_digits q); try discriminate; exact IH.
Qed.

Lemma bin_tail_of_leaf (h : nat) leaf :
  2 ^ (Z.of_nat h + 1) <= leaf <= 2 ^ (Z.of_nat h + 2) - 1 ->
  String.length (bin_tail leaf) = (h + 2)%nat
  /\ String.get 0 (bin_tail leaf) = Some "1"%char.
Proof.
  intros Hl.
  assert (0 < 2 ^ (Z.of_nat h + 1)) by (apply Z.pow_pos_nonneg; lia).
  destruct leaf as [|p|p]; try lia. cbn [bin_tail].
  split; [|apply bin_digits_first].
  pose proof (bin_digits_bounds p) as Hb.
  set (L := String.length (bin_digits p)) in *.
  assert (H1 : Z.log2 (2 * Z.pos p) = Z.of_nat L).
  { apply Z.log2_unique; [lia|]. rewrite Z.pow_succ_r by lia. lia. }
  assert (H2 : Z.log2 (2 * Z.pos p) = Z.of_nat h + 2).
  { apply Z.log2_unique; [lia|].
    replace (Z.of_nat h + 2) with (Z.succ (Z.of_nat h + 1)) in * by lia.
    rewrite !Z.pow_succ_r in * by lia. lia. }
  lia.
Qed.

Lemma randint_range (P : world -> Prop) `{!Stable P} a b (E : world -> Prop) :
  (forall w, P w -> E w) ->
  triple P (randint a b) (fun z w => P w /\ a <= z <= b) E.
Proof.
  intros HE w Hw. unfold randint. destruct (b <? a) eqn:Eb; [now apply HE|].
  apply Z.ltb_ge in Eb.
  pose proof (Z.mod_pos_bound (rng w (draws w)) (b - a + 1) ltac:(lia)).
  split; [now apply stable_draw | lia].
Qed.

(** The server's constants. *)
Definition consts (h : nat) (w : world) : Prop :=
  height (server w) = h
  /\ leaf_min (server w) = 2 ^ (Z.of_nat h + 1)
  /\ leaf_max (server w) = 2 ^ (Z.of_nat h + 2) - 1.

#[export] Instance consts_stable h : Stable (consts h).
Proof. split; auto. Qed.

#[export] Instance consts_tree_blind h : TreeBlind (consts h).
Proof. intros arr w H. exact H. Qed.

(** The position map is [m] with a record for [id] that has the tag [tag]
    and the label of a leaf. *)
Definition recorded (id : Z) (tag : string) (h : nat)
    (m : gmap Z (string * string)) (k : string) (w : world) : Prop :=
  (exists bits, memory w = <[id := (bits, tag)]> m
                /\ String.length bits = (h + 2)%nat
                /\ String.get 0 bits = Some "1"%char)
  /\ key w = k.

#[export] Instance recorded_stable id tag h m k : Stable (recorded id tag h m k).
Proof. split; auto. Qed.

#[export] Instance recorded_tree_blind id tag h m k : TreeBlind (recorded id tag h m k).
Proof. intros arr w H. exact H. Qed.

Lemma store_data_writes_record hmac fuel id data w0 :
  built w0 -> memory w0 !! id = None ->
  triple (fun w => (memory w = memory w0 /\ key w = key w0)
                   /\ consts (height (server w0)) w)
    (store_data hmac fuel id data)
    (fun res w => res = PyNone
                  /\ recorded id (hmac (key w0) (str id ++ data)%string)
                       (height (server w0)) (memory w0) (key w0) w)
    (fun _ => True).
Proof.
  intros Hb Hnone.
  set (P0 := fun w => (memory w = memory w0 /\ key w = key w0)
                      /\ consts (height (server w0)) w).
  assert (HP : forall A (c : M A),
             preserves (fun w => memory w = memory w0 /\ key w = key w0) c ->
             preserves (consts (height (server w0))) c -> preserves P0 c).
  { intros A c H1 H2. now apply preserves_and. }
  unfold store_data, get_root.
  apply triple_bind with (Q := fun m w => P0 w /\ m = memory w0).
  { apply triple_gets. intros w Hw. split; [exact Hw | apply Hw]. }
  intros m. apply triple_pure. intros ->.
  destruct (decide (is_Some (memory w0 !! id))) as [Hin|_].
  { rewrite Hnone in Hin. now destruct Hin. }
  apply triple_bind_frame; [frame | auto |]. intros tree_root.
  apply triple_bind_frame; [apply HP; frame | auto |]. intros v.
  apply triple_bind_frame; [destruct v; apply HP; frame | auto |]. intros u.
  apply triple_bind with (Q := fun k w => P0 w /\ k = key w0).
  { apply triple_gets. intros w Hw. split; [exact Hw | apply Hw]. }
  intros k. apply triple_pure. intros ->. cbv zeta.
  apply triple_bind with
    (Q := fun x w => P0 w /\ x = 2 ^ (Z.of_nat (height (server w0)) + 1)).
  { apply triple_gets. intros w Hw. split; [exact Hw | apply Hw]. }
  intros lmin. apply triple_pure. intros ->.
  apply triple_bind with
    (Q := fun x w => P0 w /\ x = 2 ^ (Z.of_nat (height (server w0)) + 2) - 1).
  { apply triple_gets. intros w Hw. split; [exact Hw | apply Hw]. }
  intros lmax. apply triple_pure. intros ->.
  assert (HS : Stable P0).
  { split.
    - intros w [H1 H2]. split; [exact H1 | exact H2].
    - intros w [H1 H2]. split; [exact H1 | exact H2].
    - intros r w [H1 H2]. split; [exact H1 | exact H2]. }
  eapply triple_bind; [apply (@randint_range P0 HS); auto|].
  intros leaf. apply triple_pure. intros Hleaf.
  destruct (bin_tail_of_leaf (height (server w0)) leaf Hleaf) as [Hlen Hfirst].
  apply triple_bind with
    (Q := fun _ => recorded id (hmac (key w0) (str id ++ data)%string)
                     (height (server w0)) (memory w0) (key w0)).
  { apply triple_modify. intros w [[H1 H2] _]. split; [|exact H2].
    exists (bin_tail leaf). simpl. rewrite H1. auto. }
  intros u'.
  apply triple_bind_frame; [frame | auto |]. intros d.
  apply triple_bind_frame; [frame | auto |]. intros u2.
  apply triple_bind_frame; [frame | auto |]. intros u3.
  apply triple_ret. auto.
Qed.

(** A store of an id that the position map does not have, in a state that
    client and server have reached: when it returns, it returns [None],
    the key is the same, and the position map has one more record, for the
    id: the tag of id and data under the key, and the label of a leaf, in
    binary: a ['1'] and [height + 1] more digits, one for each level that
    a walk visits. *)
Theorem store_data_records_a_leaf hmac fuel id data w res w' :
  reachable hmac w -> memory w !! id = None ->
  store_data hmac fuel id data w = (Return res, w') ->
  res = PyNone /\ key w' = key w
  /\ exists bits,
       memory w' = <[id := (bits, hmac (key w) (str id ++ data)%string)]> (memory w)
       /\ String.length (tail bits) = S (height (server w))
       /\ String.get 0 bits = Some "1"%char.
Proof.
  intros Hr Hnone Hrun. pose proof (reachable_built hmac w Hr) as Hb.
  pose proof (store_data_writes_record hmac fuel id data w Hb Hnone w) as H.
  rewrite Hrun in H. destruct H as (-> & (bits & Hm & Hlen & Hget) & Hk).
  { split; [split; reflexivity|]. destruct Hb as (_ & _ & _ & H4 & H5).
    split; [reflexivity | split; assumption]. }
  split; [reflexivity|]. split; [exact Hk|]. exists bits.
  split; [exact Hm|]. split; [|exact Hget].
  destruct bits as [|c r]; simpl in *; lia.
Qed.

(** The store of id 1 on [Server(7)]: the record has ['1000'], four
    digits for height 2. *)
Lemma store_data_records_a_leaf_witness :
  PyNone = PyNone /\ key deep_store.2 = key (fresh_world (server_of 7) "K" deep_draws)
  /\ exists bits,
       memory deep_store.2
       = <[1 := (bits, plain_tag (key (fresh_world (server_of 7) "K" deep_draws))
                         (str 1 ++ "aaaa")%string)]>
           (memory (fresh_world (server_of 7) "K" deep_draws))
       /\ String.length (tail bits)
          = S (height (server (fresh_world (server_of 7) "K" deep_draws)))
       /\ String.get 0 bits = Some "1"%char.
Proof.
  apply (store_data_records_a_leaf plain_tag 3 1 "aaaa"
           (fresh_world (server_of 7) "K" deep_draws) PyNone deep_store.2).
  - apply (reach_fresh plain_tag 7). vm_compute. reflexivity.
  - reflexivity.
  - change (deep_store = (Return PyNone, deep_store.2)).
    rewrite (surjective_pairing deep_store) at 1.
    apply pair_equal_spec. split; [vm_compute; reflexivity | reflexivity].
Defined.

(** *** The tag that a retrieve checks *)

(** The position map has for [id] the tag of [data]. *)
Definition tagged (hmac : string -> string -> string) (id : Z) (data : string)
    (w : world) : Prop :=
  exists bits, memory w !! id = Some (bits, hmac (key w) (str id ++ data)%string).

#[export] Instance tagged_stable hmac id data : Stable (tagged hmac id data).
Proof. split; auto. Qed.

#[export] Instance tagged_tree_blind hmac id data : TreeBlind (tagged hmac id data).
Proof. intros arr w H. exact H. Qed.

#[export] Instance key_is_stable k : Stable (fun w => key w = k).
Proof. split; auto. Qed.

Lemma store_data_tags hmac fuel id data :
  triple (fun w => memory w !! id = None) (store_data hmac fuel id data)
    (fun _ => tagged hmac id data) (fun _ => True).
Proof.
  unfold store_data.
  apply triple_bind with (Q := fun m w => m = memory w /\ memory w !! id = None).
  { apply triple_gets. auto. }
  intros m. destruct (decide (is_Some (m !! id))) as [Hin|_].
  { apply triple_ret. intros w [-> Hn]. rewrite Hn in Hin. now destruct Hin. }
  apply triple_weaken with (P' := fun _ => True) (Q' := fun _ => tagged hmac id data)
                           (E' := fun _ => True); try tauto.
  do 3 (eapply triple_bind; [apply triple_true|]; intros ?).
  apply triple_bind with (Q := fun k w => key w = k).
  { apply triple_gets. reflexivity. }
  intros k. cbv zeta.
  do 3 (apply triple_bind_frame; [frame | auto |]; intros ?).
  apply triple_bind with (Q := fun _ => tagged hmac id data).
  { apply triple_modify. intros w Hk. unfold tagged. simpl.
    rewrite lookup_insert_eq, Hk. eauto. }
  intros u.
  apply triple_weaken with (P' := tagged hmac id data)
                           (Q' := fun _ => tagged hmac id data)
                           (E' := tagged hmac id data); try tauto.
  match goal with |- triple ?P ?c _ _ => change (preserves P c) end.
  frame.
Qed.

Definition tagged_if_found hmac id (res : option string) (w : world) : Prop :=
  match res with
  | Some data => tagged hmac id data w
  | None => True
  end.

Lemma retrieve_scan_tags hmac fuel cur id entries :
  triple (fun _ => True) (retrieve_scan hmac fuel cur id entries)
    (tagged_if_found hmac id) (fun _ => True).
Proof.
  induction entries as [|[k v] r IH]; simpl.
  - apply triple_ret. intros w _. exact I.
  - destruct (String.eqb (decrypt k) (str id)); [|exact IH].
    eapply triple_bind; [apply triple_true|]. intros v0. cbv zeta.
    do 2 (eapply triple_bind; [apply triple_true|]; intros ?).
    apply triple_bind with (Q := fun _ w => memory w !! id = None).
    { intros w _. rewrite forget_run.
      destruct (memory w !! id); [apply lookup_delete_eq | exact I]. }
    intros u.
    eapply triple_bind; [apply store_data_tags|]. intros res.
    apply triple_ret. intros w H. exact H.
Qed.

Lemma retrieve_walk_tags hmac fuel id path levels cur :
  triple (fun _ => True) (retrieve_walk hmac fuel id path levels cur)
    (tagged_if_found hmac id) (fun _ => True).
Proof.
  revert cur. induction levels as [|l r IH]; intros cur; simpl.
  - apply triple_ret. intros w _. exact I.
  - eapply triple_bind; [apply triple_true|]. intros d.
    eapply triple_bind; [apply retrieve_scan_tags|]. intros [x|].
    + apply triple_ret. intros w H. exact H.
    + eapply triple_bind; [apply triple_true|]. intros next. apply IH.
Qed.

Definition accepted hmac id (res : pyval) (w : world) : Prop :=
  res = PyNone \/ res = PyStr INVALID_DATA
  \/ exists data, res = PyStr data /\ String.length data = DATA_LEN
                  /\ tagged hmac id data w.

Lemma retrieve_data_accepts hmac fuel id :
  triple (fun _ => True) (retrieve_data hmac fuel id) (accepted hmac id)
    (fun _ => True).
Proof.
  unfold retrieve_data, get_root.
  do 2 (eapply triple_bind; [apply triple_true|]; intros ?).
  eapply triple_bind; [apply retrieve_walk_tags|]. intros [data|].
  2:{ apply triple_ret. intros w _. now left. }
  destruct (String.length data =? DATA_LEN)%nat eqn:El; simpl.
  2:{ apply triple_ret. intros w _. right. now left. }
  apply Nat.eqb_eq in El.
  apply triple_bind with (Q := fun k w => tagged hmac id data w /\ k = key w).
  { apply triple_gets. auto. }
  intros k. cbv zeta.
  apply triple_bind with
    (Q := fun m w => tagged hmac id data w /\ k = key w /\ m = memory w).
  { apply triple_gets. intros w [H1 H2]. auto. }
  intros m w (Ht & -> & ->). pose proof Ht as [bits Hb]. rewrite Hb.
  rewrite String.eqb_refl. simpl. right. right. exists data. auto.
Qed.

(** Whatever the server has done to the tree: a [retrieve_data] that
    returns gives [None], the 'Invalid data' text, or 4 characters whose
    tag the position map now holds.  It never gives the 'corrupted'
    text. *)
Theorem retrieve_never_reports_corruption hmac fuel id w res w' :
  retrieve_data hmac fuel id w = (Return res, w') ->
  py_eqb res (PyStr CORRUPTED) = false
  /\ (res = PyNone \/ res = PyStr INVALID_DATA
      \/ exists data, res = PyStr data /\ String.length data = DATA_LEN
                      /\ tagged hmac id data w').
Proof.
  intros E. pose proof (retrieve_data_accepts hmac fuel id w I) as H.
  rewrite E in H. split; [|exact H].
  destruct H as [->|[->|(data & -> & Hlen & _)]]; [reflexivity | reflexivity|].
  simpl. destruct (String.eqb data CORRUPTED) eqn:Ec; [|reflexivity].
  apply String.eqb_eq in Ec. subst data. discriminate Hlen.
Qed.

(** The retrieve of the third run, after the server's exchange. *)
Lemma retrieve_never_reports_corruption_witness :
  py_eqb (PyStr "bbbb") (PyStr CORRUPTED) = false
  /\ (PyStr "bbbb" = PyNone \/ PyStr "bbbb" = PyStr INVALID_DATA
      \/ exists data, PyStr "bbbb" = PyStr data /\ String.length data = DATA_LEN
                      /\ tagged plain_tag 1 data (retrieve_data plain_tag 3 1 tampered).2).
Proof.
  apply (retrieve_never_reports_corruption plain_tag 3 1 tampered).
  rewrite (surjective_pairing (retrieve_data plain_tag 3 1 tampered)) at 1.
  apply pair_equal_spec. split; [vm_compute; reflexivity | reflexivity].
Defined.

(** *** The records of other ids *)

Definition op_id (o : op) : Z :=
  match o with
  | Store id _ => id
  | Retrieve id => id
  | Delete id => id
  end.

Definition record_is (i : Z) (x : option (string * string)) (k : string)
    (w : world) : Prop :=
  memory w !! i = x /\ key w = k.

#[export] Instance record_is_stable i x k : Stable (record_is i x k).
Proof. split; auto. Qed.

#[export] Instance record_is_tree_blind i x k : TreeBlind (record_is i x k).
Proof. intros arr w H. exact H. Qed.

Lemma store_data_other hmac fuel id data i x k :
  i <> id -> preserves (record_is i x k) (store_data hmac fuel id data).
Proof.
  intros Hne. unfold store_data, get_root.
  apply preserves_bind; [frame|]. intros m.
  destruct (decide (is_Some (m !! id))); [frame|].
  do 3 (apply preserves_bind; [frame|]; intros ?).
  apply preserves_bind; [frame|]. intros k0. cbv zeta.
  do 3 (apply preserves_bind; [frame|]; intros ?).
  apply preserves_bind.
  { apply preserves_modify. intros w [H1 H2]. split; [|exact H2].
    simpl. now rewrite lookup_insert_ne by congruence. }
  intros u. frame.
Qed.

Lemma forget_other id i x k : i <> id -> preserves (record_is i x k) (forget id).
Proof.
  intros Hne. unfold forget. apply preserves_bind; [frame|]. intros m.
  destruct (m !! id); [|frame].
  apply preserves_modify. intros w [H1 H2]. split; [|exact H2].
  simpl. now rewrite lookup_delete_ne by congruence.
Qed.

Lemma retrieve_scan_other hmac fuel cur id entries i x k :
  i <> id -> preserves (record_is i x k) (retrieve_scan hmac fuel cur id entries).
Proof.
  intros Hne. induction entries as [|[k0 v] r IH]; simpl.
  - apply preserves_ret.
  - destruct (String.eqb (decrypt k0) (str id)); [|exact IH].
    apply preserves_bind; [frame|]. intros v0. cbv zeta.
    do 2 (apply preserves_bind; [frame|]; intros ?).
    apply preserves_bind; [now apply forget_other|]. intros u.
    apply preserves_bind; [now apply store_data_other|]. intros res.
    apply preserves_ret.
Qed.

Lemma retrieve_walk_other hmac fuel id path levels cur i x k :
  i <> id -> preserves (record_is i x k) (retrieve_walk hmac fuel id path levels cur).
Proof.
  intros Hne. revert cur. induction levels as [|l r IH]; intros cur; simpl.
  - apply preserves_ret.
  - apply preserves_bind; [frame|]. intros d.
    apply preserves_bind; [now apply retrieve_scan_other|]. intros [data|].
    + apply preserves_ret.
    + apply preserves_bind; [frame|]. intros next. apply IH.
Qed.

Lemma retrieve_data_other hmac fuel id i x k :
  i <> id -> preserves (record_is i x k) (retrieve_data hmac fuel id).
Proof.
  intros Hne. unfold retrieve_data, get_root.
  do 2 (apply preserves_bind; [frame|]; intros ?).
  apply preserves_bind; [now apply retrieve_walk_other|]. intros data. frame.
Qed.

(** An operation on one id leaves the position map's record of every
    other id as it is (there or not there), and the key: whatever the
    operation does and however it ends. *)
Theorem other_ids_are_left_alone hmac fuel o w i :
  i <> op_id o ->
  memory (run_op hmac fuel o w).2 !! i = memory w !! i
  /\ key (run_op hmac fuel o w).2 = key w.
Proof.
  intros Hne.
  apply (preserves_state (record_is i (memory w !! i) (key w))); [|split; reflexivity].
  destruct o as [id data|id|id]; simpl in *.
  - now apply store_data_other.
  - now apply retrieve_data_other.
  - apply delete_data_frame; apply _.
Qed.

(** A store of id 2 after the store of id 1 on [Server(7)]. *)
Lemma other_ids_are_left_alone_witness :
  memory (run_op plain_tag 3 (Store 2 "bbbb") deep_store.2).2 !! 1
  = memory deep_store.2 !! 1
  /\ key (run_op plain_tag 3 (Store 2 "bbbb") deep_store.2).2 = key deep_store.2.
Proof.
  apply (other_ids_are_left_alone plain_tag 3 (Store 2 "bbbb") deep_store.2 1).
  discriminate.
Defined.

(** *** What a walk reads *)

(** Nothing but the trace differs. *)
Definition untouched (w0 w : world) : Prop :=
  server w = server w0 /\ memory w = memory w0 /\ key w = key w0
  /\ encryptions w = encryptions w0 /\ rng w = rng w0 /\ draws w = draws w0.

(** Some bucket has an entry whose key decrypts to [str(id)] and whose
    value decrypts to one character and then [data]. *)
Definition holds (id : Z) (data : string) (w : world) : Prop :=
  exists r b k v, bucket_at w r = Some b /\ (k, v) ∈ b
                  /\ decrypt k = str id /\ tail (decrypt v) = data.

Lemma untouched_refl w : untouched w w.
Proof. repeat split. Qed.

Lemma value_dict_untouched w0 cur :
  triple (untouched w0) (value_dict cur)
    (fun d w => untouched w0 w /\ exists r, cur = Some r /\ bucket_at w0 r = Some d)
    (fun _ => True).
Proof.
  intros w Hu.
  destruct (value_dict_cases cur w)
    as [(e & w' & -> & _)|(n & d & Hn & Hv & [r ->] & ->)]; [exact I|].
  split; [exact Hu|]. exists r. split; [reflexivity|].
  simpl in Hn. unfold bucket_at, arr_of in *. destruct Hu as (<- & _).
  now rewrite Hn.
Qed.

Lemma descend_state cur path level w : (descend cur path level w).2 = w.
Proof.
  unfold descend, node_of, bind, gets, lift, ret, raise.
  destruct cur as [r|]; [|reflexivity]. simpl.
  destruct (lookup_node (arr_of w) r); [|reflexivity]. simpl.
  destruct (str_index path level); reflexivity.
Qed.

Lemma path_of_state id w : (path_of id w).2 = w.
Proof.
  unfold path_of, bind, gets. simpl.
  destruct (memory w !! id) as [[bits tag]|]; reflexivity.
Qed.

Lemma preserves_by_state {A} (P : world -> Prop) (c : M A) :
  (forall w, (c w).2 = w) -> preserves P c.
Proof.
  intros H w Hw. specialize (H w). destruct (c w) as [[a|e] w']; simpl in H;
    now subst.
Qed.

Lemma get_item_untouched w0 r d k :
  bucket_at w0 r = Some d ->
  triple (untouched w0) (get_item (Some r) k)
    (fun v w => untouched w0 w /\ (k, v) ∈ d) (fun _ => True).
Proof.
  intros Hb w Hu.
  destruct (get_item_cases (Some r) k w)
    as [(e & w' & -> & _)|(r' & d' & v & [= <-] & Hb' & Hg & ->)]; [exact I|].
  split; [exact Hu|].
  assert (d' = d) as ->.
  { unfold bucket_at, arr_of in *. destruct Hu as (Hs & _). rewrite Hs in Hb'.
    congruence. }
  now apply dict_get_elem.
Qed.

Definition read_or_missed (id : Z) (w0 : world) (res : option string) (w : world)
    : Prop :=
  match res with
  | Some data => holds id data w0
  | None => untouched w0 w
  end.

Lemma delete_scan_reads w0 cur id (d entries : list (ciphertext * ciphertext)) :
  (forall e, e ∈ entries -> e ∈ d) ->
  (exists r, cur = Some r /\ bucket_at w0 r = Some d) ->
  triple (untouched w0) (delete_scan cur id entries) (read_or_missed id w0)
    (fun _ => True).
Proof.
  intros Hsub (r & -> & Hb). induction entries as [|[k v] rest IH]; simpl.
  - apply triple_ret. auto.
  - destruct (String.eqb (decrypt k) (str id)) eqn:Ek.
    + eapply triple_bind; [apply (get_item_untouched w0 r d k Hb)|]. intros v'.
      apply triple_pure. intros Hin. cbv zeta.
      do 2 (eapply triple_bind; [apply triple_true|]; intros ?).
      apply triple_ret. intros w _. exists r, d, k, v'.
      split; [exact Hb|]. split; [exact Hin|].
      split; [now apply String.eqb_eq | reflexivity].
    + apply IH. intros e He. apply Hsub. now right.
Qed.

Lemma retrieve_scan_reads hmac fuel w0 cur id
    (d entries : list (ciphertext * ciphertext)) :
  (forall e, e ∈ entries -> e ∈ d) ->
  (exists r, cur = Some r /\ bucket_at w0 r = Some d) ->
  triple (untouched w0) (retrieve_scan hmac fuel cur id entries)
    (read_or_missed id w0) (fun _ => True).
Proof.
  intros Hsub (r & -> & Hb). induction entries as [|[k v] rest IH]; simpl.
  - apply triple_ret. auto.
  - destruct (String.eqb (decrypt k) (str id)) eqn:Ek.
    + eapply triple_bind; [apply (get_item_untouched w0 r d k Hb)|]. intros v'.
      apply triple_pure. intros Hin. cbv zeta.
      do 4 (eapply triple_bind; [apply triple_true|]; intros ?).
      apply triple_ret. intros w _. exists r, d, k, v'.
      split; [exact Hb|]. split; [exact Hin|].
      split; [now apply String.eqb_eq | reflexivity].
    + apply IH. intros e He. apply Hsub. now right.
Qed.

Lemma delete_walk_reads w0 id path levels cur :
  triple (untouched w0) (delete_walk id path levels cur) (read_or_missed id w0)
    (fun _ => True).
Proof.
  revert cur. induction levels as [|l r IH]; intros cur; simpl.
  - apply triple_ret. auto.
  - eapply triple_bind; [apply value_dict_untouched|]. intros d.
    apply triple_pure. intros Hd.
    eapply triple_bind; [now apply (delete_scan_reads w0 cur id d d)|].
    intros [x|].
    + apply triple_ret. auto.
    + apply triple_bind_frame;
        [apply preserves_by_state; intros w; apply descend_state | auto |].
      intros next. apply IH.
Qed.

Lemma retrieve_walk_reads hmac fuel w0 id path levels cur :
  triple (untouched w0) (retrieve_walk hmac fuel id path levels cur)
    (read_or_missed id w0) (fun _ => True).
Proof.
  revert cur. induction levels as [|l r IH]; intros cur; simpl.
  - apply triple_ret. auto.
  - eapply triple_bind; [apply value_dict_untouched|]. intros d.
    apply triple_pure. intros Hd.
    eapply triple_bind; [now apply (retrieve_scan_reads hmac fuel w0 cur id d d)|].
    intros [x|].
    + apply triple_ret. auto.
    + apply triple_bind_frame;
        [apply preserves_by_state; intros w; apply descend_state | auto |].
      intros next. apply IH.
Qed.

(** [delete_data] gives back only what the server held under the id: some
    bucket had an entry with the key [str(id)] and a value of one character
    and then the returned bytes, and the tree has one such entry less.
    When it returns [None], nothing but the record of touched nodes has
    changed: not the tree, not the position map, and no encryption or
    random draw was made. *)
Theorem delete_data_takes_what_was_there id w res w' :
  delete_data id w = (Return res, w') ->
  match res with
  | PyNone => untouched w w'
  | PyBytes data => holds id data w /\ (count_id id w' < count_id id w)%nat
  | _ => False
  end.
Proof.
  intros Hrun.
  assert (H : triple (untouched w) (delete_data id)
                (fun res w' => match res with
                               | PyNone => untouched w w'
                               | PyBytes data => holds id data w
                               | _ => False
                               end) (fun _ => True)).
  { unfold delete_data, get_root.
    apply triple_bind_frame;
      [apply preserves_by_state; intros w1; apply path_of_state | auto |].
    intros path.
    apply triple_bind_frame; [apply preserves_ret | auto |]. intros root.
    eapply triple_bind; [apply delete_walk_reads|]. intros [data|];
      apply triple_ret; auto. }
  specialize (H w (untouched_refl w)). rewrite Hrun in H.
  pose proof (delete_data_count id (count_id id w) w (le_n _)) as Hc.
  rewrite Hrun in Hc.
  destruct res; try exact H. split; [exact H|]. simpl in Hc. lia.
Qed.

(** The delete of the first run. *)
Lemma delete_data_takes_what_was_there_witness :
  holds 1 "aaaa" deep_store.2
  /\ (count_id 1 (delete_data 1 deep_store.2).2 < count_id 1 deep_store.2)%nat.
Proof.
  apply (delete_data_takes_what_was_there 1 deep_store.2 (PyBytes "aaaa")
           (delete_data 1 deep_store.2).2).
  rewrite (surjective_pairing (delete_data 1 deep_store.2)) at 1.
  apply pair_equal_spec. split; [vm_compute; reflexivity | reflexivity].
Defined.

(** [retrieve_data] gives back [None], and then nothing but the record of
    touched nodes has changed; or the 'Invalid data' text; or a string
    that the server held under the id: some bucket had an entry with the
    key [str(id)] and a value of one character and then that string. *)
Theorem retrieve_data_gives_what_the_server_holds hmac fuel id w res w' :
  retrieve_data hmac fuel id w = (Return res, w') ->
  match res with
  | PyNone => untouched w w'
  | PyStr s => s = INVALID_DATA \/ holds id s w
  | _ => False
  end.
Proof.
  intros Hrun.
  assert (H : triple (untouched w) (retrieve_data hmac fuel id)
                (fun res w' => match res with
                               | PyNone => untouched w w'
                               | PyStr s => s = INVALID_DATA \/ holds id s w
                               | _ => False
                               end) (fun _ => True)).
  { unfold retrieve_data, get_root.
    apply triple_bind_frame;
      [apply preserves_by_state; intros w1; apply path_of_state | auto |].
    intros path.
    apply triple_bind_frame; [apply preserves_ret | auto |]. intros root.
    apply triple_bind with
      (Q := fun res w' => read_or_missed id w res w' /\ tagged_if_found hmac id res w').
    { intros w1 Hu.
      pose proof (retrieve_walk_reads hmac fuel w id path
                    (seq 0 (String.length path)) (Some root) w1 Hu) as Ha.
      pose proof (retrieve_walk_tags hmac fuel id path
                    (seq 0 (String.length path)) (Some root) w1 I) as Hb.
      destruct (retrieve_walk hmac fuel id path (seq 0 (String.length path))
                  (Some root) w1) as [[res1|e] w2]; [split; assumption | exact I]. }
    intros [data|]; [|apply triple_ret; intros w1 [H1 _]; exact H1].
    destruct (negb (String.length data =? DATA_LEN)%nat).
    { apply triple_ret. intros w1 _. now left. }
    apply triple_bind with
      (Q := fun k w1 => (holds id data w /\ tagged hmac id data w1) /\ k = key w1).
    { apply triple_gets. intros w1 [H1 H2]. auto. }
    intros k. cbv zeta.
    apply triple_bind with
      (Q := fun m w1 => holds id data w /\ tagged hmac id data w1
                        /\ k = key w1 /\ m = memory w1).
    { apply triple_gets. intros w1 [[H1 H2] H3]. auto. }
    intros m w1 (Hh & [bits Hb] & -> & ->). rewrite Hb.
    rewrite String.eqb_refl. simpl. now right. }
  specialize (H w (untouched_refl w)). now rewrite Hrun in H.
Qed.

(** The retrieve of the third run gives the value that the server had
    put under id 1. *)
Lemma retrieve_data_gives_what_the_server_holds_witness :
  "bbbb"%string = INVALID_DATA \/ holds 1 "bbbb" tampered.
Proof.
  apply (retrieve_data_gives_what_the_server_holds plain_tag 3 1 tampered
           (PyStr "bbbb") (retrieve_data plain_tag 3 1 tampered).2).
  rewrite (surjective_pairing (retrieve_data plain_tag 3 1 tampered)) at 1.
  apply pair_equal_spec. split; [vm_compute; reflexivity | reflexivity].
Defined.

(** *** Re-encryption, dummies and the second draw *)

(** The state after [n] rounds of the loop of [_encrypt_node] on [node]:
    two encryptions and one read of the node in each. *)
Definition after_rounds (w : world) (node : ref) (n : nat) : world :=
  {| server := server w; memory := memory w; key := key w;
     encryptions := encryptions w + 2 * n; rng := rng w; draws := draws w;
     trace := replicate n node ++ trace w |}.

(** The entries of [d] under the tokens that encryptions [e], [e + 1], ..
    give. *)
Definition reenc (e : nat) (d : list (ciphertext * ciphertext))
    : list (ciphertext * ciphertext) :=
  imap (fun i kv => (Enc (e + 2 * i) (decrypt kv.1),
                     Enc (e + 2 * i + 1) (decrypt kv.2))) d.

Definition plaintexts (d : list (ciphertext * ciphertext)) : list (string * string) :=
  (fun kv => (decrypt kv.1, decrypt kv.2)) <$> d.

Lemma reenc_cons e kv r :
  reenc e (kv :: r)
  = (Enc e (decrypt kv.1), Enc (S e) (decrypt kv.2)) :: reenc (S (S e)) r.
Proof.
  unfold reenc. rewrite imap_cons. f_equal.
  - f_equal; f_equal; lia.
  - apply imap_ext. intros i x _. unfold compose. f_equal; f_equal; lia.
Qed.

Lemma dict_get_nodup k v d : NoDup (dict_keys d) -> (k, v) ∈ d -> dict_get k d = Some v.
Proof.
  unfold dict_keys. induction d as [|[k' v'] r IH]; simpl; intros Hnd Hin.
  - now apply elem_of_nil in Hin.
  - apply NoDup_cons in Hnd as [Hk Hnd]. apply elem_of_cons in Hin as [[= -> ->]|Hin].
    + now rewrite decide_True.
    + destruct (decide (k' = k)) as [->|Hne]; [|now apply IH].
      exfalso. apply Hk. apply list_elem_of_fmap. exists (k, v). auto.
Qed.

Lemma replicate_end {A} (x : A) n l : replicate n x ++ x :: l = replicate (S n) x ++ l.
Proof. induction n as [|n IH]; simpl; [reflexivity|]. now rewrite IH. Qed.

(** The entries with the values that [d[key]] gives for their keys. *)
Definition as_read (d entries : list (ciphertext * ciphertext))
    : list (ciphertext * ciphertext) :=
  (fun kv => (kv.1, default kv.2 (dict_get kv.1 d))) <$> entries.

(** For a dict, whose keys are all different, these are the entries
    themselves. *)
Lemma as_read_same d entries :
  (forall e, e ∈ entries -> dict_get e.1 d = Some e.2) -> as_read d entries = entries.
Proof.
  unfold as_read. induction entries as [|[k v] r IH]; intros H; [reflexivity|].
  pose proof (H (k, v) ltac:(now left)) as Hk. simpl in Hk.
  rewrite fmap_cons. cbn [fst snd]. rewrite Hk. simpl. f_equal. apply IH.
  intros e He. apply H. now right.
Qed.

Lemma encrypt_entries_exact node d entries : forall acc w,
  bucket_at w node = Some d ->
  (forall e, e ∈ entries -> e.1 ∈ dict_keys d) ->
  Forall (fun k => nonce k < encryptions w)%nat (dict_keys acc) ->
  encrypt_entries node entries acc w
  = (Return (acc ++ reenc (encryptions w) (as_read d entries)),
     after_rounds w node (length entries)).
Proof.
  induction entries as [|[k v0] r IH]; intros acc w Hb Hsub Hacc.
  - simpl. unfold ret, after_rounds, reenc. simpl. rewrite app_nil_r.
    rewrite Nat.add_0_r. now destruct w.
  - destruct (dict_get_keys k d) as [v Hv]; [apply (Hsub (k, v0)); now left|].
    cbn [encrypt_entries].
    rewrite bind_run, (get_item_run node d k v w Hb Hv).
    cbv beta iota. unfold bind at 1, encrypt at 1.
    unfold bind at 1, encrypt at 1.
    rewrite dict_set_fresh.
    2:{ intros Hin. apply (proj1 (Forall_forall _ _) Hacc) in Hin. simpl in Hin. lia. }
    rewrite IH.
    2:{ exact Hb. }
    2:{ intros e He. apply Hsub. now right. }
    2:{ rewrite dict_keys_app. apply Forall_app. split.
        - eapply Forall_impl; [exact Hacc|]. intros x Hx. simpl in *. lia.
        - repeat constructor. }
    unfold as_read. rewrite fmap_cons. cbn [fst snd]. rewrite Hv.
    rewrite reenc_cons. cbn [fst snd default]. rewrite <- app_assoc. simpl.
    unfold after_rounds. simpl. rewrite replicate_end. simpl.
    do 2 f_equal. f_equal. lia.
Qed.

Lemma plaintexts_reenc e d : plaintexts (reenc e d) = plaintexts d.
Proof.
  revert e. induction d as [|kv r IH]; intros e; [reflexivity|].
  rewrite reenc_cons. unfold plaintexts in *. simpl. now rewrite IH.
Qed.

Lemma reenc_nonces e d :
  Forall (fun kv => e <= nonce kv.1 /\ e <= nonce kv.2)%nat (reenc e d).
Proof.
  revert e. induction d as [|kv r IH]; intros e; [constructor|].
  rewrite reenc_cons. constructor; [simpl; lia|].
  eapply Forall_impl; [apply IH|]. intros x Hx. simpl in Hx. lia.
Qed.

Lemma reenc_keys_nodup e d : NoDup (dict_keys (reenc e d)).
Proof.
  revert e. induction d as [|kv r IH]; intros e.
  - constructor.
  - rewrite reenc_cons. unfold dict_keys in *. simpl. constructor; [|apply IH].
    intros Hin. apply list_elem_of_fmap in Hin as (x & Hx & Hin).
    pose proof (proj1 (Forall_forall _ _) (reenc_nonces (S (S e)) r) x Hin) as H.
    destruct H as [H _]. assert (nonce x.1 = e) as He by (now rewrite <- Hx).
    simpl in *. lia.
Qed.

(** [_encrypt_node] on a node whose value is a dict returns; the node then
    has as many entries with the same plaintext keys and values in the
    same order (the keys of a dict being all different; in general each
    key comes with the value that [node.value[key]] gives for it), under
    tokens that no earlier encryption gave and that differ from each
    other; the other buckets and the position map are as they were. *)
Theorem encrypt_node_keeps_the_plaintexts node d w :
  bucket_at w node = Some d ->
  exists nd w',
    _encrypt_node node w = (Return tt, w')
    /\ bucket_at w' node = Some nd
    /\ plaintexts nd = plaintexts (as_read d d)
    /\ (NoDup (dict_keys d) -> plaintexts nd = plaintexts d)
    /\ Forall (fun kv => encryptions w <= nonce kv.1
                         /\ encryptions w <= nonce kv.2)%nat nd
    /\ NoDup (dict_keys nd)
    /\ (forall r, r <> node -> bucket_at w' r = bucket_at w r)
    /\ memory w' = memory w
    /\ encryptions w' = (encryptions w + 2 * length d)%nat.
Proof.
  intros Hb. pose proof Hb as Hb0. unfold bucket_at in Hb.
  destruct (lookup_node (arr_of w) node) as [n|] eqn:Hn; [|discriminate].
  exists (reenc (encryptions w) (as_read d d)). eexists.
  split.
  - unfold _encrypt_node. rewrite bind_run. unfold value_dict. rewrite bind_run.
    rewrite (read_value_run node n w Hn), Hb. unfold ret at 1. cbv beta iota.
    rewrite bind_run, (encrypt_entries_exact node d d).
    + cbv beta iota. rewrite assign_value_run. reflexivity.
    + exact Hb0.
    + intros e He. unfold dict_keys. apply list_elem_of_fmap. eauto.
    + constructor.
  - assert (Hex : is_Some (lookup_node
                            (arr_of (after_rounds (record_touch node w) node
                                       (length d))) node)).
    { change (is_Some (lookup_node (arr_of w) node)). rewrite Hn. eauto. }
    split; [|split; [|split; [|split; [|split; [|split; [|split]]]]]].
    + rewrite bucket_at_assigned by exact Hex. now rewrite decide_True.
    + apply plaintexts_reenc.
    + intros Hnd. rewrite plaintexts_reenc, as_read_same; [reflexivity|].
      intros [k v] He. now apply dict_get_nodup.
    + apply reenc_nonces.
    + apply reenc_keys_nodup.
    + intros r Hr. rewrite bucket_at_assigned by exact Hex.
      now rewrite decide_False by exact Hr.
    + reflexivity.
    + reflexivity.
Qed.

(** The root of [Server(7)] after the store of the first run. *)
Lemma encrypt_node_keeps_the_plaintexts_witness :
  let w := deep_store.2 in
  let d := default [] (bucket_at w (0, 0)%nat) in
  exists nd w',
    _encrypt_node (0, 0)%nat w = (Return tt, w')
    /\ bucket_at w' (0, 0)%nat = Some nd
    /\ plaintexts nd = plaintexts (as_read d d)
    /\ (NoDup (dict_keys d) -> plaintexts nd = plaintexts d)
    /\ Forall (fun kv => encryptions w <= nonce kv.1
                         /\ encryptions w <= nonce kv.2)%nat nd
    /\ NoDup (dict_keys nd)
    /\ (forall r, r <> (0, 0)%nat -> bucket_at w' r = bucket_at w r)
    /\ memory w' = memory w
    /\ encryptions w' = (encryptions w + 2 * length d)%nat.
Proof.
  intros w d. apply (encrypt_node_keeps_the_plaintexts (0, 0)%nat d w).
  vm_compute. reflexivity.
Defined.

(** A push-down pass never makes an entry: for every id the tree holds at
    most as many entries afterwards as before; and it leaves the position
    map and the key alone.  This holds however the pass ends. *)
Theorem push_down_adds_nothing fuel w id :
  (count_id id (_push_down fuel w).2 <= count_id id w)%nat
  /\ memory (_push_down fuel w).2 = memory w
  /\ key (_push_down fuel w).2 = key w.
Proof.
  split; [|apply push_down_keeps_memory].
  pose proof (preserves_state (within (fun _ => 0%nat) (fun i => count_id i w))
                (_push_down fuel) w (push_down_within _ _ fuel)) as H.
  specialize (H (fun i => ltac:(simpl; lia)) id). simpl in H. lia.
Qed.

(** [Client.get_random_string(n)] never raises; it makes [n] draws and
    gives [n] lowercase letters.  So a dummy's key ([n = 3]) is never the
    [str] of an id. *)
Theorem random_strings_are_lowercase n w :
  exists s, get_random_string n w = (Return s, with_draws w (draws w + n))
            /\ String.length s = n
            /\ (forall i c, String.get i s = Some c -> is_lower c = true)
            /\ (n <> 0%nat -> forall id, s <> str id).
Proof.
  assert (H : exists s, get_random_string n w = (Return s, with_draws w (draws w + n))
                        /\ String.length s = n
                        /\ forall i c, String.get i s = Some c -> is_lower c = true).
  { revert w. induction n as [|n IH]; intros w; simpl.
    - exists EmptyString. split; [|split; [reflexivity | discriminate]].
      unfold ret, with_draws. rewrite Nat.add_0_r. now destruct w.
    - unfold bind. destruct (random_choice_run w) as (c & -> & Hc).
      destruct (IH (count_draw w)) as (r & -> & Hlen & Hall).
      exists (String c r). split; [|split].
      + unfold ret, with_draws, count_draw. simpl. do 2 f_equal. lia.
      + simpl. now rewrite Hlen.
      + intros [|i] c'; simpl; [intros [= <-]; exact Hc | apply Hall]. }
  destruct H as (s & Hrun & Hlen & Hall). exists s.
  split; [exact Hrun|]. split; [exact Hlen|]. split; [exact Hall|].
  intros Hn id Hs. pose proof (str_starts_with_no_letter id) as Hid.
  rewrite <- Hs in Hid. destruct s as [|c r]; [simpl in Hlen; congruence|].
  rewrite (Hall 0%nat c eq_refl) in Hid. discriminate.
Qed.

(** What [random.randint(a, b)] gives as draw number [n]. *)
Definition draw_at (w : world) (a b : Z) (n : nat) : Z :=
  a + rng w n mod (b - a + 1).

Lemma randint_run a b w :
  a <= b -> randint a b w = (Return (draw_at w a b (draws w)), count_draw w).
Proof.
  intros H. unfold randint, draw_at.
  now rewrite (proj2 (Z.ltb_ge b a)) by lia.
Qed.

Lemma redraw_other fuel rand1 rand2 a b w :
  rand2 <> rand1 -> redraw fuel rand1 rand2 a b w = (Return rand2, w).
Proof.
  intros H. assert (E : (rand1 =? rand2) = false) by (apply Z.eqb_neq; congruence).
  destruct fuel; simpl; now rewrite E.
Qed.

(** The loop [while rand1 == rand2: rand2 = randint(a, b)] returns: with
    different values to begin with it returns the second at once and
    draws nothing; with equal values, when the draws that follow are
    [rand1] [n] times and then another value, it returns that value after
    [n + 1] draws (the bound on the rounds being above [n]), and the value
    is in the range. *)
Theorem redraw_returns_the_first_other_draw fuel rand1 rand2 a b w n :
  a <= b -> (n < fuel)%nat ->
  (forall k, (k < n)%nat -> draw_at w a b (draws w + k) = rand1) ->
  draw_at w a b (draws w + n) <> rand1 ->
  (rand2 <> rand1 -> redraw fuel rand1 rand2 a b w = (Return rand2, w))
  /\ redraw fuel rand1 rand1 a b w
     = (Return (draw_at w a b (draws w + n)), with_draws w (draws w + S n))
  /\ a <= draw_at w a b (draws w + n) <= b.
Proof.
  intros Hab Hfuel Hsame Hother. split; [apply redraw_other|]. split.
  - revert fuel w Hfuel Hsame Hother.
    induction n as [|n IH]; intros fuel w Hfuel Hsame Hother;
      (destruct fuel as [|f]; [lia|]); cbn [redraw]; rewrite Z.eqb_refl;
      rewrite bind_run, (randint_run a b w Hab); cbv beta iota.
    + rewrite Nat.add_0_r in Hother. rewrite redraw_other by exact Hother.
      rewrite Nat.add_0_r. unfold count_draw, with_draws. do 2 f_equal. lia.
    + pose proof (Hsame 0%nat ltac:(lia)) as H0. rewrite Nat.add_0_r in H0.
      rewrite H0.
      rewrite (IH f (count_draw w)).
      * unfold draw_at, count_draw, with_draws. simpl.
        replace (S (draws w + n)) with (draws w + S n)%nat by lia.
        do 2 f_equal. f_equal. lia.
      * lia.
      * intros k Hk. specialize (Hsame (S k) ltac:(lia)).
        unfold draw_at in *. simpl.
        now replace (S (draws w + k)) with (draws w + S k)%nat by lia.
      * unfold draw_at in *. simpl.
        now replace (S (draws w + n)) with (draws w + S n)%nat by lia.
  - unfold draw_at.
    pose proof (Z.mod_pos_bound (rng w (draws w + n)) (b - a + 1) ltac:(lia)). lia.
Qed.

(** The first draw is 0 again, the second is 2. *)
Lemma redraw_returns_the_first_other_draw_witness :
  let w := fresh_world (server_of 1) "K" (draws_from 0 [0; 2]) in
  redraw 3 0 0 0 3 w = (Return 2, with_draws w 2).
Proof.
  intros w.
  refine (proj1 (proj2 (redraw_returns_the_first_other_draw 3 0 0 0 3 w 1 _ _ _ _))).
  - lia.
  - lia.
  - intros k Hk. assert (k = 0%nat) as -> by lia. reflexivity.
  - vm_compute. discriminate.
Defined.

(** *** Where the entries are *)

(** The last node of its level. *)
Definition right_edge (r : nat * nat) : Prop := r.2 = (2 ^ r.1 - 1)%nat.

(** What may be at node [r]: a pair whose value reads as a dummy and whose
    key is the [str] of no id, anywhere; any other pair only on the right
    edge. *)
Definition placed (r : nat * nat) (k v : ciphertext) : Prop :=
  (bytes_index (decrypt v) 0 = Return (PyInt DUM_VAL)
   /\ forall id, decrypt k <> str id)
  \/ (bytes_index (decrypt v) 0 <> Return (PyInt DUM_VAL) /\ right_edge r).

Definition sorted (w : world) : Prop :=
  forall r b k v, bucket_at w r = Some b -> (k, v) ∈ b -> placed r k v.

#[export] Instance sorted_stable : Stable sorted.
Proof. split; auto. Qed.

#[export] Instance sorted_memory_blind : MemoryBlind sorted.
Proof. intros m w H. exact H. Qed.

Lemma elem_of_dict_set e k v d : e ∈ dict_set k v d -> e = (k, v) \/ e ∈ d.
Proof.
  induction d as [|[k' v'] r IH]; simpl.
  - intros H. apply list_elem_of_singleton in H. now left.
  - destruct (decide (k' = k)) as [->|Hne]; intros H;
      apply elem_of_cons in H as [H|H].
    + now left.
    + right. now right.
    + right. subst e. now left.
    + destruct (IH H) as [?|?]; [now left | right; now right].
Qed.

Lemma sorted_assigned r b' w :
  sorted w -> (forall k v, (k, v) ∈ b' -> placed r k v) ->
  sorted (assigned r (Some b') w).
Proof.
  intros Hs Hb r' b k v Hr' Hin.
  destruct (lookup_node (arr_of w) r) as [n|] eqn:Hn.
  - rewrite bucket_at_assigned in Hr' by eauto.
    destruct (decide (r' = r)) as [->|Hne].
    + injection Hr' as <-. now apply Hb.
    + eapply Hs; eauto.
  - unfold bucket_at in Hr'.
    change (arr_of (assigned r (Some b') w))
      with (update_node (arr_of w) r (fun n => set_value n (Some b'))) in Hr'.
    rewrite update_node_missing in Hr' by exact Hn. eapply Hs; eauto.
Qed.

Lemma del_item_sorted r k : preserves sorted (del_item r k).
Proof.
  intros w Hs.
  destruct (del_item_cases r k w)
    as [[e ->]|(r' & n & d & d' & -> & Hn & Hv & Hd & ->)]; [exact Hs|].
  apply sorted_assigned; [exact Hs|]. intros k0 v0 Hin.
  destruct (dict_del_split k d d' Hd) as (d1 & v & d2 & -> & -> & _).
  apply (Hs r' (d1 ++ (k, v) :: d2)).
  - unfold bucket_at. now rewrite Hn.
  - apply elem_of_app in Hin as [?|?]; apply elem_of_app; [now left|].
    right. now right.
Qed.

Lemma set_item_sorted r k v :
  (forall r', r = Some r' -> placed r' k v) -> preserves sorted (set_item r k v).
Proof.
  intros Hp w Hs.
  destruct (set_item_cases r k v w)
    as [[e ->]|(r' & n & d & -> & Hn & Hv & ->)]; [exact Hs|].
  apply sorted_assigned; [exact Hs|]. intros k0 v0 Hin.
  apply elem_of_dict_set in Hin as [[= -> ->]|Hin]; [now apply Hp|].
  apply (Hs r' d); [|exact Hin]. unfold bucket_at. now rewrite Hn.
Qed.

Lemma add_dummy_sorted r : preserves sorted (add_dummy r).
Proof.
  intros w Hs. destruct (add_dummy_run r w) as (s & Hs' & ->).
  apply set_item_sorted; [|exact Hs].
  intros r' _. left. split; [reflexivity|].
  intros id Heq. specialize (Hs' id (Enc 0 "")). unfold is_entry_of in Hs'.
  simpl in Hs', Heq. rewrite Heq, String.eqb_refl in Hs'. discriminate.
Qed.

Lemma assign_empty_sorted r : preserves sorted (assign_value r (Some [])).
Proof.
  intros w Hs. rewrite assign_value_run. cbv beta iota.
  apply sorted_assigned; [exact Hs|]. intros k v Hin. now apply elem_of_nil in Hin.
Qed.

#[export] Hint Resolve del_item_sorted add_dummy_sorted assign_empty_sorted : frame.

Lemma fill_sorted : preserves sorted _fill_server_with_dummies.
Proof. unfold _fill_server_with_dummies. frame. Qed.

(** A pair with the plaintexts of an entry of [d]. *)
Definition reread (d : list (ciphertext * ciphertext))
    (kv' : ciphertext * ciphertext) : Prop :=
  exists k v, (k, v) ∈ d /\ decrypt kv'.1 = decrypt k /\ decrypt kv'.2 = decrypt v.

Lemma sorted_transport w w' : arr_of w' = arr_of w -> sorted w -> sorted w'.
Proof.
  intros Ha Hs r b k v Hb. apply (Hs r b k v). unfold bucket_at in *.
  now rewrite <- Ha.
Qed.

Lemma encrypt_entries_from node d entries : forall acc w,
  bucket_at w node = Some d -> Forall (reread d) acc ->
  match encrypt_entries node entries acc w with
  | (Return nd, w') => arr_of w' = arr_of w /\ Forall (reread d) nd
  | (Raise _, w') => arr_of w' = arr_of w
  end.
Proof.
  induction entries as [|[k v0] r IH]; intros acc w Hb Hacc.
  - simpl. auto.
  - cbn [encrypt_entries]. rewrite bind_run.
    destruct (get_item_cases (Some node) k w)
      as [(e & w' & -> & Ha & _)|(r' & d' & v & [= <-] & Hb' & Hg & ->)]; [exact Ha|].
    assert (d' = d) as -> by congruence.
    cbv beta iota. unfold bind at 1. unfold encrypt at 1.
    unfold bind at 1. unfold encrypt at 1.
    match goal with
    | |- match encrypt_entries _ _ (dict_set ?ek ?ev _) ?w1 with _ => _ end =>
        specialize (IH (dict_set ek ev acc) w1)
    end.
    apply IH; [exact Hb|].
    apply Forall_forall. intros e He. apply elem_of_dict_set in He as [->|He].
    + exists k, v. split; [now apply dict_get_elem | split; reflexivity].
    + exact (proj1 (Forall_forall _ _) Hacc e He).
Qed.

Lemma placed_plain r k v k' v' :
  decrypt k' = decrypt k -> decrypt v' = decrypt v -> placed r k v -> placed r k' v'.
Proof. unfold placed. intros -> ->. auto. Qed.

Lemma encrypt_node_sorted node : preserves sorted (_encrypt_node node).
Proof.
  intros w Hs. unfold _encrypt_node. rewrite bind_run.
  destruct (value_dict_cases (Some node) w)
    as [(e & w' & -> & Ha & He)|(n & d & Hn & Hv & _ & ->)].
  { now apply (sorted_transport w). }
  simpl in Hn. simpl (default _ _). rewrite bind_run.
  assert (Hb : bucket_at (record_touch node w) node = Some d).
  { unfold bucket_at. change (arr_of (record_touch node w)) with (arr_of w).
    now rewrite Hn. }
  pose proof (encrypt_entries_from node d d [] (record_touch node w) Hb
                (Forall_nil_2 _)) as Hfrom.
  destruct (encrypt_entries node d [] (record_touch node w)) as [[nd|e] w2].
  2:{ now apply (sorted_transport w). }
  destruct Hfrom as [Ha Hall]. rewrite assign_value_run. cbv beta iota.
  apply sorted_assigned.
  - now apply (sorted_transport w).
  - intros k' v' Hin.
    destruct (proj1 (Forall_forall _ _) Hall (k', v') Hin) as (k & v & Hkv & Hk & Hv').
    apply (placed_plain node k v); [exact Hk | exact Hv'|].
    apply (Hs node d); [|exact Hkv]. unfold bucket_at. now rewrite Hn.
Qed.

#[export] Hint Resolve fill_sorted encrypt_node_sorted : frame.

Lemma replace_first_dummy_sorted next key data entries :
  (forall r', next = Some r' -> placed r' key data) ->
  preserves sorted (replace_first_dummy next key data entries).
Proof.
  intros Hp. induction entries as [|[k v] r IH]; simpl.
  - apply preserves_ret.
  - apply preserves_bind; [frame|]. intros val.
    apply preserves_bind; [frame|]. intros [|]; [|exact IH].
    apply preserves_bind; [frame|]. intros u. now apply set_item_sorted.
Qed.

Lemma insert_at_root_sorted tree_root id data entries :
  right_edge tree_root ->
  preserves sorted (insert_at_root tree_root id data entries).
Proof.
  intros Hroot. induction entries as [|[k v] r IH]; simpl.
  - apply preserves_ret.
  - apply preserves_bind; [frame|]. intros val.
    apply preserves_bind; [frame|]. intros [|]; [|exact IH].
    apply preserves_bind; [frame|]. intros u.
    apply triple_bind with (Q := fun c w => sorted w /\ exists s, decrypt c = String "1" s).
    { intros w Hs. unfold encrypt. split; [now apply stable_encryption|].
      simpl. eauto. }
    intros enc_val. apply triple_pure. intros [s Hv].
    apply preserves_bind; [frame|]. intros enc_key.
    apply preserves_bind; [|intros u'; frame].
    apply set_item_sorted. intros r' [= <-]. right. split; [|exact Hroot].
    rewrite Hv. discriminate.
Qed.

(** The tree as built, with every entry in its place. *)
Definition aligned (w : world) : Prop := built w /\ sorted w.

#[export] Instance aligned_stable : Stable aligned.
Proof.
  split.
  - intros w [H1 H2]. split; [exact H1 | exact H2].
  - intros w [H1 H2]. split; [exact H1 | exact H2].
  - intros r w [H1 H2]. split; [exact H1 | exact H2].
Qed.

#[export] Instance aligned_memory_blind : MemoryBlind aligned.
Proof. intros m w [H1 H2]. split; [exact H1 | exact H2]. Qed.

Lemma del_item_aligned r k : preserves aligned (del_item r k).
Proof. apply preserves_and; frame. Qed.

Lemma add_dummy_aligned r : preserves aligned (add_dummy r).
Proof. apply preserves_and; frame. Qed.

Lemma fill_aligned : preserves aligned _fill_server_with_dummies.
Proof. apply preserves_and; frame. Qed.

Lemma encrypt_node_aligned node : preserves aligned (_encrypt_node node).
Proof. apply preserves_and; frame. Qed.

Lemma replace_first_dummy_aligned next key data entries :
  (forall r', next = Some r' -> placed r' key data) ->
  preserves aligned (replace_first_dummy next key data entries).
Proof.
  intros H. apply preserves_and; [frame | now apply replace_first_dummy_sorted].
Qed.

Lemma insert_at_root_aligned id data entries :
  preserves aligned (insert_at_root (0, 0)%nat id data entries).
Proof.
  apply preserves_and; [frame | now apply insert_at_root_sorted].
Qed.

#[export] Hint Resolve del_item_aligned add_dummy_aligned fill_aligned
  encrypt_node_aligned insert_at_root_aligned : frame.

Lemma right_child_on_edge i j :
  right_edge (i, j) -> right_edge (S i, 2 * j + 1)%nat.
Proof.
  unfold right_edge. simpl. intros ->.
  assert (2 ^ i <> 0)%nat by (apply Nat.pow_nonzero; lia). lia.
Qed.

Lemma py_eqb_int a z : py_eqb a (PyInt z) = true -> a = PyInt z.
Proof.
  destruct a; simpl; try discriminate. intros H. apply Z.eqb_eq in H. now subst.
Qed.

(** The links of a node of the tree as built. *)
Lemma node_of_built prev :
  triple aligned (node_of (Some prev))
    (fun pn w => aligned w
                 /\ forall r', right pn.2 = Some r'
                               -> r' = (S prev.1, 2 * prev.2 + 1)%nat)
    aligned.
Proof.
  intros w Hw. unfold node_of, bind, gets, ret, raise.
  destruct (lookup_node (arr_of w) prev) as [n|] eqn:E; [|exact Hw].
  split; [exact Hw|]. destruct Hw as [(_ & H & _) _].
  destruct prev as [i j]. specialize (H i j). rewrite E in H. simpl in H.
  destruct (decide (i <= height (server w) /\ j < 2 ^ i)%nat); [|discriminate].
  injection H as _ _ Hr. simpl. rewrite Hr.
  destruct (i <? height (server w))%nat; intros r' Hr'; congruence.
Qed.

(** A real entry goes to the right child, a dummy to either: both land
    where they may be. *)
Lemma push_selected_data_aligned key data prev level :
  placed prev key data ->
  preserves aligned (_push_selected_data key data prev level).
Proof.
  intros Hp. unfold _push_selected_data. cbv zeta.
  apply triple_bind with
    (Q := fun first w => aligned w /\ bytes_index (decrypt data) 0 = Return first).
  { apply triple_lift. intros w Hw.
    destruct (bytes_index (decrypt data) 0); [split; auto | exact Hw]. }
  intros first. apply triple_pure. intros Hfirst.
  apply triple_bind with
    (Q := fun direction w =>
            aligned w /\ (py_eqb first (PyInt DUM_VAL) = false
                          -> py_eqb direction (PyInt 0) = false)).
  { destruct (py_eqb first (PyInt DUM_VAL)).
    - apply triple_bind_frame; [frame | auto |]. intros d.
      apply triple_ret. intros w Hw. split; [exact Hw | discriminate].
    - apply triple_bind_frame; [frame | auto |]. intros id.
      apply triple_bind_frame; [frame | auto |]. intros mem.
      destruct (mem !! id) as [[bits tag]|]; [|now apply triple_raise].
      apply triple_lift. intros w Hw. unfold str_index.
      destruct (String.get level bits); [|exact Hw]. split; [exact Hw|].
      reflexivity. }
  intros direction. apply triple_pure. intros Hdir.
  eapply triple_bind; [apply node_of_built|]. intros pn.
  apply triple_pure. intros Hright.
  assert (Hnext : forall r',
             (if py_eqb direction (PyInt 0) then left pn.2 else right pn.2) = Some r'
             -> placed r' key data).
  { intros r' Hr'. destruct Hp as [Hd|[Hnd Hedge]]; [now left|].
    right. split; [exact Hnd|].
    destruct (py_eqb first (PyInt DUM_VAL)) eqn:E.
    { apply py_eqb_int in E. subst first. contradiction. }
    rewrite (Hdir eq_refl) in Hr'. rewrite (Hright r' Hr').
    destruct prev as [i j]. now apply right_child_on_edge. }
  apply preserves_bind; [frame|]. intros u.
  apply preserves_bind; [frame|]. intros u'.
  apply preserves_bind; [frame|]. intros d.
  now apply replace_first_dummy_aligned.
Qed.

(** What is picked from a bucket is in the place where it may be. *)
Lemma pick_entry_aligned node i :
  triple aligned (pick_entry node i)
    (fun e w => aligned w /\ placed node e.1 e.2) aligned.
Proof.
  unfold pick_entry.
  apply triple_bind_frame; [frame | auto |]. intros [d|]; [|now apply triple_raise].
  destruct (py_index (dict_keys d) i) as [[a k]|]; [|now apply triple_raise].
  intros w Hw. rewrite bind_run.
  destruct (get_item_cases (Some node) k w)
    as [(e & w' & E & _)|(r' & d' & v & [= <-] & Hb & Hg & ->)].
  - pose proof (get_item_frame aligned (Some node) k w Hw) as H.
    now rewrite E in *.
  - cbv beta iota. split; [now apply stable_touch|].
    destruct Hw as [_ Hs]. apply (Hs node d'); [exact Hb | now apply dict_get_elem].
Qed.

Lemma rand_and_push_aligned fuel node level :
  preserves aligned (_rand_and_push fuel node level).
Proof.
  unfold _rand_and_push.
  apply preserves_bind; [frame|]. intros bs.
  apply preserves_bind; [frame|]. intros rand1.
  eapply triple_bind; [apply pick_entry_aligned|]. intros e1.
  apply triple_pure. intros H1.
  apply preserves_bind; [frame|]. intros rand2.
  apply preserves_bind; [frame|]. intros rand2'.
  eapply triple_bind; [apply pick_entry_aligned|]. intros e2.
  apply triple_pure. intros H2.
  apply preserves_bind; [now apply push_selected_data_aligned|]. intros u.
  now apply push_selected_data_aligned.
Qed.

#[export] Hint Resolve rand_and_push_aligned : frame.

Lemma push_level_aligned fuel level : preserves aligned (push_level fuel level).
Proof. unfold push_level, get_root. frame. Qed.

#[export] Hint Resolve push_level_aligned : frame.

Lemma push_levels_aligned fuel levels : preserves aligned (push_levels fuel levels).
Proof. induction levels as [|l r IH]; simpl; frame. Qed.

#[export] Hint Resolve push_levels_aligned : frame.

Lemma push_down_aligned fuel : preserves aligned (_push_down fuel).
Proof. unfold _push_down. frame. Qed.

#[export] Hint Resolve push_down_aligned : frame.

Lemma store_data_aligned hmac fuel id data :
  preserves aligned (store_data hmac fuel id data).
Proof.
  unfold store_data, get_root.
  apply preserves_bind; [frame|]. intros mem.
  destruct (decide (is_Some (mem !! id))); [apply preserves_ret|].
  apply triple_bind with (Q := fun r w => aligned w /\ r = (0, 0)%nat).
  { apply triple_ret. auto. }
  intros tree_root. apply triple_pure. intros ->. frame.
Qed.

#[export] Hint Resolve store_data_aligned : frame.

Lemma delete_scan_aligned cur id entries :
  preserves aligned (delete_scan cur id entries).
Proof. induction entries as [|[k v] r IH]; simpl; frame. Qed.

Lemma delete_data_aligned id : preserves aligned (delete_data id).
Proof. apply delete_data_pass; [apply _|]. apply delete_scan_aligned. Qed.

Lemma retrieve_scan_aligned hmac fuel cur id entries :
  preserves aligned (retrieve_scan hmac fuel cur id entries).
Proof. induction entries as [|[k v] r IH]; simpl; frame. Qed.

#[export] Hint Resolve retrieve_scan_aligned : frame.

Lemma retrieve_walk_aligned hmac fuel id path levels cur :
  preserves aligned (retrieve_walk hmac fuel id path levels cur).
Proof. revert cur. induction levels as [|l r IH]; intros cur; simpl; frame. Qed.

#[export] Hint Resolve retrieve_walk_aligned : frame.

Lemma retrieve_data_aligned hmac fuel id :
  preserves aligned (retrieve_data hmac fuel id).
Proof. unfold retrieve_data, get_root. frame. Qed.

Lemma reachable_aligned hmac w : reachable hmac w -> aligned w.
Proof.
  induction 1 as [blocks s k r Hs|fuel id data w _ IH|fuel id w _ IH|id w _ IH
                 |fuel w _ IH].
  - split; [now apply (new_server_built blocks)|].
    destruct (new_server_blank blocks s k r Hs) as [_ Hb].
    intros r0 b k0 v Hr0. unfold bucket_at in Hr0.
    destruct (lookup_node (arr_of (fresh_world s k r)) r0) as [n|] eqn:E;
      [|discriminate].
    rewrite (Hb _ _ E) in Hr0. discriminate.
  - apply preserves_state; [apply store_data_aligned | exact IH].
  - apply preserves_state; [apply retrieve_data_aligned | exact IH].
  - apply preserves_state; [apply delete_data_aligned | exact IH].
  - apply preserves_state; [apply push_down_aligned | exact IH].
Qed.

Lemma elem_of_concat {A} (x : A) (ls : list (list A)) :
  x ∈ concat ls -> exists l, x ∈ l /\ l ∈ ls.
Proof.
  induction ls as [|l r IH]; simpl; intros H.
  - now apply elem_of_nil in H.
  - apply elem_of_app in H as [H|H].
    + exists l. split; [exact H | now left].
    + destruct (IH H) as (l' & H1 & H2). exists l'. split; [exact H1 | now right].
Qed.

Lemma elem_of_concat_intro {A} (x : A) l (ls : list (list A)) :
  x ∈ l -> l ∈ ls -> x ∈ concat ls.
Proof.
  intros Hx. induction ls as [|l' r IH]; intros Hl.
  - now apply elem_of_nil in Hl.
  - simpl. apply elem_of_app. apply elem_of_cons in Hl as [<-|Hl];
      [now left | right; now apply IH].
Qed.

Lemma elem_of_holders id w r :
  r ∈ holders id w ->
  exists n, lookup_node (arr_of w) r = Some n
            /\ (0 < count_in_bucket id (value n))%nat.
Proof.
  unfold holders. intros H. apply elem_of_concat in H as (l & Hr & Hl).
  apply list_elem_of_lookup_1 in Hl as [i Hi]. rewrite list_lookup_imap in Hi.
  destruct (arr_of w !! i) as [lv|] eqn:Ei; [|discriminate].
  injection Hi as <-. apply list_elem_of_omap in Hr as ([j n] & Hx & Hsome).
  apply list_elem_of_lookup_1 in Hx as [j' Hj]. rewrite list_lookup_imap in Hj.
  destruct (lv !! j') as [n'|] eqn:Ej; [|discriminate].
  injection Hj as <- <-. simpl in Hsome.
  destruct (0 <? count_in_bucket id (value n'))%nat eqn:Ec; [|discriminate].
  injection Hsome as <-. exists n'. split.
  - unfold lookup_node. simpl. now rewrite Ei.
  - now apply Nat.ltb_lt.
Qed.

Lemma count_positive id v :
  (0 < count_in_bucket id v)%nat ->
  exists b e, v = Some b /\ e ∈ b /\ is_entry_of id e = true.
Proof.
  unfold count_in_bucket. destruct v as [b|]; simpl; [|lia].
  intros H. destruct (filter (fun e => is_entry_of id e = true) b) as [|e l] eqn:E;
    [simpl in H; lia|].
  assert (He : e ∈ filter (fun e => is_entry_of id e = true) b)
    by (rewrite E; now left).
  apply list_elem_of_filter in He as [H1 H2]. exists b, e. auto.
Qed.

(** In every state that client and server reach, the entries of the ids
    are on the right edge of the tree, whatever leaves the position map
    has for them: a node that holds an entry for an id is the last of its
    level.  In any other node every value reads as a dummy. *)
Theorem entries_stay_on_the_right_edge hmac w id :
  reachable hmac w ->
  Forall right_edge (holders id w)
  /\ forall r b k v,
       bucket_at w r = Some b -> (k, v) ∈ b -> r.2 <> (2 ^ r.1 - 1)%nat ->
       bytes_index (decrypt v) 0 = Return (PyInt DUM_VAL).
Proof.
  intros Hr. destruct (reachable_aligned hmac w Hr) as [_ Hs]. split.
  - apply Forall_forall. intros r Hin.
    apply elem_of_holders in Hin as (n & Hn & Hc).
    apply count_positive in Hc as (b & [k v] & Hv & He & Hk).
    assert (Hb : bucket_at w r = Some b) by (unfold bucket_at; now rewrite Hn).
    destruct (Hs r b k v Hb He) as [[_ Hno]|[_ Hedge]]; [|exact Hedge].
    unfold is_entry_of in Hk. simpl in Hk. apply String.eqb_eq in Hk.
    now destruct (Hno id).
  - intros r b k v Hb Hin Hoff.
    destruct (Hs r b k v Hb Hin) as [[Hd _]|[_ Hedge]]; [exact Hd | contradiction].
Qed.

(** Id 1 on [Server(7)], with the leaf 8 in the position map: the entry is
    in the last node of level 2, the leaf 11. *)
Lemma entries_stay_on_the_right_edge_witness :
  Forall right_edge (holders 1 deep_store.2).
Proof.
  refine (proj1 (entries_stay_on_the_right_edge plain_tag deep_store.2 1 _)).
  unfold deep_store. apply reach_store. apply (reach_fresh plain_tag 7).
  vm_compute. reflexivity.
Defined.

(** *** A delete of a known id

    Either the tree is filled, or nothing was stored yet. *)
Definition ready (w : world) : Prop :=
  shaped w /\ (full w \/ (blank w /\ memory w = ∅)).

Lemma ready_cases {A} (c : M A) :
  preserves shaped c -> preserves full c ->
  triple (fun w => (shaped w /\ blank w) /\ memory w = ∅) c (fun _ => ready) ready ->
  preserves ready c.
Proof.
  intros H1 H2 H3 w [Hs [Hf|[Hb Hm]]].
  - specialize (H1 w Hs). specialize (H2 w Hf).
    destruct (c w) as [[a|e] w']; (split; [exact H1 | left; exact H2]).
  - apply H3. auto.
Qed.

Lemma ready_kept {A} (c : M A) :
  preserves shaped c -> preserves blank c ->
  preserves (fun w => memory w = ∅) c ->
  triple (fun w => (shaped w /\ blank w) /\ memory w = ∅) c (fun _ => ready) ready.
Proof.
  intros H1 H2 H3 w [[Hs Hb] Hm].
  specialize (H1 w Hs). specialize (H2 w Hb). specialize (H3 w Hm).
  destruct (c w) as [[a|e] w']; (split; [exact H1 | right; split; assumption]).
Qed.

Lemma delete_data_ready id : preserves ready (delete_data id).
Proof.
  apply ready_cases; [frame | apply delete_data_full|].
  apply ready_kept; [frame | apply delete_data_blank | frame].
Qed.

Lemma push_down_ready fuel : preserves ready (_push_down fuel).
Proof.
  apply ready_cases; [frame | apply push_down_full|].
  apply ready_kept; [frame | apply push_down_blank | frame].
Qed.

Lemma retrieve_data_ready hmac fuel id : preserves ready (retrieve_data hmac fuel id).
Proof.
  apply ready_cases; [frame | apply retrieve_data_full|].
  intros w [[Hs Hb] Hm]. unfold retrieve_data, path_of, bind, gets.
  rewrite Hm, lookup_empty. split; [exact Hs | right; auto].
Qed.

(** The first store fills the tree. *)
Lemma store_data_ready hmac fuel id data :
  preserves ready (store_data hmac fuel id data).
Proof.
  apply ready_cases; [frame | apply store_data_full|].
  unfold store_data, get_root.
  apply triple_bind with
    (Q := fun m w => ((shaped w /\ blank w) /\ memory w = ∅) /\ m = ∅).
  { apply triple_gets. intros w H. split; [exact H | apply H]. }
  intros m. apply triple_pure. intros ->.
  destruct (decide (is_Some ((∅ : gmap Z (string * string)) !! id))) as [[x Hx]|_].
  { rewrite lookup_empty in Hx. discriminate. }
  apply triple_bind with
    (Q := fun r w => ((shaped w /\ blank w) /\ memory w = ∅) /\ r = (0, 0)%nat).
  { apply triple_ret. auto. }
  intros tree_root. apply triple_pure. intros ->.
  intros w [[Hs Hb] Hm]. rewrite bind_run.
  pose proof Hs as (_ & _ & [n Hn]).
  rewrite (read_value_run _ n w Hn), (Hb _ _ Hn). cbv beta iota.
  rewrite bind_run.
  pose proof (fill_fills (record_touch (0, 0)%nat w)) as Hfill.
  pose proof (fill_frame shaped (record_touch (0, 0)%nat w)) as Hshape.
  destruct (_fill_server_with_dummies (record_touch (0, 0)%nat w)) as [[[]|e] w1].
  2:{ exfalso. apply Hfill. split; [now apply stable_touch | exact Hb]. }
  assert (Hf : full w1).
  { apply Hfill. split; [now apply stable_touch | exact Hb]. }
  assert (Hs1 : shaped w1) by (apply Hshape; now apply stable_touch).
  cbv beta iota.
  match goal with
  | |- match ?c ?w with _ => _ end =>
      assert (Hrest : preserves (fun w => shaped w /\ full w) c);
        [apply preserves_and; frame|];
      specialize (Hrest w (conj Hs1 Hf));
      destruct (c w) as [[a|e] w2]; (split; [apply Hrest | left; apply Hrest])
  end.
Qed.

Lemma reachable_ready hmac w : reachable hmac w -> ready w.
Proof.
  induction 1 as [blocks s k r Hs|fuel id data w _ IH|fuel id w _ IH|id w _ IH
                 |fuel w _ IH].
  - destruct (new_server_blank blocks s k r Hs) as [H1 H2].
    split; [exact H1 | right; split; [exact H2 | reflexivity]].
  - apply preserves_state; [apply store_data_ready | exact IH].
  - apply preserves_state; [apply retrieve_data_ready | exact IH].
  - apply preserves_state; [apply delete_data_ready | exact IH].
  - apply preserves_state; [apply push_down_ready | exact IH].
Qed.

(** Every record of the position map has the label of a leaf: [height + 2]
    binary digits. *)
Definition mapped (w : world) : Prop :=
  forall id bits tag, memory w !! id = Some (bits, tag) ->
    String.length bits = (height (server w) + 2)%nat.

Definition charted (w : world) : Prop := built w /\ mapped w.

#[export] Instance charted_stable : Stable charted.
Proof.
  split.
  - intros w [H1 H2]. split; [exact H1 | exact H2].
  - intros w [H1 H2]. split; [exact H1 | exact H2].
  - intros r w [H1 H2]. split; [exact H1 | exact H2].
Qed.

#[export] Instance charted_assign_safe : AssignSafe charted.
Proof. intros r v w [H1 H2]. split; [now apply assign_safe | exact H2]. Qed.

Lemma forget_charted id : preserves charted (forget id).
Proof.
  intros w [Hb Hm]. rewrite forget_run.
  destruct (memory w !! id); [|split; assumption].
  split; [exact Hb|]. intros id' bits tag Hl. simpl in Hl.
  apply lookup_delete_Some in Hl as [_ Hl]. exact (Hm id' bits tag Hl).
Qed.

Lemma store_data_charted hmac fuel id data :
  preserves charted (store_data hmac fuel id data).
Proof.
  unfold store_data, get_root.
  apply preserves_bind; [frame|]. intros mem.
  destruct (decide (is_Some (mem !! id))); [apply preserves_ret|].
  apply preserves_bind; [frame|]. intros tree_root.
  apply preserves_bind; [frame|]. intros v.
  apply preserves_bind; [destruct v; frame|]. intros u.
  apply preserves_bind; [frame|]. intros k. cbv zeta.
  apply triple_bind with (Q := fun x w => charted w /\ x = leaf_min (server w)).
  { apply triple_gets. auto. }
  intros lmin.
  set (P2 := fun lmax w => charted w /\ lmin = leaf_min (server w)
                           /\ lmax = leaf_max (server w)).
  apply triple_bind with (Q := P2).
  { apply triple_gets. intros w [H1 H2]. split; [exact H1 | split; [exact H2 | reflexivity]]. }
  intros lmax.
  assert (HS : Stable (P2 lmax)).
  { split.
    - intros w (H1 & H2 & H3). split; [now apply stable_encryption | auto].
    - intros w (H1 & H2 & H3). split; [now apply stable_draw | auto].
    - intros r w (H1 & H2 & H3). split; [now apply (stable_touch r) | auto]. }
  eapply triple_bind;
    [apply (@randint_range (P2 lmax) HS lmin lmax charted); intros w H; apply H|].
  intros leaf.
  apply triple_bind with (Q := fun _ => charted).
  { apply triple_modify. intros w [([Hb Hm] & Hmin & Hmax) Hleaf]. split; [exact Hb|].
    intros id' bits tag Hl. simpl in Hl.
    change (height (server (with_memory w (<[id:=(bin_tail leaf, hmac k (str id ++ data)%string)]> (memory w)))))
      with (height (server w)).
    destruct (decide (id' = id)) as [->|Hne].
    - rewrite lookup_insert_eq in Hl. injection Hl as <- _.
      apply bin_tail_of_leaf. destruct Hb as (_ & _ & _ & H4 & H5).
      rewrite <- H4, <- H5, <- Hmin, <- Hmax. exact Hleaf.
    - rewrite lookup_insert_ne in Hl by congruence. exact (Hm id' bits tag Hl). }
  intros u'. frame.
Qed.

#[export] Hint Resolve forget_charted store_data_charted : frame.

Lemma retrieve_scan_charted hmac fuel cur id entries :
  preserves charted (retrieve_scan hmac fuel cur id entries).
Proof. induction entries as [|[k v] r IH]; simpl; frame. Qed.

#[export] Hint Resolve retrieve_scan_charted : frame.

Lemma retrieve_walk_charted hmac fuel id path levels cur :
  preserves charted (retrieve_walk hmac fuel id path levels cur).
Proof. revert cur. induction levels as [|l r IH]; intros cur; simpl; frame. Qed.

#[export] Hint Resolve retrieve_walk_charted : frame.

Lemma retrieve_data_charted hmac fuel id :
  preserves charted (retrieve_data hmac fuel id).
Proof. unfold retrieve_data, get_root. frame. Qed.

Lemma reachable_charted hmac w : reachable hmac w -> charted w.
Proof.
  induction 1 as [blocks s k r Hs|fuel id data w _ IH|fuel id w _ IH|id w _ IH
                 |fuel w _ IH].
  - split; [now apply (new_server_built blocks)|].
    intros id bits tag Hl. simpl in Hl. rewrite lookup_empty in Hl. discriminate.
  - apply preserves_state; [apply store_data_charted | exact IH].
  - apply preserves_state; [apply retrieve_data_charted | exact IH].
  - apply preserves_state; [frame | exact IH].
  - apply preserves_state; [frame | exact IH].
Qed.

Lemma dict_del_keys k d : k ∈ dict_keys d -> is_Some (dict_del k d).
Proof.
  unfold dict_keys. induction d as [|[k' v'] r IH]; simpl; intros H.
  - now apply elem_of_nil in H.
  - destruct (decide (k' = k)) as [->|Hne]; [eauto|].
    apply elem_of_cons in H as [H|H]; [congruence|].
    destruct (IH H) as [r' ->]. eauto.
Qed.

Lemma del_item_returns r k d w :
  bucket_at w r = Some d -> k ∈ dict_keys d ->
  exists d', del_item (Some r) k w = (Return tt, assigned r (Some d') w).
Proof.
  intros Hb Hk. unfold bucket_at in Hb.
  destruct (lookup_node (arr_of w) r) as [n|] eqn:En; [|discriminate].
  destruct (dict_del_keys k d Hk) as [d' Hd]. exists d'.
  unfold del_item, node_of, bind, gets, ret. rewrite En. simpl.
  rewrite Hb, Hd. reflexivity.
Qed.

Lemma set_item_returns r k v w :
  is_Some (bucket_at w r) ->
  exists w', set_item (Some r) k v w = (Return tt, w')
             /\ trace w' = r :: trace w.
Proof.
  intros [d Hb]. unfold bucket_at in Hb.
  destruct (lookup_node (arr_of w) r) as [n|] eqn:En; [|discriminate].
  unfold set_item, node_of, bind, gets, ret. rewrite En. simpl. rewrite Hb.
  eexists. split; reflexivity.
Qed.

Lemma add_dummy_returns r w :
  is_Some (bucket_at w r) ->
  exists w', add_dummy (Some r) w = (Return tt, w')
             /\ trace w' = r :: trace w.
Proof.
  intros Hb. destruct (add_dummy_run (Some r) w) as (s & _ & ->).
  apply (set_item_returns r _ _
           (count_encryption (with_draws (count_encryption w) (draws w + 3)))).
  exact Hb.
Qed.

(** The scan of a bucket returns; it finds nothing exactly when the bucket
    has no entry of the id, and then it changes nothing; when it finds
    the entry, it touches the node three times: for the read of the
    value, for the [del] and for the dummy. *)
Lemma delete_scan_returns r id d entries w :
  bucket_at w r = Some d -> (forall e, e ∈ entries -> e.1 ∈ dict_keys d) ->
  exists res w',
    delete_scan (Some r) id entries w = (Return res, w')
    /\ (res = None <-> count_in_bucket id (Some entries) = 0%nat)
    /\ match res with
       | None => w' = w
       | Some _ => trace w' = r :: r :: r :: trace w
       end.
Proof.
  intros Hb. induction entries as [|[k v] rest IH]; intros Hsub.
  - exists None, w.
    split; [reflexivity | split; [split; intros _; reflexivity | reflexivity]].
  - simpl. rewrite count_in_cons. cbn [fst]. unfold entry_weight, is_entry_of.
    cbn [fst]. destruct (String.eqb (decrypt k) (str id)).
    + destruct (dict_get_keys k d) as [v' Hv']; [apply (Hsub (k, v)); now left|].
      rewrite bind_run, (get_item_run r d k v' w Hb Hv'). cbv beta iota zeta.
      set (w0 := record_touch r w).
      assert (Hb0 : bucket_at w0 r = Some d) by exact Hb.
      destruct (del_item_returns r k d w0 Hb0) as [d' Hdel].
      { apply (Hsub (k, v)). now left. }
      rewrite bind_run, Hdel. cbv beta iota.
      destruct (add_dummy_returns r (assigned r (Some d') w0)) as (w2 & Hadd & Ht).
      { rewrite bucket_at_assigned, decide_True
          by (reflexivity
              || (unfold bucket_at in Hb0;
                  destruct (lookup_node (arr_of w0) r); [eauto | discriminate])).
        eauto. }
      rewrite bind_run, Hadd. cbv beta iota.
      exists (Some (tail (decrypt v'))), w2. split; [reflexivity|].
      split; [split; [discriminate | lia] | exact Ht].
    + destruct IH as (res & w' & Hrun & Hiff & Hsame).
      { intros e He. apply Hsub. now right. }
      exists res, w'. split; [exact Hrun|]. split; [|exact Hsame].
      rewrite Hiff. simpl. reflexivity.
Qed.

(** The last node of level [l]. *)
Definition edge (l : nat) : nat * nat := (l, 2 ^ l - 1)%nat.

Lemma edge_next l : (S l, 2 * (2 ^ l - 1) + 1)%nat = edge (S l).
Proof.
  unfold edge. f_equal. assert (2 ^ l <> 0)%nat by (apply Nat.pow_nonzero; lia).
  simpl. lia.
Qed.

Lemma string_get_lt i s : (i < String.length s)%nat -> is_Some (String.get i s).
Proof.
  revert i. induction s as [|c s IH]; intros i H; simpl in H; [lia|].
  destruct i as [|i]; simpl; [eauto|]. apply IH. lia.
Qed.

(** What a walk over the levels [l .. l + n - 1] touches: all of them when
    it finds nothing, and else the levels down to the one with the entry,
    and that one three times more. *)
Definition walk_touches (l n : nat) (res : option string) (t : list (nat * nat))
    : Prop :=
  match res with
  | None => t = edge <$> seq l n
  | Some _ => exists m, (l <= m < l + n)%nat
                        /\ t = (edge <$> seq l (S m - l))
                               ++ [edge m; edge m; edge m]
  end.

(** With the right child at every level, the walk reads the right edge
    from the top. *)
Lemma delete_walk_returns id path n : forall l w,
  built w -> full w -> (l + n = S (height (server w)))%nat ->
  String.length path = S (height (server w)) ->
  exists res w' t,
    delete_walk id path (seq l n) (Some (edge l)) w = (Return res, w')
    /\ (res = None
        <-> forall l', (l <= l' < l + n)%nat ->
                       count_in_bucket id (bucket_at w (edge l')) = 0%nat)
    /\ trace w' = rev t ++ trace w /\ walk_touches l n res t.
Proof.
  induction n as [|n IH]; intros l w Hb Hf Hln Hp.
  - exists None, w, []. split; [reflexivity|].
    split; [split; [intros _ l' Hl'; lia | reflexivity]|].
    split; reflexivity.
  - assert (Hnode : is_Some (lookup_node (arr_of w) (edge l))).
    { apply built_lookup; [exact Hb|]. split; [lia|].
      assert (2 ^ l <> 0)%nat by (apply Nat.pow_nonzero; lia). lia. }
    destruct Hnode as [nd Hnd].
    destruct (tidy_len _ _ _ Hf (edge l) nd _ Hnd eq_refl) as (b & Hv & _).
    assert (Hbucket : bucket_at w (edge l) = Some b).
    { unfold bucket_at. now rewrite Hnd. }
    cbn [seq delete_walk]. rewrite bind_run.
    unfold value_dict. rewrite bind_run, (read_value_run _ nd w Hnd), Hv.
    cbv beta iota. change (ret b (record_touch (edge l) w))
      with (Return b, record_touch (edge l) w). cbv beta iota.
    set (w1 := record_touch (edge l) w).
    destruct (delete_scan_returns (edge l) id b b w1 Hbucket)
      as (res & w' & Hscan & Hiff & Hsame).
    { intros e He. unfold dict_keys. apply list_elem_of_fmap. eauto. }
    rewrite bind_run, Hscan. cbv beta iota.
    destruct res as [data|].
    + exists (Some data), w', [edge l; edge l; edge l; edge l].
      split; [reflexivity|].
      split; [|split].
      * split; [discriminate|]. intros Hall. apply Hiff.
        rewrite <- Hbucket. apply Hall. lia.
      * rewrite Hsame. reflexivity.
      * exists l. split; [lia|]. replace (S l - l)%nat with 1%nat by lia.
        reflexivity.
    + subst w'.
      assert (Hzero : count_in_bucket id (bucket_at w (edge l)) = 0%nat).
      { rewrite Hbucket. now apply Hiff. }
      destruct (string_get_lt l path) as [c Hc]; [lia|].
      assert (Hdesc : descend (Some (edge l)) path l w1 = (Return (right nd), w1)).
      { unfold descend, node_of, bind, gets, lift, ret, str_index.
        change (arr_of w1) with (arr_of w). rewrite Hnd. simpl. rewrite Hc.
        reflexivity. }
      rewrite bind_run, Hdesc. cbv beta iota.
      destruct n as [|n'].
      * exists None, w1, [edge l]. split; [reflexivity|]. split; [|split; reflexivity].
        split; [|reflexivity].
        intros _ l' Hl'. replace l' with l by lia. exact Hzero.
      * assert (Hr : right nd = Some (edge (S l))).
        { pose proof Hb as (_ & Hlinks & _). specialize (Hlinks l (2 ^ l - 1)%nat).
          change (l, 2 ^ l - 1)%nat with (edge l) in Hlinks.
          rewrite Hnd in Hlinks. simpl in Hlinks.
          destruct (decide (l <= height (server w) /\ 2 ^ l - 1 < 2 ^ l)%nat);
            [|discriminate].
          injection Hlinks as _ _ Hright. rewrite Hright.
          assert (Hlt : (l <? height (server w))%nat = true)
            by (apply Nat.ltb_lt; lia).
          rewrite Hlt. f_equal. apply edge_next. }
        rewrite Hr.
        destruct (IH (S l) w1) as (res & w2 & t & Hrun & Hres & Ht & Hshape).
        { now apply stable_touch. }
        { now apply stable_touch. }
        { change (height (server w1)) with (height (server w)). lia. }
        { exact Hp. }
        exists res, w2, (edge l :: t). split; [exact Hrun|]. split; [|split].
        -- rewrite Hres. split.
           ++ intros Hall l' Hl'. destruct (decide (l' = l)) as [->|Hne];
                [exact Hzero|]. apply (Hall l'). lia.
           ++ intros Hall l' Hl'. apply (Hall l'). lia.
        -- rewrite Ht. simpl. now rewrite <- app_assoc.
        -- destruct res as [data|].
           ++ destruct Hshape as (m & Hm & ->). exists m. split; [lia|].
              replace (S m - l)%nat with (S (S m - S l)) by lia. reflexivity.
           ++ simpl in Hshape. subst t. reflexivity.
Qed.

Lemma count_node_le id w r n :
  lookup_node (arr_of w) r = Some n ->
  (count_in_bucket id (value n) <= count_id id w)%nat.
Proof.
  intros H. pose proof (count_assigned id r None w n H) as Hc.
  change (count_in_bucket id None) with 0%nat in Hc. lia.
Qed.

(** With every entry in its place, the tree holds an entry of the id
    exactly when the right edge does. *)
Lemma count_on_the_edge id w :
  built w -> sorted w ->
  count_id id w = 0%nat
  <-> forall l', (0 <= l' < 0 + S (height (server w)))%nat ->
                 count_in_bucket id (bucket_at w (edge l')) = 0%nat.
Proof.
  intros Hb Hs. split.
  - intros Hz l' Hl'. unfold bucket_at.
    destruct (lookup_node (arr_of w) (edge l')) as [n|] eqn:E; [|reflexivity].
    pose proof (count_node_le id w _ n E). lia.
  - intros Hall. unfold count_id.
    apply sum_list_zero, Forall_fmap, Forall_concat.
    apply Forall_lookup. intros a lv Ha. apply Forall_lookup. intros j n Hn.
    assert (Hl : lookup_node (arr_of w) (a, j) = Some n).
    { unfold lookup_node. simpl. now rewrite Ha. }
    simpl. destruct (decide (j = 2 ^ a - 1)%nat) as [->|Hoff].
    + assert (Ha' : (a <= height (server w))%nat).
      { apply (built_lookup w a (2 ^ a - 1)%nat Hb). eauto. }
      specialize (Hall a ltac:(lia)). unfold bucket_at, edge in Hall.
      now rewrite Hl in Hall.
    + destruct (count_in_bucket id (value n)) eqn:Ec; [reflexivity|].
      destruct (count_positive id (value n)) as (b & [k v] & Hv & He & Hk); [lia|].
      assert (Hbk : bucket_at w (a, j) = Some b)
        by (unfold bucket_at; now rewrite Hl).
      destruct (Hs (a, j) b k v Hbk He) as [[_ Hno]|[_ Hedge]].
      * unfold is_entry_of in Hk. simpl in Hk. apply String.eqb_eq in Hk.
        now destruct (Hno id).
      * now destruct Hoff.
Qed.

Lemma string_length_tail s : String.length (tail s) = (String.length s - 1)%nat.
Proof. destruct s; simpl; lia. Qed.

(** In a state that client and server have reached, [delete_data] of an
    id of the position map returns, whatever leaf the map has for the id;
    it returns [None] exactly when the tree holds no entry for the id. *)
Theorem delete_data_finds_what_the_tree_holds hmac id w :
  reachable hmac w -> is_Some (memory w !! id) ->
  exists res w',
    delete_data id w = (Return res, w')
    /\ (res = PyNone <-> count_id id w = 0%nat).
Proof.
  intros Hr [[bits tag] Hm].
  destruct (reachable_aligned hmac w Hr) as [Hb Hs].
  destruct (reachable_charted hmac w Hr) as [_ Hmap].
  destruct (reachable_ready hmac w Hr) as [_ [Hf|[_ Hempty]]].
  2:{ rewrite Hempty, lookup_empty in Hm. discriminate. }
  specialize (Hmap id bits tag Hm).
  assert (Hlen : String.length (tail bits) = S (height (server w))).
  { rewrite string_length_tail. lia. }
  destruct (delete_walk_returns id (tail bits) (S (height (server w))) 0%nat w
              Hb Hf eq_refl Hlen) as (res & w' & t & Hrun & Hres & _).
  assert (Hd : delete_data id w
               = (Return match res with
                         | Some data => PyBytes data
                         | None => PyNone
                         end, w')).
  { unfold delete_data, path_of, get_root, bind, gets, ret. rewrite Hm.
    cbv beta iota. rewrite Hlen. change (0, 0)%nat with (edge 0). rewrite Hrun.
    now destruct res. }
  rewrite Hd. eexists _, w'. split; [reflexivity|].
  rewrite (count_on_the_edge id w Hb Hs), <- Hres.
  destruct res as [data|]; split; (discriminate || reflexivity).
Qed.

(** Id 1 after its store on [Server(7)]. *)
Lemma delete_data_finds_what_the_tree_holds_witness :
  exists res w',
    delete_data 1 deep_store.2 = (Return res, w')
    /\ (res = PyNone <-> count_id 1 deep_store.2 = 0%nat).
Proof.
  apply (delete_data_finds_what_the_tree_holds plain_tag 1 deep_store.2).
  - unfold deep_store. apply reach_store. apply (reach_fresh plain_tag 7).
    vm_compute. reflexivity.
  - exists (memory deep_store.2 !!! 1). vm_compute. reflexivity.
Defined.

(** In a state that client and server have reached, what the server sees
    of a [delete_data] that returns is a walk down the right edge from the
    root, whatever the id and whatever leaf the position map has for it:
    all [height + 1] levels when nothing is found, and else the levels
    down to the one with the entry, and that node three times more, for
    the read of the value, for the [del] and for the new dummy. *)
Theorem delete_data_walks_down_the_right_edge hmac id w res w' :
  reachable hmac w -> delete_data id w = (Return res, w') ->
  match res with
  | PyNone => touched_since w w' = edge <$> seq 0 (S (height (server w)))
  | _ => exists m, (m <= height (server w))%nat
                   /\ touched_since w w'
                      = (edge <$> seq 0 (S m)) ++ [edge m; edge m; edge m]
  end.
Proof.
  intros Hr Hrun0.
  destruct (memory w !! id) as [[bits tag]|] eqn:Hm.
  2:{ unfold delete_data, path_of, bind, gets in Hrun0. rewrite Hm in Hrun0.
      discriminate. }
  destruct (reachable_aligned hmac w Hr) as [Hb Hs].
  destruct (reachable_charted hmac w Hr) as [_ Hmap].
  destruct (reachable_ready hmac w Hr) as [_ [Hf|[_ Hempty]]].
  2:{ rewrite Hempty, lookup_empty in Hm. discriminate. }
  specialize (Hmap id bits tag Hm).
  assert (Hlen : String.length (tail bits) = S (height (server w))).
  { rewrite string_length_tail. lia. }
  destruct (delete_walk_returns id (tail bits) (S (height (server w))) 0%nat w
              Hb Hf eq_refl Hlen) as (r & w2 & t & Hrun & _ & Ht & Hshape).
  assert (Hd : delete_data id w
               = (Return match r with
                         | Some data => PyBytes data
                         | None => PyNone
                         end, w2)).
  { unfold delete_data, path_of, get_root, bind, gets, ret. rewrite Hm.
    cbv beta iota. rewrite Hlen. change (0, 0)%nat with (edge 0). rewrite Hrun.
    now destruct r. }
  rewrite Hd in Hrun0. injection Hrun0 as <- <-.
  rewrite (touched_since_app w w2 (rev t) Ht), rev_involutive.
  destruct r as [data|]; simpl in Hshape.
  - destruct Hshape as (m & Hm' & ->). exists m. split; [lia | reflexivity].
  - exact Hshape.
Qed.

(** The delete of id 1 on [Server(7)], where the entry is at level 2. *)
Lemma delete_data_walks_down_the_right_edge_witness :
  exists m, (m <= height (server deep_store.2))%nat
            /\ touched_since deep_store.2 (delete_data 1 deep_store.2).2
               = (edge <$> seq 0 (S m)) ++ [edge m; edge m; edge m].
Proof.
  apply (delete_data_walks_down_the_right_edge plain_tag 1 deep_store.2
           (PyBytes "aaaa") (delete_data 1 deep_store.2).2).
  - unfold deep_store. apply reach_store. apply (reach_fresh plain_tag 7).
    vm_compute. reflexivity.
  - rewrite (surjective_pairing (delete_data 1 deep_store.2)) at 1.
    apply pair_equal_spec. split; [vm_compute; reflexivity | reflexivity].
Defined.

(** The scan of [retrieve_data] finds nothing, and changes nothing, when
    the bucket has no entry of the id; when it has one, the scan does not
    come back with nothing. *)
Lemma retrieve_scan_misses hmac fuel cur id entries w :
  (count_in_bucket id (Some entries) = 0%nat
   /\ retrieve_scan hmac fuel cur id entries w = (Return None, w))
  \/ ((0 < count_in_bucket id (Some entries))%nat
      /\ forall w', retrieve_scan hmac fuel cur id entries w <> (Return None, w')).
Proof.
  induction entries as [|[k v] rest IH].
  - left. split; reflexivity.
  - simpl. rewrite count_in_cons. cbn [fst]. unfold entry_weight, is_entry_of.
    cbn [fst]. destruct (String.eqb (decrypt k) (str id)).
    + right. split; [lia|]. intros w'. unfold bind.
      destruct (get_item cur k w) as [[v'|e] w0]; [|discriminate].
      destruct (del_item cur k w0) as [[[]|e] w1]; [|discriminate].
      destruct (add_dummy cur w1) as [[[]|e] w2]; [|discriminate].
      destruct (forget id w2) as [[[]|e] w3]; [|discriminate].
      destruct (store_data hmac fuel id (tail (decrypt v')) w3) as [[r|e] w4];
        discriminate.
    + exact IH.
Qed.

Lemma retrieve_walk_misses hmac fuel id path n : forall l w,
  built w -> full w -> (l + n = S (height (server w)))%nat ->
  String.length path = S (height (server w)) ->
  ((forall l', (l <= l' < l + n)%nat ->
               count_in_bucket id (bucket_at w (edge l')) = 0%nat)
   /\ exists w',
        retrieve_walk hmac fuel id path (seq l n) (Some (edge l)) w
        = (Return None, w'))
  \/ ((exists l', (l <= l' < l + n)%nat
                  /\ (0 < count_in_bucket id (bucket_at w (edge l')))%nat)
      /\ forall w',
           retrieve_walk hmac fuel id path (seq l n) (Some (edge l)) w
           <> (Return None, w')).
Proof.
  induction n as [|n IH]; intros l w Hb Hf Hln Hp.
  - left. split; [intros l' Hl'; lia|]. exists w. reflexivity.
  - assert (Hnode : is_Some (lookup_node (arr_of w) (edge l))).
    { apply built_lookup; [exact Hb|]. split; [lia|].
      assert (2 ^ l <> 0)%nat by (apply Nat.pow_nonzero; lia). lia. }
    destruct Hnode as [nd Hnd].
    destruct (tidy_len _ _ _ Hf (edge l) nd _ Hnd eq_refl) as (b & Hv & _).
    assert (Hbucket : bucket_at w (edge l) = Some b).
    { unfold bucket_at. now rewrite Hnd. }
    cbn [seq retrieve_walk]. rewrite bind_run.
    unfold value_dict. rewrite bind_run, (read_value_run _ nd w Hnd), Hv.
    cbv beta iota. change (ret b (record_touch (edge l) w))
      with (Return b, record_touch (edge l) w). cbv beta iota.
    set (w1 := record_touch (edge l) w).
    rewrite bind_run.
    destruct (retrieve_scan_misses hmac fuel (Some (edge l)) id b w1)
      as [[Hzero Hscan]|[Hpos Hscan]].
    2:{ right. split.
        - exists l. split; [lia|]. now rewrite Hbucket.
        - intros w'.
          destruct (retrieve_scan hmac fuel (Some (edge l)) id b w1)
            as [[[data|]|e] w2]; try discriminate.
          now destruct (Hscan w2). }
    rewrite Hscan. cbv beta iota. rewrite <- Hbucket in Hzero.
    destruct (string_get_lt l path) as [c Hc]; [lia|].
    assert (Hdesc : descend (Some (edge l)) path l w1 = (Return (right nd), w1)).
    { unfold descend, node_of, bind, gets, lift, ret, str_index.
      change (arr_of w1) with (arr_of w). rewrite Hnd. simpl. rewrite Hc.
      reflexivity. }
    rewrite bind_run, Hdesc. cbv beta iota.
    destruct n as [|n'].
    + left. split; [|exists w1; reflexivity].
      intros l' Hl'. replace l' with l by lia. exact Hzero.
    + assert (Hr : right nd = Some (edge (S l))).
      { pose proof Hb as (_ & Hlinks & _). specialize (Hlinks l (2 ^ l - 1)%nat).
        change (l, 2 ^ l - 1)%nat with (edge l) in Hlinks.
        rewrite Hnd in Hlinks. simpl in Hlinks.
        destruct (decide (l <= height (server w) /\ 2 ^ l - 1 < 2 ^ l)%nat);
          [|discriminate].
        injection Hlinks as _ _ Hright. rewrite Hright.
        assert (Hlt : (l <? height (server w))%nat = true)
          by (apply Nat.ltb_lt; lia).
        rewrite Hlt. f_equal. apply edge_next. }
      rewrite Hr.
      destruct (IH (S l) w1) as [[Hall Hrun]|[(l' & Hl' & Hpos) Hrun]].
      { now apply stable_touch. }
      { now apply stable_touch. }
      { change (height (server w1)) with (height (server w)). lia. }
      { exact Hp. }
      * left. split; [|exact Hrun]. intros l' Hl'.
        destruct (decide (l' = l)) as [->|Hne]; [exact Hzero|]. apply (Hall l'). lia.
      * right. split; [|exact Hrun]. exists l'. split; [lia | exact Hpos].
Qed.

(** In a state that client and server have reached, [retrieve_data] of an
    id of the position map returns [None] exactly when the tree holds no
    entry for the id: an entry that is there is never missed, whatever
    leaf the map has for the id. *)
Theorem retrieve_data_misses_only_what_is_gone hmac fuel id w :
  reachable hmac w -> is_Some (memory w !! id) ->
  (exists w', retrieve_data hmac fuel id w = (Return PyNone, w'))
  <-> count_id id w = 0%nat.
Proof.
  intros Hr [[bits tag] Hm].
  destruct (reachable_aligned hmac w Hr) as [Hb Hs].
  destruct (reachable_charted hmac w Hr) as [_ Hmap].
  destruct (reachable_ready hmac w Hr) as [_ [Hf|[_ Hempty]]].
  2:{ rewrite Hempty, lookup_empty in Hm. discriminate. }
  specialize (Hmap id bits tag Hm).
  assert (Hlen : String.length (tail bits) = S (height (server w))).
  { rewrite string_length_tail. lia. }
  rewrite (count_on_the_edge id w Hb Hs).
  assert (Hd : retrieve_data hmac fuel id w
               = (data <- retrieve_walk hmac fuel id (tail bits)
                            (seq 0 (S (height (server w)))) (Some (edge 0)) ;;
                  match data with
                  | None => ret PyNone
                  | Some data =>
                      if negb (String.length data =? DATA_LEN)%nat
                      then ret (PyStr INVALID_DATA)
                      else
                        k <- gets key ;;
                        mem <- gets memory ;;
                        match mem !! id with
                        | None => raise KeyError
                        | Some (_, tag) =>
                            if String.eqb (hmac k (str id ++ data)%string) tag
                            then ret (PyStr data)
                            else ret (PyStr CORRUPTED)
                        end
                  end) w).
  { unfold retrieve_data, path_of, get_root. rewrite bind_run.
    unfold bind at 1, gets at 1. rewrite Hm. cbv beta iota.
    change (ret (tail bits) w) with (Return (tail bits), w). cbv beta iota.
    rewrite bind_run. change (ret (0, 0)%nat w) with (Return (edge 0), w).
    cbv beta iota. rewrite Hlen. reflexivity. }
  rewrite Hd, bind_run.
  destruct (retrieve_walk_misses hmac fuel id (tail bits) (S (height (server w)))
              0%nat w Hb Hf eq_refl Hlen)
    as [[Hall [w1 Hrun]]|[(l' & Hl' & Hpos) Hrun]].
  - rewrite Hrun. cbv beta iota. split; [intros _; exact Hall|].
    intros _. exists w1. reflexivity.
  - split.
    + intros [w' Hret]. exfalso.
      destruct (retrieve_walk hmac fuel id (tail bits)
                  (seq 0 (S (height (server w)))) (Some (edge 0)) w)
        as [[[data|]|e] w2]; cbv beta iota in Hret.
      * destruct (negb (String.length data =? DATA_LEN)%nat); [discriminate|].
        unfold bind, gets in Hret.
        destruct (memory w2 !! id) as [[b t]|]; [|discriminate].
        destruct (String.eqb (hmac (key w2) (str id ++ data)%string) t);
          discriminate.
      * now destruct (Hrun w2).
      * discriminate.
    + intros Hall. specialize (Hall l' Hl'). lia.
Qed.

(** Id 1 after its store on [Server(7)]. *)
Lemma retrieve_data_misses_only_what_is_gone_witness :
  (exists w', retrieve_data plain_tag 3 1 deep_store.2 = (Return PyNone, w'))
  <-> count_id 1 deep_store.2 = 0%nat.
Proof.
  apply (retrieve_data_misses_only_what_is_gone plain_tag 3 1 deep_store.2).
  - unfold deep_store. apply reach_store. apply (reach_fresh plain_tag 7).
    vm_compute. reflexivity.
  - exists (memory deep_store.2 !!! 1). vm_compute. reflexivity.
Defined.

(** *** How many ids the tree can hold *)

Lemma sum_list_positive l : (0 < sum_list l)%nat -> exists x, x ∈ l /\ (0 < x)%nat.
Proof.
  induction l as [|x r IH]; simpl; [lia|]. intros H.
  destruct x as [|x].
  - destruct IH as (y & Hy & Hpos); [simpl in H; lia|].
    exists y. split; [now right | exact Hpos].
  - exists (S x). split; [now left | lia].
Qed.

Lemma count_id_positive id w :
  (0 < count_id id w)%nat ->
  exists r b e, bucket_at w r = Some b /\ e ∈ b /\ is_entry_of id e = true.
Proof.
  unfold count_id. intros H. apply sum_list_positive in H as (x & Hx & Hpos).
  apply list_elem_of_fmap in Hx as (n & -> & Hn).
  apply elem_of_concat in Hn as (lv & Hn & Hlv).
  apply list_elem_of_lookup_1 in Hlv as [a Ha].
  apply list_elem_of_lookup_1 in Hn as [j Hj].
  apply count_positive in Hpos as (b & e & Hv & He & Hk).
  exists (a, j), b, e. split; [|auto].
  unfold bucket_at, lookup_node. simpl. now rewrite Ha, Hj.
Qed.

(** The plaintext keys in the buckets of the right edge, level by level. *)
Definition keys_on_the_edge (w : world) : list string :=
  concat ((fun l => (fun e : ciphertext * ciphertext => decrypt e.1)
                      <$> default [] (bucket_at w (edge l)))
            <$> seq 0 (S (height (server w)))).

Lemma length_concat_bound {A} (ll : list (list A)) m :
  Forall (fun l => (length l <= m)%nat) ll ->
  (length (concat ll) <= m * length ll)%nat.
Proof.
  induction 1 as [|l r Hl _ IH]; simpl; [lia|]. rewrite length_app. lia.
Qed.

Lemma length_keys_on_the_edge w :
  settled w ->
  (length (keys_on_the_edge w) <= BUCKET_SIZE * S (height (server w)))%nat.
Proof.
  intros [_ Hbf]. unfold keys_on_the_edge.
  etransitivity; [apply (length_concat_bound _ BUCKET_SIZE)|].
  - apply Forall_fmap, Forall_forall. intros l _. simpl.
    rewrite length_fmap. destruct Hbf as [Hb|Hf].
    + rewrite blank_bucket by exact Hb. simpl. lia.
    + unfold bucket_at.
      destruct (lookup_node (arr_of w) (edge l)) as [n|] eqn:E; [|simpl; lia].
      destruct (tidy_len _ _ _ Hf (edge l) n _ E eq_refl) as (b & Hv & Hlen).
      rewrite Hv. simpl. lia.
  - rewrite length_fmap, length_seq. lia.
Qed.

(** In every state that client and server reach, the ids with an entry in
    the tree are at most [BUCKET_SIZE * (height + 1)] in number, the slots
    of the right edge, however many blocks the server was made for. *)
Theorem tree_holds_no_more_than_its_right_edge hmac w (ids : list Z) :
  reachable hmac w -> NoDup ids ->
  Forall (fun id => (0 < count_id id w)%nat) ids ->
  (length ids <= BUCKET_SIZE * S (height (server w)))%nat.
Proof.
  intros Hr Hnd Hall.
  destruct (reachable_aligned hmac w Hr) as [Hb Hs].
  etransitivity; [|apply length_keys_on_the_edge, (reachable_settled hmac w Hr)].
  rewrite <- (length_fmap str ids).
  apply submseteq_length, NoDup_submseteq.
  - apply NoDup_fmap; [|exact Hnd]. intros a b. apply str_inj.
  - intros s Hin. apply list_elem_of_fmap in Hin as (id & -> & Hid).
    pose proof (proj1 (Forall_forall _ _) Hall id Hid) as Hpos.
    apply count_id_positive in Hpos as ([a j] & b & [k v] & Hbk & He & Hk).
    unfold is_entry_of in Hk. simpl in Hk. apply String.eqb_eq in Hk.
    assert (Hedge : j = (2 ^ a - 1)%nat).
    { destruct (Hs (a, j) b k v Hbk He) as [[_ Hno]|[_ Hedge]];
        [now destruct (Hno id) | exact Hedge]. }
    subst j. change (a, 2 ^ a - 1)%nat with (edge a) in Hbk.
    assert (Ha : (a <= height (server w))%nat).
    { apply (built_lookup w a (2 ^ a - 1)%nat Hb). unfold bucket_at, edge in Hbk.
      destruct (lookup_node (arr_of w) (a, (2 ^ a - 1)%nat)); [eauto | discriminate]. }
    unfold keys_on_the_edge.
    apply (elem_of_concat_intro _
             ((fun e : ciphertext * ciphertext => decrypt e.1)
                <$> default [] (bucket_at w (edge a)))).
    + rewrite Hbk, <- Hk. simpl. apply list_elem_of_fmap. exists (k, v).
      split; [reflexivity | exact He].
    + apply list_elem_of_fmap. exists a. split; [reflexivity|].
      apply elem_of_seq. lia.
Qed.

(** Id 1 after its store on [Server(7)], of height 2. *)
Lemma tree_holds_no_more_than_its_right_edge_witness :
  (length [1] <= BUCKET_SIZE * S (height (server deep_store.2)))%nat.
Proof.
  apply (tree_holds_no_more_than_its_right_edge plain_tag deep_store.2 [1]).
  - unfold deep_store. apply reach_store. apply (reach_fresh plain_tag 7).
    vm_compute. reflexivity.
  - repeat constructor. apply not_elem_of_nil.
  - constructor; [vm_compute; lia | constructor].
Defined.

(** *** Concrete runs *)

(** C1 is not what the code does.  On [Server(7)] id 1 is stored with leaf
    8, bits ['1000'].  The push-down pass over level 1 takes the entry out
    of node (1,1); the bit at position 1 is ['0'], yet the entry goes to
    the right child (2,3), not to the left child (2,2).  The walk of
    [delete_data] with path ['000'] goes root, (1,1), (2,3): right at each
    step. *)
Theorem real_entries_go_right_whatever_the_bit :
  deep_store.1 = Return PyNone
  /\ memory deep_store.2 !! 1 = Some ("1000"%string, plain_tag "K" "1aaaa")
  /\ str_index "1000" 1 = Return (PyStr "0")
  /\ (left <$> lookup_node (arr_of deep_store.2) (1, 1)%nat) = Some (Some (2, 2)%nat)
  /\ (right <$> lookup_node (arr_of deep_store.2) (1, 1)%nat) = Some (Some (2, 3)%nat)
  /\ holders 1 deep_store.2 = [(2, 3)%nat]
  /\ (delete_data 1 deep_store.2).1 = Return (PyBytes "aaaa")
  /\ touched_since deep_store.2 (delete_data 1 deep_store.2).2
     = [(0, 0); (1, 1); (2, 3); (2, 3); (2, 3); (2, 3)]%nat.
Proof. vm_compute. repeat split; reflexivity. Qed.

(** Whatever the path says, [descend] gives the right child. *)
Lemma descend_goes_right cur path level w next w' :
  descend cur path level w = (Return next, w') ->
  exists n, node_of cur w = (Return n, w') /\ next = right n.2.
Proof.
  unfold descend, bind, lift, ret, str_index.
  destruct (node_of cur w) as [[n|e] w1]; [|discriminate].
  destruct (get level path); [|discriminate].
  simpl. intros H. injection H as <- <-. eauto.
Qed.

(** C2 is not what the code does.  On [Server(2)] four stored entries
    fill the right leaf; the fifth store puts its entry in the root, the
    push-down pass takes it out and finds no dummy in the right leaf to
    replace, and the entry is gone: the store returns normally, the
    position map knows id 5, and the retrieve that follows returns
    [None]. *)
Theorem fifth_store_is_lost :
  crowded_run.1 = [Return PyNone; Return PyNone; Return PyNone; Return PyNone;
                   Return PyNone; Return PyNone]
  /\ memory crowded_run.2 !! 5 = Some ("100"%string, plain_tag "K" "5eeee")
  /\ count_id 5 crowded_run.2 = 0%nat
  /\ holders 4 crowded_run.2 = [(1, 1)%nat].
Proof. vm_compute. repeat split; reflexivity. Qed.

(** C3 is not what the code does.  The server has exchanged the values of
    ids 1 and 2.  [retrieve_data] for id 1 returns the value stored for id
    2, although its tag differs from the one recorded when id 1 was
    stored: the comparison is made against the tag that the re-insert has
    just computed from the returned value. *)
Theorem swapped_value_is_accepted :
  memory tampered !! 1 = Some ("10"%string, plain_tag "K" "1aaaa")
  /\ String.eqb (plain_tag "K" (str 1 ++ "bbbb")) (plain_tag "K" "1aaaa") = false
  /\ (retrieve_data plain_tag 3 1 tampered).1 = Return (PyStr "bbbb")
  /\ memory (retrieve_data plain_tag 3 1 tampered).2 !! 1
     = Some ("11"%string, plain_tag "K" "1bbbb").
Proof. vm_compute. repeat split; reflexivity. Qed.

(** C8 is not what the code does: [PerfectTree(4)] has [size] 5, and 6 is
    no power of two.  The tree built has height 2 and 7 nodes. *)
Theorem size_of_tree_for_four_blocks :
  fix_size (4 + 1) = Return 5
  /\ (size <$> (match new_tree 4 with Return t => Some t | Raise _ => None end)) = Some 5
  /\ is_power_of_two (5 + 1) = false
  /\ (tree_height <$> (match new_tree 4 with Return t => Some t | Raise _ => None end))
     = Some 2%nat
  /\ (node_count <$> (match new_tree 4 with Return t => Some t | Raise _ => None end))
     = Some 7%nat.
Proof. vm_compute. repeat split; reflexivity. Qed.

End PathORAMFacts.
